(** * CodeSolverAi: the streaming gateway and the chat reducer

    A shallow embedding of two parts of the repository:

    - the route handler of [/api/chat] ([getAvailableModels],
      [buildGeminiContents], [createStreamResponse], [POST]);
    - the chat component ([deriveTitle], [upsertChat], [sendMessage]).

    JavaScript strings are sequences of UTF-16 code units, byte arrays are
    sequences of octets, timestamps are integers (milliseconds).  The
    platform's [TextDecoder] is embedded as the UTF-8 decoder of the WHATWG
    Encoding Standard, which is what [new TextDecoder()] runs. *)

From Stdlib Require Import List NArith ZArith Bool Lia ZifyN String Ascii.
Import ListNotations.

Set Implicit Arguments.

(* ================================================================== *)
(** ** JavaScript strings *)
(* ================================================================== *)

(** A string value: its UTF-16 code units. *)
Abbreviation jsstring := (list N).

Module JS.

(** An ASCII literal of the source as a string value. *)
Definition lit (s : string) : jsstring :=
  List.map N_of_ascii (list_ascii_of_string s).

(** [a === b] on strings. *)
Fixpoint eqb (a b : jsstring) : bool :=
  match a, b with
  | [], [] => true
  | x :: a', y :: b' => N.eqb x y && eqb a' b'
  | _, _ => false
  end.

(** [Boolean(s)] for a string: the empty string is the only falsy one. *)
Definition truthy (s : jsstring) : bool :=
  match s with
  | [] => false
  | _ :: _ => true
  end.

(** WhiteSpace and LineTerminator code points of ECMAScript, the ones
    [String.prototype.trim] strips. *)
Definition is_whitespace (c : N) : bool :=
  ((0x09 <=? c) && (c <=? 0x0D)
   || (c =? 0x20) || (c =? 0xA0) || (c =? 0x1680)
   || ((0x2000 <=? c) && (c <=? 0x200A))
   || (c =? 0x2028) || (c =? 0x2029) || (c =? 0x202F)
   || (c =? 0x205F) || (c =? 0x3000) || (c =? 0xFEFF))%N.

(** [s.trimStart()] *)
Fixpoint trimStart (s : jsstring) : jsstring :=
  match s with
  | [] => []
  | c :: s' => if is_whitespace c then trimStart s' else s
  end.

(** [s.trimEnd()] *)
Definition trimEnd (s : jsstring) : jsstring :=
  rev (trimStart (rev s)).

(** [s.trim()] *)
Definition trim (s : jsstring) : jsstring :=
  trimEnd (trimStart s).

(** [s.slice(0, n)] for a non-negative [n]. *)
Definition slice0 (n : nat) (s : jsstring) : jsstring := firstn n s.

(** [s.startsWith(p)] *)
Fixpoint startsWith (p s : jsstring) : bool :=
  match p, s with
  | [], _ => true
  | _ :: _, [] => false
  | x :: p', y :: s' => N.eqb x y && startsWith p' s'
  end.

(** [s.includes(p)] on strings: [p] occurs at some position of [s]. *)
Fixpoint includes (s p : jsstring) : bool :=
  startsWith p s ||
  match s with
  | [] => false
  | _ :: s' => includes s' p
  end.

(** [s.replace(p, r)] with a string pattern: the first occurrence only. *)
Fixpoint replace (p r s : jsstring) : jsstring :=
  if startsWith p s then r ++ skipn (List.length p) s
  else match s with
       | [] => []
       | c :: s' => c :: replace p r s'
       end.

(** [arr.includes(x)] on an array of strings. *)
Definition arrayIncludes (arr : list jsstring) (x : jsstring) : bool :=
  existsb (eqb x) arr.

End JS.

(* ================================================================== *)
(** ** The UTF-8 decoder behind [TextDecoder] *)
(* ================================================================== *)

(** [TextDecoder] belongs to the platform, not to the repository: the
    definitions below follow the UTF-8 decoder and the [decode] method of
    the Encoding Standard, byte by byte. *)

Module Utf8.

Local Open Scope N_scope.

(** The state of the UTF-8 decoder of the Encoding Standard. *)
Record Decoder := mkDecoder
  { code_point : N;
    bytes_seen : N;
    bytes_needed : N;
    lower_boundary : N;
    upper_boundary : N }.

Definition fresh : Decoder := mkDecoder 0 0 0 0x80 0xBF.

Definition REPLACEMENT : N := 0xFFFD.
Definition BOM : N := 0xFEFF.

(** The handler on a byte when no continuation byte is awaited (step 3):
    the new state and the code points emitted. *)
Definition lead (b : N) : Decoder * list N :=
  if b <=? 0x7F then (fresh, [b])
  else if (0xC2 <=? b) && (b <=? 0xDF) then
    (mkDecoder (N.land b 0x1F) 0 1 0x80 0xBF, [])
  else if (0xE0 <=? b) && (b <=? 0xEF) then
    (mkDecoder (N.land b 0xF) 0 2
       (if b =? 0xE0 then 0xA0 else 0x80)
       (if b =? 0xED then 0x9F else 0xBF), [])
  else if (0xF0 <=? b) && (b <=? 0xF4) then
    (mkDecoder (N.land b 0x7) 0 3
       (if b =? 0xF0 then 0x90 else 0x80)
       (if b =? 0xF4 then 0x8F else 0xBF), [])
  else (fresh, [REPLACEMENT]).

(** The handler on one byte, in replacement error mode.  A byte outside
    the awaited range resets the decoder, emits U+FFFD and is handled
    again as a first byte (steps 4 to 8). *)
Definition handler (d : Decoder) (b : N) : Decoder * list N :=
  if bytes_needed d =? 0 then lead b
  else if negb ((lower_boundary d <=? b) && (b <=? upper_boundary d)) then
    let '(d', out) := lead b in (d', REPLACEMENT :: out)
  else
    let cp := N.lor (N.shiftl (code_point d) 6) (N.land b 0x3F) in
    let seen := bytes_seen d + 1 in
    if seen =? bytes_needed d then (fresh, [cp])
    else (mkDecoder cp seen (bytes_needed d) 0x80 0xBF, []).

(** The decoder run over a byte sequence, without end-of-queue. *)
Fixpoint run (d : Decoder) (bytes : list N) : Decoder * list N :=
  match bytes with
  | [] => (d, [])
  | b :: rest =>
      let '(d1, out1) := handler d b in
      let '(d2, out2) := run d1 rest in
      (d2, out1 ++ out2)
  end.

(** The handler on end-of-queue: an unfinished sequence is an error. *)
Definition end_of_queue (d : Decoder) : list N :=
  if bytes_needed d =? 0 then [] else [REPLACEMENT].

(** A code point as UTF-16 code units. *)
Definition utf16 (cp : N) : jsstring :=
  if cp <? 0x10000 then [cp]
  else [0xD800 + (cp - 0x10000) / 0x400; 0xDC00 + (cp - 0x10000) mod 0x400].

(** Serializing the decoder's output: with [ignoreBOM] unset, the first
    code point of the stream is dropped when it is U+FEFF. *)
Fixpoint serialize (bom_seen : bool) (cps : list N) : bool * jsstring :=
  match cps with
  | [] => (bom_seen, [])
  | cp :: rest =>
      if negb bom_seen && (cp =? BOM) then serialize true rest
      else let '(seen, s) := serialize true rest in (seen, utf16 cp ++ s)
  end.

(** A [TextDecoder] object: [new TextDecoder()] is UTF-8, not fatal, BOM
    not ignored. *)
Record TextDecoder := mkTextDecoder
  { decoder : Decoder;
    BOM_seen : bool }.

Definition newTextDecoder : TextDecoder := mkTextDecoder fresh false.

(** [td.decode(chunk, { stream: true })]: the decoder state is kept for
    the next call and end-of-queue is not processed. *)
Definition decode_stream (td : TextDecoder) (chunk : list N)
  : TextDecoder * jsstring :=
  let '(d, cps) := run (decoder td) chunk in
  let '(seen, s) := serialize (BOM_seen td) cps in
  (mkTextDecoder d seen, s).

(** [new TextDecoder().decode(bytes)]: the whole input, then
    end-of-queue. *)
Definition decode (bytes : list N) : jsstring :=
  let '(d, cps) := run fresh bytes in
  snd (serialize false (cps ++ end_of_queue d)).

(** The UTF-8 encoding of a code point. *)
Definition encode_code_point (cp : N) : list N :=
  if cp <=? 0x7F then [cp]
  else if cp <=? 0x7FF then
    [0xC0 + cp / 0x40; 0x80 + cp mod 0x40]
  else if cp <=? 0xFFFF then
    [0xE0 + cp / 0x1000; 0x80 + (cp / 0x40) mod 0x40; 0x80 + cp mod 0x40]
  else
    [0xF0 + cp / 0x40000; 0x80 + (cp / 0x1000) mod 0x40;
     0x80 + (cp / 0x40) mod 0x40; 0x80 + cp mod 0x40].

Definition encode (cps : list N) : list N := flat_map encode_code_point cps.

(** Unicode scalar values: code points that are not surrogates. *)
Definition is_scalar (cp : N) : bool :=
  (cp <=? 0x10FFFF) && negb ((0xD800 <=? cp) && (cp <=? 0xDFFF)).

End Utf8.

(* ================================================================== *)
(** ** The route handler of [/api/chat] *)
(* ================================================================== *)

Module RequestMessage.
(** [type RequestMessage]; the role is kept as the string of the JSON
    payload, which is what the code compares. *)
Record image_t := mkImage
  { mimeType : jsstring;
    data : jsstring;
    name : jsstring }.

Record t := mk
  { role : jsstring;
    content : jsstring;
    image : option image_t }.
End RequestMessage.

Module Gateway.

Import JS.

(** One entry of [ListModelsResponse.models]. *)
Record ModelEntry := mkModelEntry
  { name : option jsstring;
    supportedGenerationMethods : option (list jsstring) }.

(** [type ListModelsResponse] *)
Record ListModelsResponse := mkListModelsResponse
  { models : option (list ModelEntry) }.

Definition PREFERRED_MODEL_ORDER : list jsstring :=
  [ lit "gemini-1.5-pro-latest";
    lit "gemini-1.5-flash-latest";
    lit "gemini-pro" ].

Definition CACHE_DURATION_MS : Z := 60 * 60 * 1000.

(** The module-level variables [cachedModels] and [lastModelFetchTime]. *)
Record Cache := mkCache
  { cachedModels : list jsstring;
    lastModelFetchTime : Z }.

Definition initial_cache : Cache := mkCache [] 0.

(** What the listing [fetch] and [response.json()] can do. *)
Inductive ListingOutcome :=
| FetchRejected
| NotOk (status : Z) (statusText : jsstring)
| JsonRejected
| Listed (payload : ListModelsResponse).

(** Calls made to the upstream service, in the order they are made. *)
Inductive UpstreamCall :=
| ListModels
| OpenStream (modelName : jsstring).

(** Errors thrown inside the handler. *)
Inductive Thrown :=
| ListingFailed (status : Z) (statusText : jsstring)
| Rejected.

(** [model.supportedGenerationMethods?.includes("generateContent")] *)
Definition supportsGenerateContent (m : ModelEntry) : bool :=
  match supportedGenerationMethods m with
  | Some methods => arrayIncludes methods (lit "generateContent")
  | None => false
  end.

(** [model.name?.replace("models/", "")] *)
Definition strippedName (m : ModelEntry) : option jsstring :=
  option_map (replace (lit "models/") []) (name m).

(** [.filter((name): name is string => Boolean(name))] *)
Fixpoint definedNames (l : list (option jsstring)) : list jsstring :=
  match l with
  | [] => []
  | Some n :: rest => if truthy n then n :: definedNames rest
                      else definedNames rest
  | None :: rest => definedNames rest
  end.

(** [modelIds] of [getAvailableModels]. *)
Definition modelIds (payload : ListModelsResponse) : list jsstring :=
  match models payload with
  | Some ms => definedNames (List.map strippedName
                               (filter supportsGenerateContent ms))
  | None => []
  end.

(** [ordered] and [remaining] of [getAvailableModels]. *)
Definition ordered (ids : list jsstring) : list jsstring :=
  filter (fun name => arrayIncludes ids name) PREFERRED_MODEL_ORDER.

Definition remaining (ids : list jsstring) : list jsstring :=
  filter (fun name => negb (arrayIncludes (ordered ids) name)
                      && negb (includes name (lit "embedding")))
         ids.

Definition allAvailableModels (ids : list jsstring) : list jsstring :=
  ordered ids ++ remaining ids.

(** The cache test at the top of [getAvailableModels]. *)
Definition cacheFresh (c : Cache) (now : Z) : bool :=
  (0 <? Z.of_nat (List.length (cachedModels c)))%Z
  && (now - lastModelFetchTime c <? CACHE_DURATION_MS)%Z.

(** [getAvailableModels]: the value returned or the error thrown, the
    module variables afterwards and the upstream calls made. *)
Definition getAvailableModels (c : Cache) (now : Z) (listing : ListingOutcome)
  : (Thrown + list jsstring) * Cache * list UpstreamCall :=
  if cacheFresh c now then (inr (cachedModels c), c, [])
  else
    match listing with
    | FetchRejected => (inl Rejected, c, [ListModels])
    | NotOk status statusText =>
        (inl (ListingFailed status statusText), c, [ListModels])
    | JsonRejected => (inl Rejected, c, [ListModels])
    | Listed payload =>
        let c' := mkCache (allAvailableModels (modelIds payload)) now in
        (inr (cachedModels c'), c', [ListModels])
    end.

(** One turn of the upstream content format. *)
Inductive Part :=
| TextPart (text : jsstring)
| InlineData (mimeType data : jsstring).

Record Content := mkContent
  { role : jsstring;
    parts : list Part }.

Definition keptMessage (message : RequestMessage.t) : bool :=
  (0 <? List.length (trim (RequestMessage.content message)))%nat
  || match RequestMessage.image message with
     | Some _ => true
     | None => false
     end.

Definition toContent (message : RequestMessage.t) : Content :=
  mkContent
    (if eqb (RequestMessage.role message) (lit "assistant")
     then lit "model" else lit "user")
    ((if (0 <? List.length (trim (RequestMessage.content message)))%nat
      then [TextPart (RequestMessage.content message)] else [])
     ++ match RequestMessage.image message with
        | Some img => [InlineData (RequestMessage.mimeType img)
                                  (RequestMessage.data img)]
        | None => []
        end).

(** [buildGeminiContents] *)
Definition buildGeminiContents (messages : list RequestMessage.t)
  : list Content :=
  List.map toContent (filter keptMessage messages).

(** The [messages] property of the parsed body. *)
Inductive MessagesField :=
| Missing                      (* undefined or null *)
| NotAnArray                   (* any other value that is not an array *)
| Messages (l : list RequestMessage.t).

(** What [request.json()] gives. *)
Inductive RequestBody :=
| Unparsable                   (* [request.json()] rejects *)
| NullBody                     (* JSON [null]: reading a property throws *)
| Body (messages : MessagesField).

Section Handler.

(** The result of [model.generateContentStream], whose chunks the
    response body relays. *)
Variable UpstreamStream : Type.

(** The body of a response. *)
Inductive ResponseBody :=
| JsonError (error : jsstring)
| TextStream (relayed : UpstreamStream).

Record Response := mkResponse
  { status : Z;
    body : ResponseBody }.

(** Opening a stream: the position of the attempt in the request, the
    model and the translated transcript; [None] when
    [generateContentStream] throws. *)
Variable generateContentStream :
  nat -> jsstring -> list Content -> option UpstreamStream.

(** [createStreamResponse]; [None] when it throws. *)
Definition createStreamResponse (attempt : nat)
    (messages : list RequestMessage.t) (modelName : jsstring)
  : option Response :=
  match generateContentStream attempt modelName
          (buildGeminiContents messages) with
  | Some stream => Some (mkResponse 200 (TextStream stream))
  | None => None
  end.

(** The [for ... of modelCandidates] loop of [POST] and the response
    after it. *)
Fixpoint tryCandidates (attempt : nat) (messages : list RequestMessage.t)
    (candidates : list jsstring) : Response * list UpstreamCall :=
  match candidates with
  | [] =>
      (mkResponse 503
         (JsonError (lit "The AI service is currently unavailable. Please try again later.")),
       [])
  | modelName :: rest =>
      match createStreamResponse attempt messages modelName with
      | Some response => (response, [OpenStream modelName])
      | None =>
          let '(response, calls) :=
            tryCandidates (S attempt) messages rest in
          (response, OpenStream modelName :: calls)
      end
  end.

Definition invalidBody : Response :=
  mkResponse 400 (JsonError (lit "Invalid request body. Expected JSON payload.")).

(** [POST]: the response, the module variables afterwards and the
    upstream calls made. *)
Definition POST (apiKey : option jsstring) (request : RequestBody)
    (c : Cache) (now : Z) (listing : ListingOutcome)
  : Response * Cache * list UpstreamCall :=
  match apiKey with
  | None | Some [] =>
      (mkResponse 500
         (JsonError (lit "Missing GEMINI_API_KEY. Add it to your environment variables.")),
       c, [])
  | Some (_ :: _) =>
      match request with
      | Unparsable | NullBody => (invalidBody, c, [])
      | Body field =>
          match field with
          | Missing | NotAnArray | Messages [] =>
              (mkResponse 400
                 (JsonError (lit "Invalid request. 'messages' must be a non-empty array.")),
               c, [])
          | Messages ((_ :: _) as messages) =>
              match getAvailableModels c now listing with
              | (inl _, c', calls) => (invalidBody, c', calls)
              | (inr [], c', calls) =>
                  (mkResponse 500
                     (JsonError (lit "No Gemini models with generateContent support are available for this API key.")),
                   c', calls)
              | (inr ((_ :: _) as modelCandidates), c', calls) =>
                  let '(response, opens) :=
                    tryCandidates 0 messages modelCandidates in
                  (response, c', calls ++ opens)
              end
          end
      end
  end.

End Handler.

Arguments JsonError {UpstreamStream} error.
Arguments invalidBody {UpstreamStream}.

(** The error bodies of [POST]. *)
Definition ERROR_UNAVAILABLE : jsstring :=
  lit "The AI service is currently unavailable. Please try again later.".
Definition ERROR_MESSAGES : jsstring :=
  lit "Invalid request. 'messages' must be a non-empty array.".
Definition ERROR_BODY : jsstring :=
  lit "Invalid request body. Expected JSON payload.".
Definition ERROR_KEY : jsstring :=
  lit "Missing GEMINI_API_KEY. Add it to your environment variables.".

(** A request without a transcript: the body is no JSON or [null], or its
    [messages] is absent, not an array or an empty array. *)
Definition noTranscript (request : RequestBody) : bool :=
  match request with
  | Body (Messages (_ :: _)) => false
  | _ => true
  end.

End Gateway.

(* ================================================================== *)
(** ** The chat component *)
(* ================================================================== *)

(** [type ChatRole] *)
Inductive ChatRole := user | assistant.

Module ChatImage.
(** [type ChatImage] *)
Record t := mk
  { mimeType : jsstring;
    data : jsstring;
    name : jsstring }.
End ChatImage.

Module ChatMessage.
(** [type ChatMessage] *)
Record t := mk
  { id : jsstring;
    role : ChatRole;
    content : jsstring;
    image : option ChatImage.t }.

(** [{ ...message, content: text }] *)
Definition withContent (message : t) (text : jsstring) : t :=
  mk (id message) (role message) text (image message).
End ChatMessage.

Module ChatSession.
(** [type ChatSession] *)
Record t := mk
  { id : jsstring;
    title : jsstring;
    createdAt : Z;
    updatedAt : Z;
    messages : list ChatMessage.t }.
End ChatSession.

Module Reducer.

Import JS.

(** The state of [ChatApp] that [sendMessage] reads and writes. *)
Record State := mkState
  { chats : list ChatSession.t;
    activeChatId : jsstring;
    input : jsstring;
    inputImage : option ChatImage.t;
    isStreaming : bool;
    errorMessage : jsstring }.

Definition isUser (message : ChatMessage.t) : bool :=
  match ChatMessage.role message with
  | user => true
  | assistant => false
  end.

(** [deriveTitle] *)
Definition deriveTitle (messages : list ChatMessage.t) : jsstring :=
  match find isUser messages with
  | None => lit "New Chat"
  | Some firstUserMessage =>
      let firstText := trim (ChatMessage.content firstUserMessage) in
      if truthy firstText then slice0 50 firstText
      else match ChatMessage.image firstUserMessage with
           | Some img => lit "Image: " ++ ChatImage.name img
           | None => lit "New Chat"
           end
  end.

(** [chats.find((chat) => chat.id === activeChatId) ?? chats[0]] *)
Definition activeChat (st : State) : option ChatSession.t :=
  match find (fun chat => eqb (ChatSession.id chat) (activeChatId st))
             (chats st) with
  | Some chat => Some chat
  | None => hd_error (chats st)
  end.

(** The state update of [upsertChat]:
    [current.map((chat) => (chat.id === chatId ? updater(chat) : chat))] *)
Definition upsertChat (chatId : jsstring)
    (updater : ChatSession.t -> ChatSession.t)
    (current : list ChatSession.t) : list ChatSession.t :=
  List.map (fun chat => if eqb (ChatSession.id chat) chatId
                        then updater chat else chat) current.

(** The updater of the first [upsertChat] of [sendMessage]. *)
Definition withMessages (nextMessages : list ChatMessage.t) (now : Z)
    (chat : ChatSession.t) : ChatSession.t :=
  ChatSession.mk (ChatSession.id chat) (deriveTitle nextMessages)
    (ChatSession.createdAt chat) now nextMessages.

(** The updater of the other [upsertChat] calls of [sendMessage]: the
    content of the messages whose id is [messageId] is replaced. *)
Definition withContentOf (messageId : jsstring) (text : jsstring) (now : Z)
    (chat : ChatSession.t) : ChatSession.t :=
  ChatSession.mk (ChatSession.id chat) (ChatSession.title chat)
    (ChatSession.createdAt chat) now
    (List.map (fun message =>
                 if eqb (ChatMessage.id message) messageId
                 then ChatMessage.withContent message text
                 else message)
              (ChatSession.messages chat)).

Definition setChats (f : list ChatSession.t -> list ChatSession.t)
    (st : State) : State :=
  mkState (f (chats st)) (activeChatId st) (input st) (inputImage st)
    (isStreaming st) (errorMessage st).

Definition setErrorMessage (e : jsstring) (st : State) : State :=
  mkState (chats st) (activeChatId st) (input st) (inputImage st)
    (isStreaming st) e.

Definition setIsStreaming (b : bool) (st : State) : State :=
  mkState (chats st) (activeChatId st) (input st) (inputImage st)
    b (errorMessage st).

Definition setActiveChatId (chatId : jsstring) (st : State) : State :=
  mkState (chats st) chatId (input st) (inputImage st)
    (isStreaming st) (errorMessage st).

(** What one call of [sendMessage] keeps in its closure: the session and
    the two messages of the submission, and the reader's variables. *)
Record Submission := mkSubmission
  { chatId : jsstring;
    userMessage : ChatMessage.t;
    assistantMessage : ChatMessage.t;
    nextMessages : list ChatMessage.t;
    decoder : Utf8.TextDecoder;
    fullAssistantText : jsstring }.

(** [sendMessage] up to the request: [None] when the guard returns.
    [userId] and [assistantId] are the two results of [createId], [now]
    the result of [Date.now]. *)
Definition submit (userId assistantId : jsstring) (now : Z) (st : State)
  : option (State * Submission) :=
  let text := trim (input st) in
  match activeChat st with
  | None => None
  | Some active =>
      if (negb (truthy text) && match inputImage st with
                                | Some _ => false
                                | None => true
                                end)
         || isStreaming st
      then None
      else
        let userMessage :=
          ChatMessage.mk userId user text (inputImage st) in
        let assistantMessage :=
          ChatMessage.mk assistantId assistant [] None in
        let nextMessages :=
          ChatSession.messages active ++ [userMessage; assistantMessage] in
        Some (mkState
                (upsertChat (ChatSession.id active)
                   (withMessages nextMessages now) (chats st))
                (activeChatId st) [] None true [],
              mkSubmission (ChatSession.id active) userMessage
                assistantMessage nextMessages Utf8.newTextDecoder [])
  end.

(** The body of the [while] loop for one chunk with a value. *)
Definition receive (chunk : list N) (now : Z) (sub : Submission) (st : State)
  : Submission * State :=
  let '(td, text) := Utf8.decode_stream (decoder sub) chunk in
  let full := fullAssistantText sub ++ text in
  (mkSubmission (chatId sub) (userMessage sub) (assistantMessage sub)
     (nextMessages sub) td full,
   setChats (upsertChat (chatId sub)
               (withContentOf (ChatMessage.id (assistantMessage sub))
                  full now)) st).

(** The [while] loop over the chunks the reader delivers, each with the
    [Date.now] of its update. *)
Fixpoint readAll (chunks : list (list N * Z)) (sub : Submission) (st : State)
  : Submission * State :=
  match chunks with
  | [] => (sub, st)
  | (chunk, now) :: rest =>
      let '(sub', st') := receive chunk now sub st in
      readAll rest sub' st'
  end.

Definition FALLBACK_NOT_OK : jsstring :=
  lit "Failed to stream response from API.".
Definition FALLBACK_THROWN : jsstring :=
  lit "Something went wrong while generating a response.".

(** The two failure paths: the banner and the placeholder get the same
    string. *)
Definition fail (fallback : jsstring) (now : Z) (sub : Submission)
    (st : State) : State :=
  setChats (upsertChat (chatId sub)
              (withContentOf (ChatMessage.id (assistantMessage sub))
                 fallback now))
           (setErrorMessage fallback st).

(** What the request and the reader do. *)
Inductive Outcome :=
| FetchThrows (now : Z)
| ResponseNotOk (now : Z)
| Streamed (chunks : list (list N * Z))
| StreamedThenThrows (chunks : list (list N * Z)) (now : Z).

(** [sendMessage] after the request is issued, with no other update of
    the state in between. *)
Definition complete (o : Outcome) (sub : Submission) (st : State) : State :=
  setIsStreaming false
    match o with
    | FetchThrows now => fail FALLBACK_THROWN now sub st
    | ResponseNotOk now => fail FALLBACK_NOT_OK now sub st
    | Streamed chunks => snd (readAll chunks sub st)
    | StreamedThenThrows chunks now =>
        let '(sub', st') := readAll chunks sub st in
        fail FALLBACK_THROWN now sub' st'
    end.

(** [sendMessage] *)
Definition sendMessage (userId assistantId : jsstring) (now : Z)
    (o : Outcome) (st : State) : State :=
  match submit userId assistantId now st with
  | None => st
  | Some (st', sub) => complete o sub st'
  end.

(** [createEmptyChat], with the results of [createId] and [Date.now]. *)
Definition createEmptyChat (newId : jsstring) (now : Z) : ChatSession.t :=
  ChatSession.mk newId (lit "New Chat") now now [].

(** [startNewChat] *)
Definition startNewChat (newId : jsstring) (now : Z) (st : State) : State :=
  mkState (createEmptyChat newId now :: chats st) newId [] None
    (isStreaming st) [].

(** What can happen while a response is streamed: the reader delivers a
    chunk, or the user selects a session in the sidebar ([onSelectChat])
    or starts a new one. *)
Inductive Event :=
| Delivered (chunk : list N) (now : Z)
| Selected (chatId : jsstring)
| Started (newId : jsstring) (now : Z).

Definition handle (e : Event) (sub : Submission) (st : State)
  : Submission * State :=
  match e with
  | Delivered chunk now => receive chunk now sub st
  | Selected chatId => (sub, setActiveChatId chatId st)
  | Started newId now => (sub, startNewChat newId now st)
  end.

Fixpoint handleAll (events : list Event) (sub : Submission) (st : State)
  : Submission * State :=
  match events with
  | [] => (sub, st)
  | e :: rest =>
      let '(sub', st') := handle e sub st in
      handleAll rest sub' st'
  end.

(** The bytes delivered by a sequence of events, joined. *)
Fixpoint delivered (events : list Event) : list N :=
  match events with
  | [] => []
  | Delivered chunk _ :: rest => chunk ++ delivered rest
  | _ :: rest => delivered rest
  end.

End Reducer.

(* ================================================================== *)
(** ** The specification's descriptions, as definitions *)
(* ================================================================== *)

Module Spec.

Import JS.

(** The order of the resolved candidates in the specification's words:
    the preferred names that are available, in the preference list's
    order, then the other available names in listing order, without the
    ones marked as embedding models. *)
Definition preferredThenListed (ids : list jsstring) : list jsstring :=
  filter (fun name => arrayIncludes ids name) Gateway.PREFERRED_MODEL_ORDER
  ++ filter (fun name =>
               negb (arrayIncludes Gateway.PREFERRED_MODEL_ORDER name)
               && negb (includes name (lit "embedding")))
            ids.

(** A message has something to send: non-empty trimmed text or an
    image. *)
Definition hasTextOrImage (message : RequestMessage.t) : Prop :=
  trim (RequestMessage.content message) <> []
  \/ RequestMessage.image message <> None.

Definition turnRole (message : RequestMessage.t) : jsstring :=
  if eqb (RequestMessage.role message) (lit "assistant")
  then lit "model" else lit "user".

Definition imageParts (message : RequestMessage.t) : list Gateway.Part :=
  match RequestMessage.image message with
  | Some img => [Gateway.InlineData (RequestMessage.mimeType img)
                                    (RequestMessage.data img)]
  | None => []
  end.

(** The turn of a message in the specification's words: its text part is
    the trimmed text. *)
Definition turnWithTrimmedText (message : RequestMessage.t)
  : Gateway.Content :=
  Gateway.mkContent (turnRole message)
    (match trim (RequestMessage.content message) with
     | [] => []
     | trimmed => [Gateway.TextPart trimmed]
     end ++ imageParts message).

(** The turn of a message with its text as it was received. *)
Definition turnWithOriginalText (message : RequestMessage.t)
  : Gateway.Content :=
  Gateway.mkContent (turnRole message)
    (match trim (RequestMessage.content message) with
     | [] => []
     | _ => [Gateway.TextPart (RequestMessage.content message)]
     end ++ imageParts message).

(** A transcript and its translation, turn by turn: a message with
    neither text nor image gives no turn, any other message gives the
    turn [turn] says. *)
Inductive Translates (turn : RequestMessage.t -> Gateway.Content)
  : list RequestMessage.t -> list Gateway.Content -> Prop :=
| translates_nil : Translates turn [] []
| translates_drop message rest turns :
    ~ hasTextOrImage message ->
    Translates turn rest turns ->
    Translates turn (message :: rest) turns
| translates_keep message rest turns :
    hasTextOrImage message ->
    Translates turn rest turns ->
    Translates turn (message :: rest) (turn message :: turns).

(** The first user message of a list: the one after assistant messages
    only, if there is one. *)
Inductive FirstUser : list ChatMessage.t -> option ChatMessage.t -> Prop :=
| first_user_none messages :
    Forall (fun m => ChatMessage.role m = assistant) messages ->
    FirstUser messages None
| first_user_some before first rest :
    Forall (fun m => ChatMessage.role m = assistant) before ->
    ChatMessage.role first = user ->
    FirstUser (before ++ first :: rest) (Some first).

(** The title in the specification's words: the first 50 characters of
    the trimmed text of the first user message, "New Chat" without such a
    text. *)
Definition titleOfText (first : option ChatMessage.t) : jsstring :=
  match first with
  | Some message =>
      match trim (ChatMessage.content message) with
      | [] => lit "New Chat"
      | trimmed => firstn 50 trimmed
      end
  | None => lit "New Chat"
  end.

(** The title with the image case: a first user message without text but
    with an image is titled after the image's name. *)
Definition titleOfTextOrImage (first : option ChatMessage.t) : jsstring :=
  match first with
  | Some message =>
      match trim (ChatMessage.content message) with
      | [] => match ChatMessage.image message with
              | Some img => lit "Image: " ++ ChatImage.name img
              | None => lit "New Chat"
              end
      | trimmed => firstn 50 trimmed
      end
  | None => lit "New Chat"
  end.

(** No white space at either end. *)
Definition trimmed (s : jsstring) : Prop :=
  (forall c r, s = c :: r -> is_whitespace c = false)
  /\ (forall r c, s = r ++ [c] -> is_whitespace c = false).

(** A content update seen from outside: [after] is [before] with the
    content of the messages [messageId] of the sessions [chatId] set to
    [text], and nothing else of a message changed. *)
Definition messageUpdated (messageId text : jsstring)
    (m m' : ChatMessage.t) : Prop :=
  ChatMessage.id m' = ChatMessage.id m
  /\ ChatMessage.role m' = ChatMessage.role m
  /\ ChatMessage.image m' = ChatMessage.image m
  /\ (ChatMessage.id m = messageId -> ChatMessage.content m' = text)
  /\ (ChatMessage.id m <> messageId -> m' = m).

Definition sessionUpdated (chatId messageId text : jsstring)
    (c c' : ChatSession.t) : Prop :=
  ChatSession.id c' = ChatSession.id c
  /\ ChatSession.title c' = ChatSession.title c
  /\ ChatSession.createdAt c' = ChatSession.createdAt c
  /\ (ChatSession.id c = chatId ->
      Forall2 (messageUpdated messageId text)
              (ChatSession.messages c) (ChatSession.messages c'))
  /\ (ChatSession.id c <> chatId -> c' = c).

Definition contentUpdated (chatId messageId text : jsstring)
    (before after : list ChatSession.t) : Prop :=
  Forall2 (sessionUpdated chatId messageId text) before after.

(** The bytes of a chunk sequence, joined. *)
Definition joined (chunks : list (list N * Z)) : list N :=
  List.concat (List.map fst chunks).

(** The placeholder of a submission with the content [text]. *)
Definition placeholder (assistantId text : jsstring) : ChatMessage.t :=
  ChatMessage.mk assistantId assistant text None.

(** The sessions [chatId] of [l] end with the message [last]. *)
Definition endsWith (chatId : jsstring) (last : ChatMessage.t)
    (l : list ChatSession.t) : Prop :=
  (exists chat, In chat l /\ ChatSession.id chat = chatId)
  /\ forall chat, In chat l -> ChatSession.id chat = chatId ->
       exists front, ChatSession.messages chat = front ++ [last].

(** The bytes end inside an unfinished multi-byte sequence. *)
Definition pending (bytes : list N) : bool :=
  negb (Utf8.bytes_needed (fst (Utf8.run Utf8.fresh bytes)) =? 0)%N.

(** What a streaming decoder has put out after [bytes]. *)
Definition decodedSoFar (bytes : list N) : jsstring :=
  snd (Utf8.decode_stream Utf8.newTextDecoder bytes).

(** The entries of a listing, in the order of the listing; a payload
    without [models] lists nothing. *)
Definition listedEntries (payload : Gateway.ListModelsResponse)
  : list Gateway.ModelEntry :=
  match Gateway.models payload with
  | Some entries => entries
  | None => []
  end.

(** An entry is eligible under the identifier [id]: it advertises
    "generateContent" among its generation methods, and [id], which is
    not empty, is its name without its first "models/". *)
Definition EligibleAs (entry : Gateway.ModelEntry) (id : jsstring) : Prop :=
  (exists methods,
     Gateway.supportedGenerationMethods entry = Some methods
     /\ In (lit "generateContent") methods)
  /\ (exists name,
        Gateway.name entry = Some name
        /\ id = replace (lit "models/") [] name)
  /\ id <> [].

(** The eligible identifiers of a listing, entry by entry in the order of
    the listing: an entry that is not eligible gives nothing, an eligible
    one gives its identifier, as often as it is listed. *)
Inductive ListedEligible : list Gateway.ModelEntry -> list jsstring -> Prop :=
| listed_nil : ListedEligible [] []
| listed_skip entry rest ids :
    (forall id, ~ EligibleAs entry id) ->
    ListedEligible rest ids ->
    ListedEligible (entry :: rest) ids
| listed_keep entry id rest ids :
    EligibleAs entry id ->
    ListedEligible rest ids ->
    ListedEligible (entry :: rest) (id :: ids).

End Spec.

(* ================================================================== *)
(** ** Concrete requests, listings and sessions *)
(* ================================================================== *)

Module Scenario.

Import JS.
Local Open Scope string_scope.

Definition key : jsstring := lit "secret".

Definition transcript : list RequestMessage.t :=
  [RequestMessage.mk (lit "user") (lit "reverse a string") None].

Definition entry (name : string) (methods : list string) : Gateway.ModelEntry :=
  Gateway.mkModelEntry (Some (lit name)) (Some (List.map lit methods)).

(** A listing with the two preferred models of the specification's
    scenario, in the other order, and an embedding model. *)
Definition listing : Gateway.ListModelsResponse :=
  Gateway.mkListModelsResponse
    (Some [ entry "models/gemini-1.5-flash-latest" ["generateContent"; "countTokens"];
            entry "models/embedding-001" ["embedContent"];
            entry "models/gemini-1.5-pro-latest" ["generateContent"] ]).

(** A listing with models outside the preference list. *)
Definition longListing : Gateway.ListModelsResponse :=
  Gateway.mkListModelsResponse
    (Some [ entry "models/gemini-2.0-flash" ["generateContent"];
            entry "models/gemini-pro" ["generateContent"];
            entry "models/gemini-embedding-exp" ["generateContent"; "embedContent"];
            entry "models/aqa" ["generateAnswer"];
            Gateway.mkModelEntry None (Some [lit "generateContent"]);
            entry "models/gemini-1.5-pro-latest" ["generateContent"];
            entry "models/gemma-3" ["generateContent"] ]).

Definition candidates : list jsstring :=
  [lit "gemini-1.5-pro-latest"; lit "gemini-1.5-flash-latest"].

(** An upstream stream: the texts of its chunks. *)
Definition stream : list jsstring :=
  [lit "```js"; lit "fn...```"].

(** The first attempt throws, the later ones open. *)
Definition secondOpens (attempt : nat) (modelName : jsstring)
    (contents : list Gateway.Content) : option (list jsstring) :=
  match attempt with
  | O => None
  | S _ => Some stream
  end.

(** Every attempt throws. *)
Definition noneOpens (attempt : nat) (modelName : jsstring)
    (contents : list Gateway.Content) : option (list jsstring) :=
  None.

(** One empty session, active, with a draft. *)
Definition session : ChatSession.t :=
  ChatSession.mk (lit "c1") (lit "New Chat") 0 0 [].

Definition drafted : Reducer.State :=
  Reducer.mkState [session] (lit "c1") (lit "  hi ") None false [].

(** The euro sign, U+20AC, cut after its second byte. *)
Definition euroInTwoChunks : list (list N * Z) :=
  [([0xE2; 0x82]%N, 2%Z); ([0xAC]%N, 3%Z)].

(** A stream that ends after the second byte of the euro sign. *)
Definition cutEuro : list (list N * Z) :=
  [([0xE2; 0x82]%N, 2%Z)].

(** A first user message with an image and no text. *)
Definition imageOnly : ChatMessage.t :=
  ChatMessage.mk (lit "m1") user []
    (Some (ChatImage.mk (lit "image/png") (lit "AAAA") (lit "a.png"))).

(** A user message with spaces around its text. *)
Definition spaced : RequestMessage.t :=
  RequestMessage.mk (lit "user") (lit " hi ") None.

End Scenario.

Module MoreScenarios.

Import JS.
Local Open Scope string_scope.

(** A listing in which every model that generates content is an embedding
    model. *)
Definition embeddingsOnly : Gateway.ListModelsResponse :=
  Gateway.mkListModelsResponse
    (Some [ Scenario.entry "models/embedding-001" ["generateContent"];
            Scenario.entry "models/text-embedding-004" ["generateContent"; "embedContent"];
            Scenario.entry "models/aqa" ["generateAnswer"] ]).

(** Upstream texts: an empty one, a letter, an emoji as a surrogate pair,
    the euro sign. *)
Definition upstreamTexts : list jsstring :=
  [ []; lit "a"; [0xD83D; 0xDE00]%N; [0x20AC]%N ].

(** The bytes enqueued for [upstreamTexts], cut inside the emoji and
    inside the euro sign. *)
Definition recut : list (list N * Z) :=
  [ ([0x61; 0xF0; 0x9F]%N, 2%Z);
    ([0x98; 0x80; 0xE2]%N, 3%Z);
    ([0x82; 0xAC]%N, 4%Z) ].

(** A response streams while the user starts a session and goes back and
    forth. *)
Definition busy : list Reducer.Event :=
  [ Reducer.Delivered [0xE2; 0x82]%N 2;
    Reducer.Started (lit "c2") 3;
    Reducer.Selected (lit "c1");
    Reducer.Delivered [0xAC]%N 4;
    Reducer.Selected (lit "c2") ].

(** A listing that is not sorted and lists a model twice. *)
Definition unsorted : Gateway.ListModelsResponse :=
  Gateway.mkListModelsResponse
    (Some [ Scenario.entry "models/zeta" ["generateContent"];
            Scenario.entry "models/gemini-pro" ["generateContent"];
            Scenario.entry "models/alpha" ["countTokens"; "generateContent"];
            Scenario.entry "models/text-embedding-004" ["generateContent"];
            Scenario.entry "models/zeta" ["generateContent"];
            Scenario.entry "models/" ["generateContent"];
            Scenario.entry "models/beta" ["embedContent"];
            Scenario.entry "models/gemini-1.5-flash-latest" ["generateContent"] ]).

End MoreScenarios.

(* ================================================================== *)
(** ** The rest of the route handler *)
(* ================================================================== *)

(** [TextEncoder] belongs to the platform: [encode] turns the string into
    scalar values (a surrogate pair is one code point, a surrogate alone
    becomes U+FFFD) and these into UTF-8. *)
Module TextEncoder.

Local Open Scope N_scope.

Definition isHighSurrogate (c : N) : bool := (0xD800 <=? c) && (c <=? 0xDBFF).
Definition isLowSurrogate (c : N) : bool := (0xDC00 <=? c) && (c <=? 0xDFFF).

(** The scalar values of a string. *)
Fixpoint codePoints (s : jsstring) : list N :=
  match s with
  | [] => []
  | c :: rest =>
      if isHighSurrogate c then
        match rest with
        | d :: rest' =>
            if isLowSurrogate d
            then (0x10000 + (c - 0xD800) * 0x400 + (d - 0xDC00))
                 :: codePoints rest'
            else Utf8.REPLACEMENT :: codePoints rest
        | [] => [Utf8.REPLACEMENT]
        end
      else if isLowSurrogate c then Utf8.REPLACEMENT :: codePoints rest
      else c :: codePoints rest
  end.

(** [new TextEncoder().encode(s)] *)
Definition encode (s : jsstring) : list N := Utf8.encode (codePoints s).

(** A string of 16-bit code units in which every surrogate is half of a
    pair. *)
Fixpoint wellFormed (s : jsstring) : bool :=
  match s with
  | [] => true
  | c :: rest =>
      if isHighSurrogate c then
        match rest with
        | d :: rest' => isLowSurrogate d && wellFormed rest'
        | [] => false
        end
      else negb (isLowSurrogate c) && (c <? 0x10000) && wellFormed rest
  end.

(** A string without the byte order mark the decoder drops at the start
    of a stream. *)
Definition withoutBOM (s : jsstring) : jsstring :=
  match s with
  | c :: rest => if c =? Utf8.BOM then rest else s
  | [] => []
  end.

End TextEncoder.

Module Relay.

Import JS.

(** The chunks the [ReadableStream] of [createStreamResponse] enqueues for
    the texts [chunk.text()] of the upstream chunks: an empty text is
    skipped, the others are encoded one by one. *)
Definition enqueued (texts : list jsstring) : list (list N) :=
  List.map TextEncoder.encode (filter truthy texts).

(** The error body of the 500 answer of [POST] without candidates. *)
Definition ERROR_NO_MODELS : jsstring :=
  lit "No Gemini models with generateContent support are available for this API key.".

(** Calls of [getAvailableModels] one after the other, each with its clock
    reading and what its listing would do: the module variables at the
    end. *)
Fixpoint resolveAll (calls : list (Z * Gateway.ListingOutcome))
    (c : Gateway.Cache) : Gateway.Cache :=
  match calls with
  | [] => c
  | (now, listing) :: rest =>
      resolveAll rest (snd (fst (Gateway.getAvailableModels c now listing)))
  end.

(** A text part that is not blank, possibly followed by an image, or an
    image alone. *)
Definition wellFormedParts (parts : list Gateway.Part) : Prop :=
  match parts with
  | [Gateway.TextPart text] => trim text <> []
  | [Gateway.TextPart text; Gateway.InlineData _ _] => trim text <> []
  | [Gateway.InlineData _ _] => True
  | _ => False
  end.

End Relay.

(* ================================================================== *)
(** ** The rest of the chat component *)
(* ================================================================== *)

Module ChatApp.

Import JS Reducer.

(** The state before the first effect runs. *)
Definition initialState : State := mkState [] [] [] None false [].

(** The mount effect: [setChats([initialChat]); setActiveChatId(initialChat.id)]. *)
Definition mount (newId : jsstring) (now : Z) (st : State) : State :=
  mkState [createEmptyChat newId now] newId (input st) (inputImage st)
    (isStreaming st) (errorMessage st).

(** [clearAllChats] *)
Definition clearAllChats (newId : jsstring) (now : Z) (st : State) : State :=
  mkState [createEmptyChat newId now] newId [] None (isStreaming st) [].

(** [clearCurrentChat] *)
Definition clearCurrentChat (now : Z) (st : State) : State :=
  match activeChat st with
  | None => st
  | Some active =>
      mkState
        (upsertChat (ChatSession.id active)
           (fun chat =>
              ChatSession.mk (ChatSession.id chat) (lit "New Chat")
                (ChatSession.createdAt chat) now [])
           (chats st))
        (activeChatId st) (input st) None (isStreaming st) []
  end.

(** The role as the string of the request body. *)
Definition roleName (r : ChatRole) : jsstring :=
  match r with
  | user => lit "user"
  | assistant => lit "assistant"
  end.

(** One element of the [messages] of the request body:
    [{ role: message.role, content: message.content, image: message.image }]. *)
Definition requestMessage (message : ChatMessage.t) : RequestMessage.t :=
  RequestMessage.mk (roleName (ChatMessage.role message))
    (ChatMessage.content message)
    (option_map (fun img =>
                   RequestMessage.mkImage (ChatImage.mimeType img)
                     (ChatImage.data img) (ChatImage.name img))
                (ChatMessage.image message)).

(** The [messages] of the request body of [sendMessage]. *)
Definition requestMessages (messages : list ChatMessage.t)
  : list RequestMessage.t :=
  List.map requestMessage messages.

(** What [onImageSelect] reads of a [File]. *)
Record File := mkFile
  { type : jsstring;
    size : Z;
    name : jsstring }.

(** What the [FileReader] does: [onerror], or [onload] with a result that
    is a string or not. *)
Inductive ReadOutcome :=
| ReadError
| ReadResult (result : option jsstring).

Definition COMMA : N := 44.

Fixpoint upToComma (s : jsstring) : jsstring :=
  match s with
  | [] => []
  | c :: rest => if N.eqb c COMMA then [] else c :: upToComma rest
  end.

Fixpoint afterComma (s : jsstring) : option jsstring :=
  match s with
  | [] => None
  | c :: rest => if N.eqb c COMMA then Some rest else afterComma rest
  end.

(** [const [, base64 = ""] = result.split(",")] *)
Definition secondField (result : jsstring) : jsstring :=
  match afterComma result with
  | Some rest => upToComma rest
  | None => []
  end.

Definition setInputImage (image : option ChatImage.t) (st : State) : State :=
  mkState (chats st) (activeChatId st) (input st) image
    (isStreaming st) (errorMessage st).

Definition maxSizeInBytes : Z := 10 * 1024 * 1024.

(** [onImageSelect] *)
Definition onImageSelect (file : File) (read : ReadOutcome) (st : State)
  : State :=
  if negb (startsWith (lit "image/") (type file)) then
    setErrorMessage (lit "Only image files are supported.") st
  else if (maxSizeInBytes <? size file)%Z then
    setErrorMessage
      (lit "Image too large. Please upload an image smaller than 10MB.") st
  else
    match read with
    | ReadError => setErrorMessage (lit "Failed to upload image.") st
    | ReadResult result =>
        let data := secondField (match result with
                                 | Some text => text
                                 | None => []
                                 end) in
        if negb (truthy data) then
          setErrorMessage (lit "Failed to process image.") st
        else
          setErrorMessage []
            (setInputImage (Some (ChatImage.mk (type file) data (name file)))
               st)
    end.

(** What the user and the network do to the component. *)
Inductive Action :=
| NewChat (newId : jsstring) (now : Z)
| ClearAll (newId : jsstring) (now : Z)
| ClearCurrent (now : Z)
| Select (chatId : jsstring)
| Typed (text : jsstring)
| PickImage (file : File) (read : ReadOutcome)
| RemoveImage
| Send (userId assistantId : jsstring) (now : Z) (o : Outcome).

Definition setInput (text : jsstring) (st : State) : State :=
  mkState (chats st) (activeChatId st) text (inputImage st)
    (isStreaming st) (errorMessage st).

Definition act (a : Action) (st : State) : State :=
  match a with
  | NewChat newId now => startNewChat newId now st
  | ClearAll newId now => clearAllChats newId now st
  | ClearCurrent now => clearCurrentChat now st
  | Select chatId => setActiveChatId chatId st
  | Typed text => setInput text st
  | PickImage file read => onImageSelect file read st
  | RemoveImage => setInputImage None st
  | Send userId assistantId now o => sendMessage userId assistantId now o st
  end.

Definition actAll (actions : list Action) (st : State) : State :=
  fold_left (fun st a => act a st) actions st.

(** The ids of the sessions, in order. *)
Definition idsOf (l : list ChatSession.t) : list jsstring :=
  List.map ChatSession.id l.

End ChatApp.

Module ChatInput.

Import JS.


End ChatInput.

Module MessageBubble.

Import JS.

Definition NEWLINE : N := 10.

(** [(content.match(/\n/g) ?? []).length] *)
Definition newlineCount (content : jsstring) : nat :=
  List.length (filter (N.eqb NEWLINE) content).

(** The character class of [codeSignals]: one of [{}()[];<>]. *)
Definition isBracket (c : N) : bool :=
  existsb (N.eqb c) (lit "{}()[];<>").

(** [codeSignals.test(content)] *)
Definition codeSignals (content : jsstring) : bool :=
  existsb isBracket content
  || includes content (lit "=>")
  || includes content (lit "function ")
  || includes content (lit "const ")
  || includes content (lit "let ")
  || includes content (lit "class ").

Definition FENCE : jsstring := lit "```".

(** [isCodeHeavyMessage] *)
Definition isCodeHeavyMessage (content : jsstring) : bool :=
  if includes content FENCE then true
  else (3 <=? newlineCount content)%nat && codeSignals content.

(** How the text of a bubble is shown. *)
Inductive Rendering := Preformatted | Markdown.

(** The choice between [<pre>] and [ReactMarkdown]. *)
Definition rendering (message : ChatMessage.t) : Rendering :=
  if Reducer.isUser message
     && isCodeHeavyMessage (ChatMessage.content message)
     && negb (includes (ChatMessage.content message) FENCE)
  then Preformatted else Markdown.

End MessageBubble.

Module CodeBlock.

Import JS.

(** [\w] *)
Definition isWord (c : N) : bool :=
  ((0x30 <=? c) && (c <=? 0x39)
   || (0x41 <=? c) && (c <=? 0x5A)
   || (c =? 0x5F)
   || (0x61 <=? c) && (c <=? 0x7A))%N.

Fixpoint takeWord (s : jsstring) : jsstring :=
  match s with
  | [] => []
  | c :: rest => if isWord c then c :: takeWord rest else []
  end.

Definition PREFIX : jsstring := lit "language-".

(** The group of the leftmost match of [/language-(\w+)/]. *)
Fixpoint firstLanguage (className : jsstring) : option jsstring :=
  match className with
  | [] => None
  | _ :: rest =>
      if startsWith PREFIX className then
        match takeWord (skipn (List.length PREFIX) className) with
        | [] => firstLanguage rest
        | word => Some word
        end
      else firstLanguage rest
  end.

(** [match?.[1] ?? "text"] for [/language-(\w+)/.exec(className ?? "")] *)
Definition language (className : option jsstring) : jsstring :=
  match firstLanguage (match className with
                       | Some name => name
                       | None => []
                       end) with
  | Some word => word
  | None => lit "text"
  end.

(** [children.replace(/\n$/, "")]: one newline at the very end goes. *)
Definition code (children : jsstring) : jsstring :=
  match rev children with
  | c :: front => if N.eqb c MessageBubble.NEWLINE then rev front else children
  | [] => []
  end.

End CodeBlock.

(* ================================================================== *)
(** ** Vocabulary for the properties of the chat component *)
(* ================================================================== *)

Module Frames.

Import JS Reducer.

(** What the placeholder of a submission holds when [sendMessage]
    returns. *)
Definition finalText (o : Outcome) : jsstring :=
  match o with
  | Streamed chunks => Spec.decodedSoFar (Spec.joined chunks)
  | ResponseNotOk _ => FALLBACK_NOT_OK
  | FetchThrows _ => FALLBACK_THROWN
  | StreamedThenThrows _ _ => FALLBACK_THROWN
  end.

(** What the error banner shows when [sendMessage] returns. *)
Definition finalError (o : Outcome) : jsstring :=
  match o with
  | Streamed _ => []
  | ResponseNotOk _ => FALLBACK_NOT_OK
  | FetchThrows _ => FALLBACK_THROWN
  | StreamedThenThrows _ _ => FALLBACK_THROWN
  end.

(** [c'] is [c] with the same id and creation time, and is [c] itself
    unless [c] is a session [chatId]. *)
Definition sameUnless (chatId : jsstring) (c c' : ChatSession.t) : Prop :=
  ChatSession.id c' = ChatSession.id c
  /\ ChatSession.createdAt c' = ChatSession.createdAt c
  /\ (ChatSession.id c <> chatId -> c' = c).

(** Every session [chatId] of [l] satisfies [P]. *)
Definition sessions (chatId : jsstring) (P : ChatSession.t -> Prop)
    (l : list ChatSession.t) : Prop :=
  forall chat, In chat l -> ChatSession.id chat = chatId -> P chat.

(** The draft is blank: no text after trimming and no image. *)
Definition blankDraft (st : State) : Prop :=
  trim (input st) = [] /\ inputImage st = None.

(** The messages outside [onImageSelect]'s success. *)
Definition imageErrors : list jsstring :=
  [ lit "Only image files are supported.";
    lit "Image too large. Please upload an image smaller than 10MB.";
    lit "Failed to upload image.";
    lit "Failed to process image." ].

End Frames.

(* ================================================================== *)
(** * Properties *)
(* ================================================================== *)

Unset Implicit Arguments.

(** ** Strings *)

Module JSFacts.

Import JS.

Lemma eqb_eq (a b : jsstring) : eqb a b = true <-> a = b.
Proof.
  revert b; induction a as [|x a IH]; intros [|y b]; simpl;
    try (split; [discriminate | congruence]); [tauto|].
  rewrite andb_true_iff, N.eqb_eq, IH.
  split; [intros [-> ->]; reflexivity | intros H; inversion H; auto].
Qed.

Lemma eqb_refl (a : jsstring) : eqb a a = true.
Proof. apply eqb_eq; reflexivity. Qed.

Lemma eqb_neq (a b : jsstring) : eqb a b = false <-> a <> b.
Proof.
  rewrite <- eqb_eq. destruct (eqb a b); split; congruence.
Qed.

Lemma arrayIncludes_In (arr : list jsstring) (x : jsstring) :
  arrayIncludes arr x = true <-> In x arr.
Proof.
  unfold arrayIncludes. rewrite existsb_exists. split.
  - intros [y [Hy He]]. apply eqb_eq in He. subst; assumption.
  - intros H. exists x. split; [assumption | apply eqb_refl].
Qed.

(** [trimStart] leaves no white space in front. *)
Lemma trimStart_head (s : jsstring) (c : N) (r : jsstring) :
  trimStart s = c :: r -> is_whitespace c = false.
Proof.
  induction s as [|x s IH]; simpl; [discriminate|].
  destruct (is_whitespace x) eqn:E; [exact IH|].
  intros H; inversion H; subst; assumption.
Qed.

Lemma trimStart_fixed (s : jsstring) :
  match s with
  | [] => True
  | c :: _ => is_whitespace c = false
  end -> trimStart s = s.
Proof. destruct s as [|c s]; simpl; [reflexivity|]. intros ->. reflexivity. Qed.

Lemma trimStart_snoc (s : jsstring) (c : N) :
  is_whitespace c = false -> trimStart (s ++ [c]) = trimStart s ++ [c].
Proof.
  intros Hc. induction s as [|x s IH]; simpl.
  - rewrite Hc. reflexivity.
  - destruct (is_whitespace x); [exact IH | reflexivity].
Qed.

Lemma trimEnd_cons (c : N) (s : jsstring) :
  is_whitespace c = false -> trimEnd (c :: s) = c :: trimEnd s.
Proof.
  intros Hc. unfold trimEnd. simpl rev.
  rewrite trimStart_snoc by assumption.
  rewrite rev_app_distr. reflexivity.
Qed.

(** [trimEnd] leaves no white space at the end. *)
Lemma trimEnd_last (s r : jsstring) (c : N) :
  trimEnd s = r ++ [c] -> is_whitespace c = false.
Proof.
  unfold trimEnd. intros H.
  apply (f_equal (@rev N)) in H.
  rewrite rev_involutive, rev_app_distr in H. simpl in H.
  eapply trimStart_head; eassumption.
Qed.

Lemma trim_head (s : jsstring) (c : N) (r : jsstring) :
  trim s = c :: r -> is_whitespace c = false.
Proof.
  unfold trim. destruct (trimStart s) as [|x t] eqn:E.
  - discriminate.
  - pose proof (trimStart_head _ _ _ E) as Hx.
    rewrite trimEnd_cons by assumption.
    intros H; inversion H; subst; assumption.
Qed.

Lemma trim_last (s r : jsstring) (c : N) :
  trim s = r ++ [c] -> is_whitespace c = false.
Proof. unfold trim. apply trimEnd_last. Qed.

Lemma trimEnd_fixed (s : jsstring) :
  (forall r c, s = r ++ [c] -> is_whitespace c = false) -> trimEnd s = s.
Proof.
  intros H. unfold trimEnd.
  rewrite trimStart_fixed; [apply rev_involutive|].
  destruct (rev s) as [|c t] eqn:E; [exact I|].
  apply (H (rev t) c).
  rewrite <- (rev_involutive s), E. reflexivity.
Qed.

(** Trimming twice is trimming once. *)
Lemma trim_idempotent (s : jsstring) : trim (trim s) = trim s.
Proof.
  unfold trim at 1.
  rewrite trimStart_fixed.
  - apply trimEnd_fixed. intros r c H. eapply trim_last; eassumption.
  - destruct (trim s) as [|c r] eqn:E; [exact I|].
    eapply trim_head; eassumption.
Qed.

Lemma truthy_false (s : jsstring) : truthy s = false <-> s = [].
Proof. destruct s; simpl; split; congruence. Qed.

End JSFacts.

(** ** The route handler *)

Module GatewayFacts.

Import JS JSFacts Gateway.

(** *** Model resolution *)

Lemma ordered_In (ids : list jsstring) (name : jsstring) :
  In name (ordered ids) <-> In name PREFERRED_MODEL_ORDER /\ In name ids.
Proof.
  unfold ordered. rewrite filter_In, arrayIncludes_In. tauto.
Qed.

(** Among the listed names, being in [ordered] is being preferred. *)
Lemma ordered_includes_listed (ids : list jsstring) (name : jsstring) :
  In name ids ->
  arrayIncludes (ordered ids) name = arrayIncludes PREFERRED_MODEL_ORDER name.
Proof.
  intros Hin.
  destruct (arrayIncludes PREFERRED_MODEL_ORDER name) eqn:E.
  - apply arrayIncludes_In. apply ordered_In.
    split; [apply arrayIncludes_In; exact E | exact Hin].
  - destruct (arrayIncludes (ordered ids) name) eqn:E'; [|reflexivity].
    apply arrayIncludes_In, ordered_In in E'. destruct E' as [Hp _].
    apply arrayIncludes_In in Hp. congruence.
Qed.

Lemma allAvailableModels_spec (ids : list jsstring) :
  allAvailableModels ids = Spec.preferredThenListed ids.
Proof.
  unfold allAvailableModels, Spec.preferredThenListed, remaining.
  f_equal. apply filter_ext_in. intros name Hin.
  rewrite ordered_includes_listed by assumption. reflexivity.
Qed.

Lemma cacheFresh_iff (c : Cache) (now : Z) :
  cacheFresh c now = true <->
  cachedModels c <> [] /\ (now - lastModelFetchTime c < CACHE_DURATION_MS)%Z.
Proof.
  unfold cacheFresh. rewrite andb_true_iff, Z.ltb_lt, Z.ltb_lt.
  destruct (cachedModels c); simpl; split; intros [H1 H2];
    split; try assumption; try congruence; lia.
Qed.

(** Whatever [getAvailableModels] returns is what the cache holds
    afterwards. *)
Lemma getAvailableModels_returns_cache c now listing l c' calls :
  getAvailableModels c now listing = (inr l, c', calls) ->
  cachedModels c' = l.
Proof.
  unfold getAvailableModels.
  destruct (cacheFresh c now); [intros H; inversion H; reflexivity|].
  destruct listing; intros H; inversion H; reflexivity.
Qed.

(** A call that lists stamps the cache with its own clock reading. *)
Lemma getAvailableModels_stamp c now listing l c' :
  getAvailableModels c now listing = (inr l, c', [ListModels]) ->
  lastModelFetchTime c' = now.
Proof.
  unfold getAvailableModels.
  destruct (cacheFresh c now); [intros H; inversion H|].
  destruct listing; intros H; inversion H; reflexivity.
Qed.

(** C4: a resolution call made while the cache is populated and younger
    than the one-hour time-to-live makes no listing call and returns the
    list of the call before it, unchanged; when that earlier call did the
    listing, the age is counted from its own clock reading. *)
Theorem getAvailableModels_cached_within_ttl
    (c0 : Cache) (t1 : Z) (listing1 : ListingOutcome)
    (first : list jsstring) (c1 : Cache) (calls1 : list UpstreamCall)
    (t2 : Z) (listing2 : ListingOutcome) :
  getAvailableModels c0 t1 listing1 = (inr first, c1, calls1) ->
  first <> [] ->
  (t2 - lastModelFetchTime c1 < CACHE_DURATION_MS)%Z ->
  getAvailableModels c1 t2 listing2 = (inr first, c1, [])
  /\ (calls1 = [ListModels] -> lastModelFetchTime c1 = t1)
  /\ CACHE_DURATION_MS = 3600000%Z.
Proof.
  intros Hfirst Hne Hage.
  pose proof (getAvailableModels_returns_cache _ _ _ _ _ _ Hfirst) as Hc.
  split; [|split].
  - unfold getAvailableModels at 1.
    replace (cacheFresh c1 t2) with true.
    + rewrite Hc. reflexivity.
    + symmetry. apply cacheFresh_iff. rewrite Hc. split; assumption.
  - intros ->. eapply getAvailableModels_stamp; eassumption.
  - reflexivity.
Qed.

Lemma definedNames_In (l : list (option jsstring)) (id : jsstring) :
  In id (definedNames l) <-> In (Some id) l /\ id <> [].
Proof.
  induction l as [|[n|] l IH]; simpl.
  - tauto.
  - destruct n as [|x n]; simpl.
    + rewrite IH. split; [tauto|]. intros [[H|H] Hne]; [|tauto].
      inversion H; subst; congruence.
    + rewrite IH. split.
      * intros [<-|[H Hne]]; [split; [auto|discriminate] | tauto].
      * intros [[H|H] Hne]; [left; congruence | tauto].
  - rewrite IH. split; [tauto|]. intros [[H|H] Hne]; [discriminate|tauto].
Qed.

(** The eligible identifiers are the names, without their first
    ["models/"], of the listed entries that support [generateContent]. *)
Lemma modelIds_In (payload : ListModelsResponse) (id : jsstring) :
  In id (modelIds payload) <->
  exists ms entry,
    models payload = Some ms /\ In entry ms
    /\ supportsGenerateContent entry = true
    /\ strippedName entry = Some id /\ id <> [].
Proof.
  unfold modelIds. destruct (models payload) as [ms|].
  - rewrite definedNames_In, in_map_iff. split.
    + intros [[entry [Hn Hin]] Hne]. apply filter_In in Hin.
      exists ms, entry. tauto.
    + intros [ms' [entry [Hms [Hin [Hs [Hn Hne]]]]]].
      inversion Hms; subst ms'. split; [|assumption].
      exists entry. split; [assumption|]. apply filter_In. tauto.
  - simpl. split; [tauto|]. intros [ms [entry [H _]]]. discriminate.
Qed.

Lemma EligibleAs_iff (entry : ModelEntry) (id : jsstring) :
  Spec.EligibleAs entry id <->
  supportsGenerateContent entry = true
  /\ strippedName entry = Some id /\ id <> [].
Proof.
  unfold Spec.EligibleAs, supportsGenerateContent, strippedName.
  destruct (supportedGenerationMethods entry) as [methods|];
    destruct (name entry) as [n|]; simpl.
  - rewrite arrayIncludes_In. split.
    + intros [[ms [Hms Hin]] [[n' [Hn ->]] Hne]].
      inversion Hms; inversion Hn; subst. auto.
    + intros [Hin [Hn Hne]]. inversion Hn; subst.
      split; [exists methods; auto|]. split; [exists n; auto | exact Hne].
  - split; [intros [_ [[n' [Hn _]] _]] | intros [_ [Hn _]]]; discriminate.
  - split; [intros [[ms [Hms _]] _] | intros [H _]]; discriminate.
  - split; [intros [[ms [Hms _]] _] | intros [H _]]; discriminate.
Qed.

(** The names the code keeps are the eligible identifiers of the listing,
    in the order of the listing. *)
Lemma modelIds_listed (payload : ListModelsResponse) :
  Spec.ListedEligible (Spec.listedEntries payload) (modelIds payload).
Proof.
  unfold Spec.listedEntries, modelIds.
  destruct (models payload) as [entries|]; [|constructor].
  induction entries as [|entry rest IH]; [constructor|].
  cbn [filter].
  destruct (supportsGenerateContent entry) eqn:Es.
  - cbn [List.map definedNames].
    destruct (strippedName entry) as [[|x n]|] eqn:En.
    + cbn [truthy]. apply Spec.listed_skip; [|exact IH].
      intros id H. apply EligibleAs_iff in H.
      destruct H as [_ [H Hne]]. congruence.
    + cbn [truthy]. apply Spec.listed_keep; [|exact IH].
      apply EligibleAs_iff. repeat split; auto. discriminate.
    + apply Spec.listed_skip; [|exact IH].
      intros id H. apply EligibleAs_iff in H.
      destruct H as [_ [H _]]. congruence.
  - apply Spec.listed_skip; [|exact IH].
    intros id H. apply EligibleAs_iff in H. destruct H as [H _]. congruence.
Qed.

Lemma EligibleAs_functional entry id1 id2 :
  Spec.EligibleAs entry id1 -> Spec.EligibleAs entry id2 -> id1 = id2.
Proof.
  intros [_ [[n1 [H1 ->]] _]] [_ [[n2 [H2 ->]] _]]. congruence.
Qed.

Lemma ListedEligible_functional entries ids1 ids2 :
  Spec.ListedEligible entries ids1 ->
  Spec.ListedEligible entries ids2 ->
  ids1 = ids2.
Proof.
  intros H1. revert ids2.
  induction H1 as [|entry rest ids Hno _ IH|entry id rest ids Hyes _ IH];
    intros ids2 H2; inversion H2; subst.
  - reflexivity.
  - apply IH. assumption.
  - exfalso. eapply Hno. eassumption.
  - exfalso. eapply H1. eassumption.
  - f_equal; [eapply EligibleAs_functional; eassumption | apply IH; assumption].
Qed.

(** C6: on a cache miss with a successful listing, the call lists once
    and returns, and caches with its clock reading: first the names of
    the preference list that are among the eligible identifiers of the
    listing, in the preference list's order; then the eligible
    identifiers that are not preferred and carry no "embedding", in the
    order in which the listing has them.  The eligible identifiers are,
    entry by entry in listing order, the names without "models/" of the
    entries that advertise "generateContent". *)
Theorem getAvailableModels_miss_order
    (c : Cache) (now : Z) (payload : ListModelsResponse) :
  cacheFresh c now = false ->
  exists eligible,
    Spec.ListedEligible (Spec.listedEntries payload) eligible
    /\ (forall other,
          Spec.ListedEligible (Spec.listedEntries payload) other ->
          other = eligible)
    /\ getAvailableModels c now (Listed payload)
       = (inr (Spec.preferredThenListed eligible),
          mkCache (Spec.preferredThenListed eligible) now,
          [ListModels])
    /\ forall id,
         In id eligible <->
         exists ms entry,
           models payload = Some ms /\ In entry ms
           /\ supportsGenerateContent entry = true
           /\ strippedName entry = Some id /\ id <> [].
Proof.
  intros Hmiss. exists (modelIds payload).
  split; [apply modelIds_listed|]. split.
  - intros other Hother.
    apply (ListedEligible_functional _ _ _ Hother (modelIds_listed payload)).
  - split; [|apply modelIds_In].
    unfold getAvailableModels. rewrite Hmiss. simpl.
    rewrite allAvailableModels_spec. reflexivity.
Qed.

(** *** Transcript translation *)

Lemma keptMessage_iff (message : RequestMessage.t) :
  keptMessage message = true <-> Spec.hasTextOrImage message.
Proof.
  unfold keptMessage, Spec.hasTextOrImage.
  rewrite orb_true_iff, Nat.ltb_lt.
  destruct (trim (RequestMessage.content message)) as [|x t];
    destruct (RequestMessage.image message); simpl;
    split; intros [H|H]; try lia; try congruence;
    try (left; lia); try (right; congruence); try (left; congruence).
Qed.

Lemma toContent_original (message : RequestMessage.t) :
  toContent message = Spec.turnWithOriginalText message.
Proof.
  unfold toContent, Spec.turnWithOriginalText, Spec.turnRole,
    Spec.imageParts.
  destruct (trim (RequestMessage.content message)); reflexivity.
Qed.

Lemma buildGeminiContents_cons (message : RequestMessage.t)
    (rest : list RequestMessage.t) :
  buildGeminiContents (message :: rest)
  = if keptMessage message
    then toContent message :: buildGeminiContents rest
    else buildGeminiContents rest.
Proof.
  unfold buildGeminiContents. simpl.
  destruct (keptMessage message); reflexivity.
Qed.

Lemma Translates_functional turn messages turns1 turns2 :
  Spec.Translates turn messages turns1 ->
  Spec.Translates turn messages turns2 ->
  turns1 = turns2.
Proof.
  intros H1; revert turns2.
  induction H1 as [|m rest turns Hno _ IH|m rest turns Hyes _ IH];
    intros turns2 H2; inversion H2; subst;
    try reflexivity; try contradiction; auto.
  f_equal. auto.
Qed.

(** C5, as the code has it: the translation gives one turn per message
    that has non-empty trimmed text or an image and none for the others;
    the turn is tagged "model" for an assistant message and "user"
    otherwise; its parts are the text as received, not trimmed (only when
    the trimmed text is non-empty), then the inline image (only when
    there is one).  For a message whose text has no surrounding white
    space this is the turn with the trimmed text. *)
Theorem buildGeminiContents_translates (messages : list RequestMessage.t) :
  Spec.Translates Spec.turnWithOriginalText messages
    (buildGeminiContents messages)
  /\ (forall turns,
        Spec.Translates Spec.turnWithOriginalText messages turns ->
        turns = buildGeminiContents messages)
  /\ (forall message,
        trim (RequestMessage.content message)
        = RequestMessage.content message ->
        Spec.turnWithOriginalText message
        = Spec.turnWithTrimmedText message).
Proof.
  assert (Hrel : Spec.Translates Spec.turnWithOriginalText messages
                   (buildGeminiContents messages)).
  { induction messages as [|m rest IH].
    - constructor.
    - rewrite buildGeminiContents_cons.
      destruct (keptMessage m) eqn:E.
      + rewrite toContent_original. constructor; [|exact IH].
        apply keptMessage_iff; exact E.
      + constructor; [|exact IH].
        rewrite <- keptMessage_iff. congruence. }
  split; [exact Hrel|]. split.
  - intros turns H. eapply Translates_functional; eassumption.
  - intros message Htrim.
    unfold Spec.turnWithOriginalText, Spec.turnWithTrimmedText.
    rewrite Htrim.
    destruct (RequestMessage.content message); reflexivity.
Qed.

(** The turn of a user message " hi " carries the text with its spaces,
    so it is not the turn with the trimmed text. *)
Lemma buildGeminiContents_keeps_spaces :
  Spec.hasTextOrImage Scenario.spaced
  /\ buildGeminiContents [Scenario.spaced]
     = [mkContent (lit "user") [TextPart (lit " hi ")]]
  /\ ~ Spec.Translates Spec.turnWithTrimmedText [Scenario.spaced]
        (buildGeminiContents [Scenario.spaced]).
Proof.
  split; [left; vm_compute; discriminate|].
  split; [reflexivity|].
  intros H.
  inversion H as [|m rest turns Hno Hrest|m rest turns Hyes Hrest Hm Hturn];
    [apply Hno; left; vm_compute; discriminate | ..].
Qed.

(** *** The handler *)

Section HandlerFacts.

Variable UpstreamStream : Type.
Variable generateContentStream :
  nat -> jsstring -> list Content -> option UpstreamStream.

Local Abbreviation attempts := (tryCandidates generateContentStream).
Local Abbreviation post := (POST generateContentStream).

(** The loop stops at the first candidate that opens. *)
Lemma tryCandidates_first_open messages contents pre :
  contents = buildGeminiContents messages ->
  forall k modelName later stream,
    (forall i, (i < List.length pre)%nat ->
               generateContentStream (k + i) (nth i pre []) contents = None) ->
    generateContentStream (k + List.length pre) modelName contents
    = Some stream ->
    attempts k messages (pre ++ modelName :: later)
    = (mkResponse 200 (TextStream stream),
       List.map OpenStream (pre ++ [modelName])).
Proof.
  intros ->. induction pre as [|p pre IH]; intros k modelName later stream Hfail Hopen.
  - simpl in *. unfold createStreamResponse.
    rewrite Nat.add_0_r in Hopen. rewrite Hopen. reflexivity.
  - simpl. unfold createStreamResponse.
    pose proof (Hfail 0%nat ltac:(simpl; lia)) as H0.
    rewrite Nat.add_0_r in H0. simpl in H0. rewrite H0.
    rewrite (IH (S k) modelName later stream).
    + reflexivity.
    + intros i Hi. specialize (Hfail (S i) ltac:(simpl; lia)).
      simpl in Hfail. rewrite <- Hfail. f_equal. lia.
    + rewrite <- Hopen. f_equal. simpl. lia.
Qed.

(** When no candidate opens, all are tried and the answer is 503. *)
Lemma tryCandidates_none_open messages contents candidates :
  contents = buildGeminiContents messages ->
  forall k,
    (forall i, (i < List.length candidates)%nat ->
               generateContentStream (k + i) (nth i candidates []) contents
               = None) ->
    attempts k messages candidates
    = (mkResponse 503 (JsonError ERROR_UNAVAILABLE),
       List.map OpenStream candidates).
Proof.
  intros ->. induction candidates as [|p rest IH]; intros k Hfail.
  - reflexivity.
  - simpl. unfold createStreamResponse.
    pose proof (Hfail 0%nat ltac:(simpl; lia)) as H0.
    rewrite Nat.add_0_r in H0. simpl in H0. rewrite H0.
    rewrite (IH (S k)).
    + reflexivity.
    + intros i Hi. specialize (Hfail (S i) ltac:(simpl; lia)).
      simpl in Hfail. rewrite <- Hfail. f_equal. lia.
Qed.

(** The attempts are a prefix of the candidates, in their order. *)
Lemma tryCandidates_in_order messages candidates :
  forall k, exists j,
    (j <= List.length candidates)%nat
    /\ snd (attempts k messages candidates)
       = List.map OpenStream (firstn j candidates).
Proof.
  induction candidates as [|p rest IH]; intros k.
  - exists 0%nat. split; [simpl; lia | reflexivity].
  - simpl. destruct (createStreamResponse _ _ _ _).
    + exists 1%nat. split; [simpl; lia | reflexivity].
    + destruct (IH (S k)) as [j [Hj Hcalls]].
      destruct (attempts (S k) messages rest) as [response calls].
      exists (S j). split; [simpl; lia|]. simpl in *. congruence.
Qed.

(** [POST] once the transcript is accepted and candidates resolved. *)
Lemma POST_resolved key m ms c now listing candidates c' calls :
  key <> [] ->
  candidates <> [] ->
  getAvailableModels c now listing = (inr candidates, c', calls) ->
  post (Some key) (Body (Messages (m :: ms))) c now listing
  = (fst (attempts 0%nat (m :: ms) candidates), c',
     calls ++ snd (attempts 0%nat (m :: ms) candidates)).
Proof.
  intros Hkey Hne Hres. unfold POST.
  destruct key as [|k ks]; [congruence|].
  rewrite Hres. destruct candidates as [|p rest]; [congruence|].
  destruct (attempts 0%nat (m :: ms) (p :: rest)). reflexivity.
Qed.

(** C1: with candidates resolved for an accepted request, the attempts
    are made in the resolved order; when all candidates but the last fail
    to open and the last one opens, every candidate is attempted once and
    the answer is 200 with the last candidate's stream; when none opens,
    every candidate is attempted once and the answer is 503 with a JSON
    error and no stream. *)
Theorem POST_fallback_order key m ms c now listing candidates c' calls :
  key <> [] ->
  candidates <> [] ->
  getAvailableModels c now listing = (inr candidates, c', calls) ->
  let contents := buildGeminiContents (m :: ms) in
  let n := List.length candidates in
  let result := post (Some key) (Body (Messages (m :: ms))) c now listing in
  (exists j, (j <= n)%nat
             /\ snd result = calls ++ List.map OpenStream (firstn j candidates))
  /\ (forall stream,
        (forall i, (i < n - 1)%nat ->
                   generateContentStream i (nth i candidates []) contents = None) ->
        generateContentStream (n - 1) (nth (n - 1) candidates []) contents
        = Some stream ->
        result = (mkResponse 200 (TextStream stream), c',
                  calls ++ List.map OpenStream candidates))
  /\ ((forall i, (i < n)%nat ->
                 generateContentStream i (nth i candidates []) contents = None) ->
      result = (mkResponse 503 (JsonError ERROR_UNAVAILABLE), c',
                calls ++ List.map OpenStream candidates)).
Proof.
  intros Hkey Hne Hres contents n result.
  subst result. rewrite (POST_resolved key m ms c now listing candidates c' calls Hkey Hne Hres).
  split; [|split].
  - destruct (tryCandidates_in_order (m :: ms) candidates 0) as [j [Hj Hc]].
    exists j. split; [exact Hj|]. simpl. rewrite Hc. reflexivity.
  - intros stream Hfail Hopen.
    destruct (exists_last Hne) as [pre [lastModel Hsplit]].
    assert (Hn : n = S (List.length pre)).
    { subst n. rewrite Hsplit, length_app. simpl. lia. }
    assert (Hlast : nth (n - 1) candidates [] = lastModel).
    { rewrite Hn, Hsplit, app_nth2 by lia.
      replace (S (List.length pre) - 1 - List.length pre)%nat with 0%nat by lia.
      reflexivity. }
    rewrite Hlast in Hopen. clearbody n.
    assert (Htry : attempts 0%nat (m :: ms) candidates
                   = (mkResponse 200 (TextStream stream),
                      List.map OpenStream candidates)).
    { rewrite Hsplit.
      apply (tryCandidates_first_open (m :: ms) contents pre eq_refl 0%nat
               lastModel [] stream).
      - intros i Hi. simpl.
        assert (Hi' : (i < n - 1)%nat) by lia.
        rewrite <- (Hfail i Hi'), Hsplit.
        rewrite app_nth1 by exact Hi. reflexivity.
      - simpl. rewrite <- Hopen. f_equal. lia. }
    rewrite Htry. reflexivity.
  - intros Hfail.
    rewrite (tryCandidates_none_open (m :: ms) contents candidates eq_refl 0%nat).
    + reflexivity.
    + intros i Hi. simpl. apply Hfail. exact Hi.
Qed.

(** C2, what the handler does when the listing fails: with the credential
    set, a non-empty transcript and no fresh cache, a listing that is
    answered with a non-2xx status, or that fails in transport, is tried
    once and the answer is 400 with the error text of an invalid request
    body. *)
Theorem POST_listing_failure key m ms c now listing :
  key <> [] ->
  cacheFresh c now = false ->
  (listing = FetchRejected \/ exists status text, listing = NotOk status text) ->
  post (Some key) (Body (Messages (m :: ms))) c now listing
  = (mkResponse 400 (JsonError ERROR_BODY), c, [ListModels]).
Proof.
  intros Hkey Hmiss Hlisting. unfold POST, getAvailableModels.
  destruct key as [|k ks]; [congruence|]. rewrite Hmiss.
  destruct Hlisting as [->|[status [text ->]]]; reflexivity.
Qed.

(** C7, with the credential set: a request whose [messages] is absent, not
    an array or an empty array is answered 400 with a JSON error body,
    without any upstream call and without touching the cache; so is a body
    that is no JSON or is [null].  Without the credential the answer is
    500, again without any upstream call. *)
Theorem POST_rejects_without_transcript apiKey request c now listing :
  noTranscript request = true ->
  (forall key, apiKey = Some key -> key <> [] ->
     exists error,
       post apiKey request c now listing
       = (mkResponse 400 (JsonError error), c, [])
       /\ (forall field, request = Body field -> error = ERROR_MESSAGES))
  /\ (apiKey = None \/ apiKey = Some [] ->
      post apiKey request c now listing
      = (mkResponse 500 (JsonError ERROR_KEY), c, [])).
Proof.
  intros Hno. split.
  - intros key -> Hkey. destruct key as [|k ks]; [congruence|].
    destruct request as [| |[| |[|m ms]]]; simpl in Hno; try discriminate.
    + exists ERROR_BODY. split; [reflexivity | discriminate].
    + exists ERROR_BODY. split; [reflexivity | discriminate].
    + exists ERROR_MESSAGES. split; [reflexivity | reflexivity].
    + exists ERROR_MESSAGES. split; [reflexivity | reflexivity].
    + exists ERROR_MESSAGES. split; [reflexivity | reflexivity].
  - intros [->| ->]; reflexivity.
Qed.

End HandlerFacts.

(** *** The theorems at concrete requests *)

Lemma getAvailableModels_cached_within_ttl_witness :
  getAvailableModels initial_cache 5 (Listed Scenario.listing)
  = (inr Scenario.candidates, mkCache Scenario.candidates 5, [ListModels])
  /\ Scenario.candidates <> []
  /\ (3600004 - 5 < CACHE_DURATION_MS)%Z
  /\ getAvailableModels (mkCache Scenario.candidates 5) 3600004 FetchRejected
     = (inr Scenario.candidates, mkCache Scenario.candidates 5, []).
Proof.
  assert (H1 : getAvailableModels initial_cache 5 (Listed Scenario.listing)
               = (inr Scenario.candidates, mkCache Scenario.candidates 5,
                  [ListModels])) by (vm_compute; reflexivity).
  assert (H2 : Scenario.candidates <> []) by discriminate.
  assert (H3 : (3600004 - lastModelFetchTime (mkCache Scenario.candidates 5)
                < CACHE_DURATION_MS)%Z) by (vm_compute; reflexivity).
  split; [exact H1|]. split; [exact H2|]. split; [exact H3|].
  exact (proj1 (getAvailableModels_cached_within_ttl _ _ _ _ _ _ 3600004%Z
                  FetchRejected H1 H2 H3)).
Defined.

(** One millisecond later the cache has expired and the listing is called
    again. *)
Example getAvailableModels_expired :
  getAvailableModels (mkCache Scenario.candidates 5) 3600005 FetchRejected
  = (inl Rejected, mkCache Scenario.candidates 5, [ListModels]).
Proof. vm_compute. reflexivity. Qed.

Lemma getAvailableModels_miss_order_witness :
  cacheFresh initial_cache 5 = false
  /\ Spec.ListedEligible (Spec.listedEntries MoreScenarios.unsorted)
       (List.map lit ["zeta"; "gemini-pro"; "alpha"; "text-embedding-004";
                      "zeta"; "gemini-1.5-flash-latest"]%string)
  /\ getAvailableModels initial_cache 5 (Listed MoreScenarios.unsorted)
     = (inr (List.map lit ["gemini-1.5-flash-latest"; "gemini-pro";
                           "zeta"; "alpha"; "zeta"]%string),
        mkCache (List.map lit ["gemini-1.5-flash-latest"; "gemini-pro";
                               "zeta"; "alpha"; "zeta"]%string) 5,
        [ListModels]).
Proof.
  assert (H : cacheFresh initial_cache 5 = false) by reflexivity.
  destruct (getAvailableModels_miss_order initial_cache 5
              MoreScenarios.unsorted H) as [eligible [Hl [Hu [Heq _]]]].
  assert (He : modelIds MoreScenarios.unsorted = eligible)
    by (apply Hu; apply modelIds_listed).
  subst eligible.
  split; [exact H|]. split; [exact Hl | exact Heq].
Defined.

Lemma POST_fallback_order_witness :
  Scenario.key <> []
  /\ Scenario.candidates <> []
  /\ getAvailableModels initial_cache 5 (Listed Scenario.listing)
     = (inr Scenario.candidates, mkCache Scenario.candidates 5, [ListModels])
  /\ POST Scenario.secondOpens (Some Scenario.key)
       (Body (Messages Scenario.transcript)) initial_cache 5
       (Listed Scenario.listing)
     = (mkResponse 200 (TextStream Scenario.stream),
        mkCache Scenario.candidates 5,
        [ListModels; OpenStream (lit "gemini-1.5-pro-latest");
         OpenStream (lit "gemini-1.5-flash-latest")])
  /\ POST Scenario.noneOpens (Some Scenario.key)
       (Body (Messages Scenario.transcript)) initial_cache 5
       (Listed Scenario.listing)
     = (mkResponse 503 (JsonError ERROR_UNAVAILABLE),
        mkCache Scenario.candidates 5,
        [ListModels; OpenStream (lit "gemini-1.5-pro-latest");
         OpenStream (lit "gemini-1.5-flash-latest")]).
Proof.
  assert (H1 : Scenario.key <> []) by discriminate.
  assert (H2 : Scenario.candidates <> []) by discriminate.
  assert (H3 : getAvailableModels initial_cache 5 (Listed Scenario.listing)
               = (inr Scenario.candidates, mkCache Scenario.candidates 5,
                  [ListModels])) by (vm_compute; reflexivity).
  split; [exact H1|]. split; [exact H2|]. split; [exact H3|]. split.
  - apply (proj1 (proj2 (POST_fallback_order (list jsstring)
                           Scenario.secondOpens Scenario.key _ [] _ _ _ _ _ _
                           H1 H2 H3))).
    + intros [|i] Hi; [reflexivity | simpl in Hi; lia].
    + reflexivity.
  - apply (proj2 (proj2 (POST_fallback_order (list jsstring)
                           Scenario.noneOpens Scenario.key _ [] _ _ _ _ _ _
                           H1 H2 H3))).
    intros i Hi. reflexivity.
Defined.

Lemma POST_listing_failure_witness :
  Scenario.key <> []
  /\ cacheFresh initial_cache 5 = false
  /\ POST Scenario.secondOpens (Some Scenario.key)
       (Body (Messages Scenario.transcript)) initial_cache 5
       (NotOk 403 (lit "Forbidden"))
     = (mkResponse 400 (JsonError ERROR_BODY), initial_cache, [ListModels]).
Proof.
  assert (H1 : Scenario.key <> []) by discriminate.
  assert (H2 : cacheFresh initial_cache 5 = false) by reflexivity.
  split; [exact H1|]. split; [exact H2|].
  apply (POST_listing_failure (list jsstring) Scenario.secondOpens
           Scenario.key _ [] initial_cache 5 _ H1 H2).
  right. exists 403%Z, (lit "Forbidden"). reflexivity.
Defined.

Lemma POST_rejects_without_transcript_witness :
  noTranscript (Body (Messages [])) = true
  /\ exists error,
       POST Scenario.secondOpens (Some Scenario.key) (Body (Messages []))
         initial_cache 5 (Listed Scenario.listing)
       = (mkResponse 400 (JsonError error), initial_cache, []).
Proof.
  assert (H : noTranscript (Body (Messages [])) = true) by reflexivity.
  split; [exact H|].
  destruct (proj1 (POST_rejects_without_transcript (list jsstring)
                     Scenario.secondOpens (Some Scenario.key)
                     (Body (Messages [])) initial_cache 5
                     (Listed Scenario.listing) H)
                  Scenario.key eq_refl ltac:(discriminate))
    as [error [Heq _]].
  exists error. exact Heq.
Defined.

(** Without the credential, an empty transcript is answered 500. *)
Lemma POST_missing_key_first :
  noTranscript (Body (Messages [])) = true
  /\ POST Scenario.secondOpens None (Body (Messages []))
       initial_cache 5 (Listed Scenario.listing)
     = (mkResponse 500 (JsonError ERROR_KEY), initial_cache, [])
  /\ status (fst (fst (POST Scenario.secondOpens None (Body (Messages []))
                         initial_cache 5 (Listed Scenario.listing))))
     <> 400%Z.
Proof.
  split; [reflexivity|]. split; [reflexivity|]. vm_compute. discriminate.
Qed.

End GatewayFacts.

(** ** The decoder *)

Module Utf8Facts.

Import Utf8.
Local Open Scope N_scope.

(** Running the decoder over two pieces, with the state carried over, is
    running it over the whole. *)
Lemma run_app (a b : list N) :
  forall d,
    run d (a ++ b)
    = (fst (run (fst (run d a)) b), snd (run d a) ++ snd (run (fst (run d a)) b)).
Proof.
  induction a as [|x a IH]; intros d; simpl.
  - destruct (run d b); reflexivity.
  - destruct (handler d x) as [d1 out1]. rewrite IH.
    destruct (run d1 a) as [d2 out2]. simpl.
    destruct (run d2 b) as [d3 out3]. simpl.
    rewrite app_assoc. reflexivity.
Qed.

Lemma serialize_app (a b : list N) :
  forall seen,
    serialize seen (a ++ b)
    = (fst (serialize (fst (serialize seen a)) b),
       snd (serialize seen a) ++ snd (serialize (fst (serialize seen a)) b)).
Proof.
  induction a as [|x a IH]; intros seen; simpl.
  - destruct (serialize seen b); reflexivity.
  - destruct (negb seen && (x =? BOM)).
    + apply IH.
    + rewrite IH. destruct (serialize true a) as [s1 t1]. simpl.
      destruct (serialize s1 b) as [s2 t2]. simpl.
      rewrite app_assoc. reflexivity.
Qed.

(** Decoding chunk after chunk with one [TextDecoder] gives the text of
    the joined chunks, wherever the cuts fall. *)
Lemma decode_stream_app (a b : list N) (td : TextDecoder) :
  decode_stream td (a ++ b)
  = (fst (decode_stream (fst (decode_stream td a)) b),
     snd (decode_stream td a) ++ snd (decode_stream (fst (decode_stream td a)) b)).
Proof.
  unfold decode_stream. rewrite run_app.
  destruct (run (decoder td) a) as [d1 out1]. simpl.
  destruct (run d1 b) as [d2 out2] eqn:E2. simpl.
  rewrite serialize_app.
  destruct (serialize (BOM_seen td) out1) as [s1 t1]. simpl.
  rewrite E2.
  destruct (serialize s1 out2) as [s2 t2]. reflexivity.
Qed.

Lemma decode_stream_nil (td : TextDecoder) :
  decode_stream td [] = (td, []).
Proof. destruct td. reflexivity. Qed.

(** Without an unfinished sequence at the end, the one-shot decoding is
    what the streaming decoder has put out. *)
Lemma decode_not_pending (bytes : list N) :
  Spec.pending bytes = false ->
  decode bytes = Spec.decodedSoFar bytes.
Proof.
  unfold Spec.pending, decode, Spec.decodedSoFar, decode_stream, end_of_queue.
  simpl. destruct (run fresh bytes) as [d cps]. simpl.
  intros H. apply negb_false_iff in H. rewrite H, app_nil_r.
  destruct (serialize false cps). reflexivity.
Qed.

(** With an unfinished sequence at the end, the one-shot decoding has one
    more U+FFFD. *)
Lemma decode_pending (bytes : list N) :
  Spec.pending bytes = true ->
  decode bytes
  = snd (serialize false (snd (run fresh bytes) ++ [REPLACEMENT])).
Proof.
  unfold Spec.pending, decode, end_of_queue.
  destruct (run fresh bytes) as [d cps]. simpl.
  intros H. apply negb_true_iff in H. rewrite H. reflexivity.
Qed.

(** *** The decoder on encoded text *)

Lemma lor_shiftl6 (a x : N) : x < 64 -> N.lor (N.shiftl a 6) x = a * 64 + x.
Proof.
  intros Hx. rewrite N.shiftl_mul_pow2. change (2 ^ 6) with 64.
  rewrite <- N.lxor_lor, <- N.add_nocarry_lxor; try reflexivity.
  all: apply N.bits_inj_0; intros n; rewrite N.land_spec;
    destruct (N.lt_ge_cases n 6) as [Hn|Hn].
  all: try (replace (a * 64) with (N.shiftl a 6)
              by (rewrite N.shiftl_mul_pow2; reflexivity);
            rewrite N.shiftl_spec_low by assumption; reflexivity).
  all: rewrite andb_false_iff; right.
  all: destruct (N.eq_dec x 0) as [->|Hx0]; [apply N.bits_0|].
  all: apply N.bits_above_log2; apply N.lt_le_trans with 6; [|assumption].
  all: apply N.log2_lt_pow2; [lia | exact Hx].
Qed.

Lemma land_mask (b : N) (k : N) : N.land b (N.ones k) = b mod 2 ^ k.
Proof. apply N.land_ones. Qed.

Ltac tests :=
  repeat match goal with
    | |- context [N.leb ?a ?b] => destruct (N.leb_spec a b); try lia
    | |- context [N.eqb ?a ?b] => destruct (N.eqb_spec a b); try lia
    end; cbn [andb negb orb].

Ltac next_byte :=
  cbn [bytes_seen bytes_needed code_point];
  repeat match goal with
    | |- context [N.eqb ?a ?b] =>
        let v := eval vm_compute in (N.eqb a b) in
        first [constr_eq v true | constr_eq v false];
        change (N.eqb a b) with v
    end;
  cbv iota; cbn [fst snd app].

Lemma lead_ascii b : b <= 0x7F -> lead b = (fresh, [b]).
Proof. intros H. unfold lead. tests. reflexivity. Qed.

Lemma lead_two b :
  0xC2 <= b <= 0xDF -> lead b = (mkDecoder (b - 0xC0) 0 1 0x80 0xBF, []).
Proof.
  intros H. unfold lead. tests.
  change 0x1F with (N.ones 5). rewrite land_mask.
  do 2 f_equal. change (2 ^ 5) with 32. lia.
Qed.

Lemma lead_three b :
  0xE0 <= b <= 0xEF ->
  lead b = (mkDecoder (b - 0xE0) 0 2
              (if b =? 0xE0 then 0xA0 else 0x80)
              (if b =? 0xED then 0x9F else 0xBF), []).
Proof.
  intros H. unfold lead.
  destruct (N.leb_spec b 0x7F); try lia.
  destruct (N.leb_spec 0xC2 b); try lia.
  destruct (N.leb_spec b 0xDF); try lia.
  destruct (N.leb_spec 0xE0 b); try lia.
  destruct (N.leb_spec b 0xEF); try lia.
  cbn [andb]. change 0xF with (N.ones 4). rewrite land_mask.
  change (2 ^ 4) with 16. replace (b mod 16) with (b - 0xE0) by lia.
  reflexivity.
Qed.

Lemma lead_four b :
  0xF0 <= b <= 0xF4 ->
  lead b = (mkDecoder (b - 0xF0) 0 3
              (if b =? 0xF0 then 0x90 else 0x80)
              (if b =? 0xF4 then 0x8F else 0xBF), []).
Proof.
  intros H. unfold lead.
  destruct (N.leb_spec b 0x7F); try lia.
  destruct (N.leb_spec 0xC2 b); try lia.
  destruct (N.leb_spec b 0xDF); try lia.
  destruct (N.leb_spec 0xE0 b); try lia.
  destruct (N.leb_spec b 0xEF); try lia.
  destruct (N.leb_spec 0xF0 b); try lia.
  destruct (N.leb_spec b 0xF4); try lia.
  cbn [andb]. change 0x7 with (N.ones 3). rewrite land_mask.
  change (2 ^ 3) with 8. replace (b mod 8) with (b - 0xF0) by lia.
  reflexivity.
Qed.

Lemma handler_continuation d b :
  bytes_needed d <> 0 ->
  lower_boundary d <= b <= upper_boundary d ->
  0x80 <= b <= 0xBF ->
  handler d b
  = if bytes_seen d + 1 =? bytes_needed d
    then (fresh, [code_point d * 64 + (b - 0x80)])
    else (mkDecoder (code_point d * 64 + (b - 0x80)) (bytes_seen d + 1)
            (bytes_needed d) 0x80 0xBF, []).
Proof.
  intros Hn Hb Hc. unfold handler.
  destruct (N.eqb_spec (bytes_needed d) 0); [contradiction|].
  destruct (N.leb_spec (lower_boundary d) b); try lia.
  destruct (N.leb_spec b (upper_boundary d)); try lia.
  cbn [andb negb].
  change 0x3F with (N.ones 6). rewrite land_mask. change (2 ^ 6) with 64.
  rewrite lor_shiftl6 by lia.
  replace (b mod 64) with (b - 0x80) by lia. reflexivity.
Qed.

Lemma run_cons d b rest :
  run d (b :: rest)
  = (fst (run (fst (handler d b)) rest),
     snd (handler d b) ++ snd (run (fst (handler d b)) rest)).
Proof.
  simpl. destruct (handler d b) as [d1 o1]. simpl.
  destruct (run d1 rest); reflexivity.
Qed.

Lemma handler_fresh b : handler fresh b = lead b.
Proof. reflexivity. Qed.

Lemma is_scalar_iff cp :
  is_scalar cp = true <-> cp <= 0x10FFFF /\ (cp < 0xD800 \/ 0xDFFF < cp).
Proof.
  unfold is_scalar.
  destruct (N.leb_spec cp 0x10FFFF); destruct (N.leb_spec 0xD800 cp);
    destruct (N.leb_spec cp 0xDFFF); cbn; split; intros; try lia;
    try discriminate; try reflexivity.
Qed.

Lemma run_encode_code_point cp rest :
  is_scalar cp = true ->
  run fresh (encode_code_point cp ++ rest)
  = (fst (run fresh rest), cp :: snd (run fresh rest)).
Proof.
  intros Hs. apply is_scalar_iff in Hs. unfold encode_code_point.
  destruct (N.leb_spec cp 0x7F) as [H1|H1].
  - cbn [app]. rewrite run_cons, handler_fresh, lead_ascii by lia. reflexivity.
  - destruct (N.leb_spec cp 0x7FF) as [H2|H2].
    + cbn [app]. rewrite run_cons, handler_fresh, lead_two by lia.
      cbn [fst snd app]. rewrite run_cons.
      rewrite handler_continuation by (cbn [lower_boundary upper_boundary bytes_needed]; lia).
      next_byte.
      f_equal. f_equal. lia.
    + destruct (N.leb_spec cp 0xFFFF) as [H3|H3].
      * cbn [app]. rewrite run_cons, handler_fresh, lead_three by lia.
        cbn [fst snd app]. rewrite run_cons.
        rewrite handler_continuation.
        2: cbn [bytes_needed]; lia.
        2: { cbn [lower_boundary upper_boundary].
             destruct (N.eqb_spec (0xE0 + cp / 0x1000) 0xE0);
               destruct (N.eqb_spec (0xE0 + cp / 0x1000) 0xED); lia. }
        2: lia.
        next_byte.
        rewrite run_cons.
        rewrite handler_continuation by (cbn [lower_boundary upper_boundary bytes_needed]; lia).
        next_byte.
        f_equal. f_equal. lia.
      * cbn [app]. rewrite run_cons, handler_fresh, lead_four by lia.
        cbn [fst snd app]. rewrite run_cons.
        rewrite handler_continuation.
        2: cbn [bytes_needed]; lia.
        2: { cbn [lower_boundary upper_boundary].
             destruct (N.eqb_spec (0xF0 + cp / 0x40000) 0xF0);
               destruct (N.eqb_spec (0xF0 + cp / 0x40000) 0xF4); lia. }
        2: lia.
        next_byte.
        rewrite run_cons.
        rewrite handler_continuation by (cbn [lower_boundary upper_boundary bytes_needed]; lia).
        next_byte.
        rewrite run_cons.
        rewrite handler_continuation by (cbn [lower_boundary upper_boundary bytes_needed]; lia).
        next_byte.
        f_equal. f_equal. lia.
Qed.

(** Decoding the encoding of a text gives the text back and leaves the
    decoder as new. *)
Lemma run_encode (text : list N) :
  Forall (fun cp => is_scalar cp = true) text ->
  run fresh (encode text) = (fresh, text).
Proof.
  induction 1 as [|cp rest Hcp _ IH]; [reflexivity|].
  unfold encode in *. cbn [flat_map].
  rewrite run_encode_code_point by exact Hcp.
  rewrite IH. reflexivity.
Qed.

Lemma encode_not_pending (text : list N) :
  Forall (fun cp => is_scalar cp = true) text ->
  Spec.pending (encode text) = false.
Proof.
  intros H. unfold Spec.pending. rewrite (run_encode text H). reflexivity.
Qed.

Lemma decode_encode (text : list N) :
  Forall (fun cp => is_scalar cp = true) text ->
  decode (encode text) = snd (serialize false text).
Proof.
  intros H. unfold decode. rewrite (run_encode text H).
  cbn [end_of_queue bytes_needed fresh N.eqb]. rewrite app_nil_r. reflexivity.
Qed.

End Utf8Facts.

(** ** The chat component *)

Module ReducerFacts.

Import JS JSFacts Reducer.

(** *** Titles *)

Lemma find_isUser_none (messages : list ChatMessage.t) :
  Forall (fun m => ChatMessage.role m = assistant) messages ->
  find isUser messages = None.
Proof.
  induction 1 as [|m rest Hm _ IH]; simpl; [reflexivity|].
  unfold isUser at 1. rewrite Hm. exact IH.
Qed.

Lemma find_isUser_first (before : list ChatMessage.t) first rest :
  Forall (fun m => ChatMessage.role m = assistant) before ->
  ChatMessage.role first = user ->
  find isUser (before ++ first :: rest) = Some first.
Proof.
  intros Hbefore Hfirst.
  induction Hbefore as [|m before' Hm _ IH]; simpl.
  - unfold isUser. rewrite Hfirst. reflexivity.
  - unfold isUser at 1. rewrite Hm. exact IH.
Qed.

(** Every list has a first user message or none. *)
Lemma FirstUser_total (messages : list ChatMessage.t) :
  exists first, Spec.FirstUser messages first.
Proof.
  induction messages as [|m rest [first IH]].
  - exists None. constructor. constructor.
  - destruct (ChatMessage.role m) eqn:E.
    + exists (Some m). apply (@Spec.first_user_some [] m rest); auto.
    + inversion IH as [ms Hall|before f rest' Hbefore Hf]; subst.
      * exists None. constructor. constructor; assumption.
      * exists (Some f).
        apply (@Spec.first_user_some (m :: before) f rest'); auto.
Qed.

(** C9, as the code has it: the title is the first 50 characters of the
    trimmed text of the first user message when that text is not empty;
    it is "New Chat" when there is no user message, or when the first
    user message has neither text nor image; with an image and no text it
    is "Image: " followed by the image's name. *)
Theorem deriveTitle_of_first_user
    (messages : list ChatMessage.t) (first : option ChatMessage.t) :
  Spec.FirstUser messages first ->
  deriveTitle messages = Spec.titleOfTextOrImage first
  /\ (first = None -> deriveTitle messages = lit "New Chat")
  /\ (forall message,
        first = Some message ->
        trim (ChatMessage.content message) <> [] ->
        deriveTitle messages = firstn 50 (trim (ChatMessage.content message))
        /\ (List.length (deriveTitle messages) <= 50)%nat)
  /\ (forall message,
        first = Some message ->
        trim (ChatMessage.content message) = [] ->
        ChatMessage.image message = None ->
        deriveTitle messages = lit "New Chat")
  /\ (forall message img,
        first = Some message ->
        trim (ChatMessage.content message) = [] ->
        ChatMessage.image message = Some img ->
        deriveTitle messages = lit "Image: " ++ ChatImage.name img).
Proof.
  intros Hfirst.
  assert (Heq : deriveTitle messages = Spec.titleOfTextOrImage first).
  { unfold deriveTitle.
    destruct Hfirst as [ms Hall|before f rest Hbefore Hf].
    - rewrite (find_isUser_none _ Hall). reflexivity.
    - rewrite (find_isUser_first _ _ _ Hbefore Hf). simpl.
      destruct (trim (ChatMessage.content f)); reflexivity. }
  rewrite Heq. split; [reflexivity|]. split; [|split; [|split]].
  - intros ->. reflexivity.
  - intros message -> Htext. unfold Spec.titleOfTextOrImage.
    destruct (trim (ChatMessage.content message)) as [|x t];
      [congruence|].
    split; [reflexivity | apply firstn_le_length].
  - intros message -> Htext Himage. unfold Spec.titleOfTextOrImage.
    rewrite Htext, Himage. reflexivity.
  - intros message img -> Htext Himage. unfold Spec.titleOfTextOrImage.
    rewrite Htext, Himage. reflexivity.
Qed.

(** The scenario of the specification: a long first message. *)
Example deriveTitle_long_text :
  deriveTitle
    [ChatMessage.mk (lit "m1") user
       (lit "  fix my bug please with a very long description exceeding fifty characters total")
       None]
  = lit "fix my bug please with a very long description exc".
Proof. vm_compute. reflexivity. Qed.

(** A first user message with an image and no text is not titled
    "New Chat". *)
Lemma deriveTitle_image_only :
  Spec.FirstUser [Scenario.imageOnly] (Some Scenario.imageOnly)
  /\ trim (ChatMessage.content Scenario.imageOnly) = []
  /\ deriveTitle [Scenario.imageOnly] = lit "Image: a.png"
  /\ deriveTitle [Scenario.imageOnly]
     <> Spec.titleOfText (Some Scenario.imageOnly).
Proof.
  split; [|split; [|split]].
  - apply (@Spec.first_user_some [] _ []); [constructor | reflexivity].
  - reflexivity.
  - vm_compute. reflexivity.
  - vm_compute. discriminate.
Qed.

Lemma deriveTitle_of_first_user_witness :
  Spec.FirstUser [Scenario.imageOnly] (Some Scenario.imageOnly)
  /\ deriveTitle [Scenario.imageOnly]
     = Spec.titleOfTextOrImage (Some Scenario.imageOnly).
Proof.
  assert (H : Spec.FirstUser [Scenario.imageOnly] (Some Scenario.imageOnly)).
  { apply (@Spec.first_user_some [] _ []); [constructor | reflexivity]. }
  split; [exact H|].
  exact (proj1 (deriveTitle_of_first_user _ _ H)).
Defined.

(** *** Updates of the session list *)

Lemma activeChat_In (st : State) (active : ChatSession.t) :
  activeChat st = Some active -> In active (chats st).
Proof.
  unfold activeChat.
  destruct (find _ (chats st)) as [chat|] eqn:E.
  - intros H; inversion H; subst. apply find_some in E. tauto.
  - destruct (chats st); simpl; [discriminate|].
    intros H; inversion H; auto.
Qed.

Lemma In_upsertChat chatId updater current chat' :
  In chat' (upsertChat chatId updater current) <->
  exists chat, In chat current
               /\ chat' = if eqb (ChatSession.id chat) chatId
                          then updater chat else chat.
Proof.
  unfold upsertChat. rewrite in_map_iff. split.
  - intros [chat [H1 H2]]. exists chat. split; [assumption | congruence].
  - intros [chat [H1 H2]]. exists chat. split; [congruence | assumption].
Qed.

(** Two updates of the same session are one update, when the first keeps
    the session's id. *)
Lemma upsertChat_twice chatId f g current :
  (forall chat, ChatSession.id (g chat) = ChatSession.id chat) ->
  upsertChat chatId f (upsertChat chatId g current)
  = upsertChat chatId (fun chat => f (g chat)) current.
Proof.
  intros Hid. unfold upsertChat. rewrite map_map.
  apply map_ext. intros chat.
  destruct (eqb (ChatSession.id chat) chatId) eqn:E.
  - rewrite Hid, E. reflexivity.
  - rewrite E. reflexivity.
Qed.

(** Writing a content over a content: only the last one stays, so the
    update is an overwrite and not an append. *)
Lemma withContentOf_overwrites messageId text1 now1 text2 now2 chat :
  withContentOf messageId text2 now2 (withContentOf messageId text1 now1 chat)
  = withContentOf messageId text2 now2 chat.
Proof.
  unfold withContentOf. simpl. f_equal. rewrite map_map.
  apply map_ext. intros message.
  destruct (eqb (ChatMessage.id message) messageId) eqn:E.
  - simpl. rewrite E. reflexivity.
  - rewrite E. reflexivity.
Qed.

Lemma withContentOf_messages messageId text (messages : list ChatMessage.t) :
  Forall2 (Spec.messageUpdated messageId text) messages
    (List.map (fun message =>
                 if eqb (ChatMessage.id message) messageId
                 then ChatMessage.withContent message text
                 else message) messages).
Proof.
  induction messages as [|m rest IH]; simpl; constructor; [|exact IH].
  unfold Spec.messageUpdated.
  destruct (eqb (ChatMessage.id m) messageId) eqn:E.
  - apply eqb_eq in E. simpl. repeat split; auto. congruence.
  - apply eqb_neq in E. repeat split; auto. congruence.
Qed.

Lemma upsertChat_contentUpdated chatId messageId text now current :
  Spec.contentUpdated chatId messageId text current
    (upsertChat chatId (withContentOf messageId text now) current).
Proof.
  unfold Spec.contentUpdated, upsertChat.
  induction current as [|chat rest IH]; simpl; constructor; [|exact IH].
  unfold Spec.sessionUpdated.
  destruct (eqb (ChatSession.id chat) chatId) eqn:E.
  - apply eqb_eq in E. simpl. repeat split; auto.
    + intros _. apply withContentOf_messages.
    + congruence.
  - apply eqb_neq in E. repeat split; auto. congruence.
Qed.

Lemma receive_chats chunk now sub st :
  chats (snd (receive chunk now sub st))
  = upsertChat (chatId sub)
      (withContentOf (ChatMessage.id (assistantMessage sub))
         (fullAssistantText (fst (receive chunk now sub st))) now)
      (chats st).
Proof.
  unfold receive. destruct (Utf8.decode_stream _ _). reflexivity.
Qed.

Lemma receive_closure chunk now sub st :
  chatId (fst (receive chunk now sub st)) = chatId sub
  /\ assistantMessage (fst (receive chunk now sub st)) = assistantMessage sub
  /\ fullAssistantText (fst (receive chunk now sub st))
     = fullAssistantText sub
       ++ snd (Utf8.decode_stream (decoder sub) chunk)
  /\ decoder (fst (receive chunk now sub st))
     = fst (Utf8.decode_stream (decoder sub) chunk).
Proof.
  unfold receive. destruct (Utf8.decode_stream _ _). simpl. auto.
Qed.

(** C8: a streaming update, and a failure update, changes the content of
    the messages that carry the placeholder's id inside the sessions that
    carry the id captured at submission, and nothing else: the other
    sessions and the other messages are the same afterwards.  The update
    does not read the active session: it gives the same sessions whatever
    session is active, and it leaves the active session as it is. *)
Theorem updates_keyed_by_identity
    (chunk : list N) (now : Z) (fallback : jsstring)
    (sub : Submission) (st : State) (other : jsstring) :
  let sub' := fst (receive chunk now sub st) in
  let st' := snd (receive chunk now sub st) in
  Spec.contentUpdated (chatId sub) (ChatMessage.id (assistantMessage sub))
    (fullAssistantText sub') (chats st) (chats st')
  /\ Spec.contentUpdated (chatId sub) (ChatMessage.id (assistantMessage sub))
       fallback (chats st) (chats (fail fallback now sub st))
  /\ chats (snd (receive chunk now sub (setActiveChatId other st))) = chats st'
  /\ chats (fail fallback now sub (setActiveChatId other st))
     = chats (fail fallback now sub st)
  /\ activeChatId st' = activeChatId st
  /\ activeChatId (fail fallback now sub st) = activeChatId st
  /\ chatId sub' = chatId sub
  /\ assistantMessage sub' = assistantMessage sub.
Proof.
  cbv zeta.
  destruct (receive_closure chunk now sub st) as [Hc [Ha _]].
  repeat split; try assumption.
  - rewrite receive_chats. apply upsertChat_contentUpdated.
  - apply upsertChat_contentUpdated.
  - unfold receive. destruct (Utf8.decode_stream _ _). reflexivity.
  - unfold receive. destruct (Utf8.decode_stream _ _). reflexivity.
Qed.

(** *** Submission *)

Lemma submit_inv userId assistantId now st st' sub :
  submit userId assistantId now st = Some (st', sub) ->
  exists active,
    activeChat st = Some active
    /\ isStreaming st = false
    /\ (trim (input st) <> [] \/ inputImage st <> None)
    /\ sub = mkSubmission (ChatSession.id active)
               (ChatMessage.mk userId user (trim (input st)) (inputImage st))
               (ChatMessage.mk assistantId assistant [] None)
               (ChatSession.messages active
                ++ [ChatMessage.mk userId user (trim (input st)) (inputImage st);
                    ChatMessage.mk assistantId assistant [] None])
               Utf8.newTextDecoder []
    /\ st' = mkState
               (upsertChat (ChatSession.id active)
                  (withMessages (nextMessages sub) now) (chats st))
               (activeChatId st) [] None true [].
Proof.
  unfold submit. destruct (activeChat st) as [active|]; [|discriminate].
  destruct (isStreaming st) eqn:Es.
  - rewrite orb_true_r. discriminate.
  - rewrite orb_false_r.
    destruct (trim (input st)) as [|x t] eqn:Et;
      destruct (inputImage st) as [img|] eqn:Ei; simpl;
      try discriminate;
      intros H; inversion H; subst; exists active;
      repeat split; auto; try (left; discriminate); right; discriminate.
Qed.

(** After an accepted submission, the sessions of the captured id hold the
    former messages of the active session and the two new ones. *)
Lemma submit_messages userId assistantId now st st' sub active :
  submit userId assistantId now st = Some (st', sub) ->
  activeChat st = Some active ->
  (exists chat, In chat (chats st') /\ ChatSession.id chat = chatId sub)
  /\ forall chat,
       In chat (chats st') -> ChatSession.id chat = chatId sub ->
       ChatSession.messages chat
       = ChatSession.messages active
         ++ [userMessage sub; assistantMessage sub].
Proof.
  intros Hsub Hactive.
  destruct (submit_inv _ _ _ _ _ _ Hsub) as [a [Ha [_ [_ [Hs Hst]]]]].
  rewrite Hactive in Ha. inversion Ha; subst a. clear Ha.
  assert (Hid : chatId sub = ChatSession.id active) by (rewrite Hs; reflexivity).
  assert (Hnext : nextMessages sub
                  = ChatSession.messages active
                    ++ [userMessage sub; assistantMessage sub])
    by (rewrite Hs; reflexivity).
  rewrite Hst. simpl. rewrite Hid. split.
  - exists (withMessages (nextMessages sub) now active). split; [|reflexivity].
    apply In_upsertChat. exists active.
    split; [apply activeChat_In; assumption|].
    rewrite eqb_refl. reflexivity.
  - intros chat Hin Hchat.
    apply In_upsertChat in Hin. destruct Hin as [chat0 [_ Heq]].
    destruct (eqb (ChatSession.id chat0) (ChatSession.id active)) eqn:E.
    + subst chat. simpl. exact Hnext.
    + subst chat. apply eqb_neq in E. contradiction.
Qed.

(** C10: the two messages an accepted submission appends to the active
    session are the user message, whose content is the trimmed draft and
    so has no white space at either end, and the assistant placeholder,
    whose content is the empty string. *)
Theorem submit_appends_normalized
    (userId assistantId : jsstring) (now : Z) (st st' : State)
    (sub : Submission) :
  submit userId assistantId now st = Some (st', sub) ->
  exists active,
    activeChat st = Some active
    /\ chatId sub = ChatSession.id active
    /\ (exists chat, In chat (chats st') /\ ChatSession.id chat = chatId sub)
    /\ (forall chat,
          In chat (chats st') -> ChatSession.id chat = chatId sub ->
          ChatSession.messages chat
          = ChatSession.messages active
            ++ [userMessage sub; assistantMessage sub])
    /\ userMessage sub
       = ChatMessage.mk userId user (trim (input st)) (inputImage st)
    /\ Spec.trimmed (ChatMessage.content (userMessage sub))
    /\ trim (ChatMessage.content (userMessage sub))
       = ChatMessage.content (userMessage sub)
    /\ assistantMessage sub = ChatMessage.mk assistantId assistant [] None.
Proof.
  intros Hsub.
  destruct (submit_inv _ _ _ _ _ _ Hsub) as [active [Ha [_ [_ [Hs _]]]]].
  destruct (submit_messages _ _ _ _ _ _ _ Hsub Ha) as [Hex Hall].
  exists active. rewrite Hs in *. simpl in *.
  repeat split; auto.
  - intros c r H. eapply trim_head; eassumption.
  - intros r c H. eapply trim_last; eassumption.
  - apply trim_idempotent.
Qed.

(** *** Streaming *)

(** One chunk keeps the placeholder last in its sessions and replaces its
    content with the accumulated text. *)
Lemma receive_endsWith chunk now sub st assistantId :
  ChatMessage.id (assistantMessage sub) = assistantId ->
  Spec.endsWith (chatId sub)
    (Spec.placeholder assistantId (fullAssistantText sub)) (chats st) ->
  Spec.endsWith (chatId sub)
    (Spec.placeholder assistantId
       (fullAssistantText (fst (receive chunk now sub st))))
    (chats (snd (receive chunk now sub st))).
Proof.
  intros Hid [[chat0 [Hin0 Hc0]] Hall].
  rewrite receive_chats.
  set (full := fullAssistantText (fst (receive chunk now sub st))).
  rewrite Hid. split.
  - exists (withContentOf assistantId full now chat0). split.
    + apply In_upsertChat. exists chat0. split; [assumption|].
      rewrite Hc0, eqb_refl. reflexivity.
    + exact Hc0.
  - intros chat Hin Hchat.
    apply In_upsertChat in Hin. destruct Hin as [chat1 [Hin1 Heq]].
    destruct (eqb (ChatSession.id chat1) (chatId sub)) eqn:E.
    + apply eqb_eq in E. destruct (Hall chat1 Hin1 E) as [front Hfront].
      subst chat. simpl. rewrite Hfront, map_app. simpl.
      rewrite eqb_refl.
      eexists. reflexivity.
    + subst chat. apply eqb_neq in E. contradiction.
Qed.

Lemma readAll_closure chunks :
  forall sub st,
    chatId (fst (readAll chunks sub st)) = chatId sub
    /\ assistantMessage (fst (readAll chunks sub st)) = assistantMessage sub
    /\ fullAssistantText (fst (readAll chunks sub st))
       = fullAssistantText sub
         ++ snd (Utf8.decode_stream (decoder sub) (Spec.joined chunks))
    /\ decoder (fst (readAll chunks sub st))
       = fst (Utf8.decode_stream (decoder sub) (Spec.joined chunks)).
Proof.
  induction chunks as [|[chunk now] rest IH]; intros sub st.
  - change (Spec.joined []) with (@nil N).
    rewrite Utf8Facts.decode_stream_nil, app_nil_r. auto.
  - simpl. destruct (receive chunk now sub st) as [sub1 st1] eqn:E.
    destruct (receive_closure chunk now sub st) as [Hc [Ha [Hf Hd]]].
    rewrite E in Hc, Ha, Hf, Hd. simpl in Hc, Ha, Hf, Hd.
    destruct (IH sub1 st1) as [Hc' [Ha' [Hf' Hd']]].
    unfold Spec.joined in *. simpl.
    rewrite Utf8Facts.decode_stream_app. simpl.
    rewrite Hc', Ha', Hf', Hd', Hc, Ha, Hf, Hd.
    rewrite app_assoc. auto.
Qed.

(** The invariant of the reading loop. *)
Lemma readAll_endsWith chunks assistantId :
  forall sub st,
    ChatMessage.id (assistantMessage sub) = assistantId ->
    Spec.endsWith (chatId sub)
      (Spec.placeholder assistantId (fullAssistantText sub)) (chats st) ->
    Spec.endsWith (chatId sub)
      (Spec.placeholder assistantId
         (fullAssistantText (fst (readAll chunks sub st))))
      (chats (snd (readAll chunks sub st))).
Proof.
  induction chunks as [|[chunk now] rest IH]; intros sub st Hid Hinv.
  - exact Hinv.
  - simpl. destruct (receive chunk now sub st) as [sub1 st1] eqn:E.
    pose proof (receive_endsWith chunk now sub st assistantId Hid Hinv) as H1.
    destruct (receive_closure chunk now sub st) as [Hc [Ha _]].
    rewrite E in H1, Hc, Ha. simpl in H1, Hc, Ha.
    rewrite <- Hc. apply IH.
    + rewrite Ha. exact Hid.
    + rewrite Hc. exact H1.
Qed.

(** An accepted submission leaves the empty placeholder last. *)
Lemma submit_endsWith userId assistantId now st st' sub :
  submit userId assistantId now st = Some (st', sub) ->
  ChatMessage.id (assistantMessage sub) = assistantId
  /\ fullAssistantText sub = []
  /\ decoder sub = Utf8.newTextDecoder
  /\ Spec.endsWith (chatId sub) (Spec.placeholder assistantId []) (chats st').
Proof.
  intros Hsub.
  destruct (submit_inv _ _ _ _ _ _ Hsub) as [active [Ha [_ [_ [Hs _]]]]].
  destruct (submit_messages _ _ _ _ _ _ _ Hsub Ha) as [Hex Hall].
  assert (Hph : assistantMessage sub = Spec.placeholder assistantId [])
    by (rewrite Hs; reflexivity).
  repeat split; try (rewrite Hs; reflexivity); [exact Hex|].
  intros chat Hin Hchat. rewrite (Hall chat Hin Hchat), Hph.
  exists (ChatSession.messages active ++ [userMessage sub]).
  rewrite <- app_assoc. reflexivity.
Qed.

Lemma setIsStreaming_chats b st : chats (setIsStreaming b st) = chats st.
Proof. reflexivity. Qed.

(** The text the reader has received so far is what the placeholder
    holds. *)
Lemma readAll_decodedSoFar userId assistantId now st st1 sub received :
  submit userId assistantId now st = Some (st1, sub) ->
  Spec.endsWith (chatId sub)
    (Spec.placeholder assistantId (Spec.decodedSoFar (Spec.joined received)))
    (chats (snd (readAll received sub st1))).
Proof.
  intros Hsub.
  destruct (submit_endsWith _ _ _ _ _ _ Hsub) as [Hid [Hfull [Hdec Hinv]]].
  pose proof (readAll_endsWith received assistantId sub st1 Hid) as H.
  rewrite Hfull in H. specialize (H Hinv).
  destruct (readAll_closure received sub st1) as [_ [_ [Hf _]]].
  rewrite Hf, Hfull, Hdec in H. exact H.
Qed.

Lemma sendMessage_streamed userId assistantId now st st1 sub chunks :
  submit userId assistantId now st = Some (st1, sub) ->
  chats (sendMessage userId assistantId now (Streamed chunks) st)
  = chats (snd (readAll chunks sub st1)).
Proof.
  intros Hsub. unfold sendMessage. rewrite Hsub. reflexivity.
Qed.

(** Writing the same content twice is writing it once. *)
Lemma content_update_idempotent chatId messageId text now current :
  upsertChat chatId (withContentOf messageId text now)
    (upsertChat chatId (withContentOf messageId text now) current)
  = upsertChat chatId (withContentOf messageId text now) current.
Proof.
  rewrite upsertChat_twice by reflexivity.
  unfold upsertChat. apply map_ext. intros chat.
  rewrite withContentOf_overwrites. reflexivity.
Qed.

(** C3, as the code has it: after an accepted submission whose chunks,
    joined, do not end inside an unfinished multi-byte sequence, the
    placeholder's content is the UTF-8 decoding of the joined chunks,
    wherever the chunk boundaries fall; after any number of the chunks the
    content is the whole text decoded so far, to which the later chunks
    add their text; the update writes that whole text over the content, so
    that applying it twice is applying it once. *)
Theorem streamed_content_is_decoding
    (userId assistantId : jsstring) (now : Z) (st st1 : State)
    (sub : Submission) (chunks : list (list N * Z)) :
  submit userId assistantId now st = Some (st1, sub) ->
  Spec.pending (Spec.joined chunks) = false ->
  Spec.endsWith (chatId sub)
    (Spec.placeholder assistantId (Utf8.decode (Spec.joined chunks)))
    (chats (sendMessage userId assistantId now (Streamed chunks) st))
  /\ (forall received rest,
        chunks = received ++ rest ->
        Spec.endsWith (chatId sub)
          (Spec.placeholder assistantId
             (Spec.decodedSoFar (Spec.joined received)))
          (chats (snd (readAll received sub st1)))
        /\ Spec.decodedSoFar (Spec.joined chunks)
           = Spec.decodedSoFar (Spec.joined received)
             ++ snd (Utf8.decode_stream
                       (decoder (fst (readAll received sub st1)))
                       (Spec.joined rest)))
  /\ (forall chunk at1 at2 sub' st',
        chats (snd (receive chunk at2 sub'
                      (snd (receive chunk at1 sub' st'))))
        = chats (snd (receive chunk at2 sub' st'))).
Proof.
  intros Hsub Hpending. split; [|split].
  - rewrite (sendMessage_streamed _ _ _ _ _ _ chunks Hsub).
    rewrite (Utf8Facts.decode_not_pending _ Hpending).
    apply (readAll_decodedSoFar _ _ _ _ _ _ chunks Hsub).
  - intros received rest ->.
    split; [apply (readAll_decodedSoFar _ _ _ _ _ _ received Hsub)|].
    destruct (submit_endsWith _ _ _ _ _ _ Hsub) as [_ [_ [Hdec _]]].
    destruct (readAll_closure received sub st1) as [_ [_ [_ Hd]]].
    rewrite Hd, Hdec. unfold Spec.decodedSoFar, Spec.joined.
    rewrite map_app, concat_app, Utf8Facts.decode_stream_app. reflexivity.
  - intros chunk at1 at2 sub' st'.
    rewrite !receive_chats.
    destruct (receive_closure chunk at2 sub' (snd (receive chunk at1 sub' st')))
      as [_ [_ [Hf2 _]]].
    destruct (receive_closure chunk at2 sub' st') as [_ [_ [Hf2' _]]].
    destruct (receive_closure chunk at1 sub' st') as [_ [_ [Hf1 _]]].
    rewrite Hf2, Hf2', Hf1.
    rewrite upsertChat_twice by reflexivity.
    unfold upsertChat. apply map_ext. intros chat.
    rewrite withContentOf_overwrites. reflexivity.
Qed.

(** The same for a text: however the UTF-8 encoding of a text is cut into
    chunks, the placeholder ends up with the text (without a byte order
    mark in front), as UTF-16. *)
Theorem streamed_text_any_chunking
    (userId assistantId : jsstring) (now : Z) (st st1 : State)
    (sub : Submission) (chunks : list (list N * Z)) (text : list N) :
  submit userId assistantId now st = Some (st1, sub) ->
  Forall (fun cp => Utf8.is_scalar cp = true) text ->
  Spec.joined chunks = Utf8.encode text ->
  Spec.endsWith (chatId sub)
    (Spec.placeholder assistantId (snd (Utf8.serialize false text)))
    (chats (sendMessage userId assistantId now (Streamed chunks) st)).
Proof.
  intros Hsub Htext Hbytes.
  rewrite <- (Utf8Facts.decode_encode text Htext), <- Hbytes.
  rewrite (sendMessage_streamed _ _ _ _ _ _ chunks Hsub).
  rewrite Utf8Facts.decode_not_pending
    by (rewrite Hbytes; apply Utf8Facts.encode_not_pending; exact Htext).
  apply (readAll_decodedSoFar _ _ _ _ _ _ chunks Hsub).
Qed.

(** *** Streaming while the user changes session *)

Lemma handle_closure e sub st :
  chatId (fst (handle e sub st)) = chatId sub
  /\ assistantMessage (fst (handle e sub st)) = assistantMessage sub
  /\ fullAssistantText (fst (handle e sub st))
     = fullAssistantText sub
       ++ snd (Utf8.decode_stream (decoder sub) (delivered [e]))
  /\ decoder (fst (handle e sub st))
     = fst (Utf8.decode_stream (decoder sub) (delivered [e])).
Proof.
  destruct e as [chunk now|chatId|newId now]; cbn [handle delivered fst].
  - rewrite app_nil_r. apply receive_closure.
  - rewrite Utf8Facts.decode_stream_nil, app_nil_r. auto.
  - rewrite Utf8Facts.decode_stream_nil, app_nil_r. auto.
Qed.

Lemma handle_endsWith e sub st assistantId :
  ChatMessage.id (assistantMessage sub) = assistantId ->
  (forall newId now, e = Started newId now -> newId <> chatId sub) ->
  Spec.endsWith (chatId sub)
    (Spec.placeholder assistantId (fullAssistantText sub)) (chats st) ->
  Spec.endsWith (chatId sub)
    (Spec.placeholder assistantId (fullAssistantText (fst (handle e sub st))))
    (chats (snd (handle e sub st))).
Proof.
  intros Hid Hfresh Hinv.
  destruct e as [chunk now|chatId|newId now]; simpl.
  - apply receive_endsWith; assumption.
  - exact Hinv.
  - destruct Hinv as [[chat0 [Hin0 Hc0]] Hall]. split.
    + exists chat0. split; [right; assumption | assumption].
    + intros chat [<-|Hin] Hchat.
      * exfalso. exact (Hfresh newId now eq_refl Hchat).
      * apply Hall; assumption.
Qed.

(** A session with another id goes through every event untouched. *)
Lemma handle_frame e sub st chat :
  In chat (chats st) -> ChatSession.id chat <> chatId sub ->
  In chat (chats (snd (handle e sub st))).
Proof.
  intros Hin Hother.
  destruct e as [chunk now|chatId|newId now]; simpl.
  - rewrite receive_chats. apply In_upsertChat. exists chat.
    split; [assumption|].
    apply eqb_neq in Hother. rewrite Hother. reflexivity.
  - assumption.
  - right. assumption.
Qed.

(** While the response is streamed the user may select other sessions and
    start new ones: the placeholder of the session of the submission still
    ends up with the text delivered, and the sessions with other ids are
    not changed. *)
Theorem streaming_across_session_changes (events : list Event)
    (assistantId : jsstring) :
  forall sub st,
    ChatMessage.id (assistantMessage sub) = assistantId ->
    (forall newId now, In (Started newId now) events -> newId <> chatId sub) ->
    Spec.endsWith (chatId sub)
      (Spec.placeholder assistantId (fullAssistantText sub)) (chats st) ->
    Spec.endsWith (chatId sub)
      (Spec.placeholder assistantId
         (fullAssistantText sub
          ++ snd (Utf8.decode_stream (decoder sub) (delivered events))))
      (chats (snd (handleAll events sub st)))
    /\ forall chat,
         In chat (chats st) -> ChatSession.id chat <> chatId sub ->
         In chat (chats (snd (handleAll events sub st))).
Proof.
  induction events as [|e rest IH]; intros sub st Hid Hfresh Hinv.
  - cbn [handleAll delivered snd].
    rewrite Utf8Facts.decode_stream_nil, app_nil_r. auto.
  - cbn [handleAll].
    destruct (handle e sub st) as [sub1 st1] eqn:E.
    destruct (handle_closure e sub st) as [Hc [Ha [Hf Hd]]].
    pose proof (handle_endsWith e sub st assistantId Hid
                  (fun newId now He =>
                     Hfresh newId now (or_introl He))) as H1.
    specialize (H1 Hinv).
    rewrite E in Hc, Ha, Hf, Hd, H1. simpl in Hc, Ha, Hf, Hd, H1.
    destruct (IH sub1 st1) as [Hends Hframe].
    + rewrite Ha. exact Hid.
    + intros newId now Hin. rewrite Hc.
      apply (Hfresh newId now). right. exact Hin.
    + rewrite Hc. exact H1.
    + split.
      * rewrite Hc, Hf, Hd in Hends. rewrite <- app_assoc in Hends.
        replace (delivered (e :: rest)) with (delivered [e] ++ delivered rest)
          by (destruct e; simpl; rewrite ?app_nil_r; reflexivity).
        rewrite Utf8Facts.decode_stream_app. exact Hends.
      * intros chat Hin Hother. apply Hframe.
        -- pose proof (handle_frame e sub st chat Hin Hother) as H.
           rewrite E in H. exact H.
        -- rewrite Hc. exact Hother.
Qed.

(** *** The theorems at a concrete session *)

Lemma submit_appends_normalized_witness :
  exists st' sub,
    submit (lit "u1") (lit "a1") 1 Scenario.drafted = Some (st', sub)
    /\ ChatMessage.content (userMessage sub) = lit "hi"
    /\ Spec.trimmed (ChatMessage.content (userMessage sub))
    /\ ChatMessage.content (assistantMessage sub) = [].
Proof.
  eexists. eexists.
  assert (H : submit (lit "u1") (lit "a1") 1 Scenario.drafted
              = Some (_, _)) by (vm_compute; reflexivity).
  split; [exact H|].
  destruct (submit_appends_normalized _ _ _ _ _ _ H)
    as [active [_ [_ [_ [_ [_ [Htrimmed _]]]]]]].
  split; [reflexivity|]. split; [exact Htrimmed | reflexivity].
Defined.

Lemma streamed_content_is_decoding_witness :
  exists st1 sub,
    submit (lit "u1") (lit "a1") 1 Scenario.drafted = Some (st1, sub)
    /\ Spec.pending (Spec.joined Scenario.euroInTwoChunks) = false
    /\ Utf8.decode (Spec.joined Scenario.euroInTwoChunks) = [0x20AC%N]
    /\ Spec.endsWith (chatId sub)
         (Spec.placeholder (lit "a1")
            (Utf8.decode (Spec.joined Scenario.euroInTwoChunks)))
         (chats (sendMessage (lit "u1") (lit "a1") 1
                   (Streamed Scenario.euroInTwoChunks) Scenario.drafted)).
Proof.
  eexists. eexists.
  assert (H : submit (lit "u1") (lit "a1") 1 Scenario.drafted
              = Some (_, _)) by (vm_compute; reflexivity).
  assert (Hp : Spec.pending (Spec.joined Scenario.euroInTwoChunks) = false)
    by reflexivity.
  split; [exact H|]. split; [exact Hp|]. split; [reflexivity|].
  exact (proj1 (streamed_content_is_decoding _ _ _ _ _ _ _ H Hp)).
Defined.

(** A stream that ends inside the euro sign: the placeholder stays empty,
    while the decoding of the bytes received is U+FFFD. *)
Lemma cut_stream_is_not_decoding :
  Spec.pending (Spec.joined Scenario.cutEuro) = true
  /\ Utf8.decode (Spec.joined Scenario.cutEuro) = [0xFFFD%N]
  /\ Spec.endsWith (lit "c1") (Spec.placeholder (lit "a1") [])
       (chats (sendMessage (lit "u1") (lit "a1") 1
                 (Streamed Scenario.cutEuro) Scenario.drafted))
  /\ ~ Spec.endsWith (lit "c1")
         (Spec.placeholder (lit "a1")
            (Utf8.decode (Spec.joined Scenario.cutEuro)))
         (chats (sendMessage (lit "u1") (lit "a1") 1
                   (Streamed Scenario.cutEuro) Scenario.drafted)).
Proof.
  split; [reflexivity|]. split; [reflexivity|].
  assert (Hfinal :
    chats (sendMessage (lit "u1") (lit "a1") 1
             (Streamed Scenario.cutEuro) Scenario.drafted)
    = [ChatSession.mk (lit "c1") (lit "hi") 0 2
         ([ChatMessage.mk (lit "u1") user (lit "hi") None]
          ++ [Spec.placeholder (lit "a1") []])])
    by (vm_compute; reflexivity).
  rewrite Hfinal. split.
  - split.
    + eexists. split; [left; reflexivity | reflexivity].
    + intros chat [<-|[]] _. eexists. reflexivity.
  - intros [_ H].
    destruct (H _ (or_introl eq_refl) eq_refl) as [front Hfront].
    cbn [ChatSession.messages] in Hfront.
    apply app_inj_tail in Hfront. destruct Hfront as [_ Hlast].
    vm_compute in Hlast. discriminate.
Qed.

End ReducerFacts.

(** ** Candidates and the cache *)

Module CandidateFacts.

Import JS JSFacts Gateway GatewayFacts.

Lemma In_allAvailableModels (ids : list jsstring) (x : jsstring) :
  In x (allAvailableModels ids) <->
  In x ids
  /\ (In x PREFERRED_MODEL_ORDER \/ includes x (lit "embedding") = false).
Proof.
  rewrite allAvailableModels_spec. unfold Spec.preferredThenListed.
  rewrite in_app_iff, !filter_In, andb_true_iff, !negb_true_iff.
  rewrite arrayIncludes_In.
  destruct (arrayIncludes PREFERRED_MODEL_ORDER x) eqn:E.
  - apply arrayIncludes_In in E. split; [|tauto].
    intros [[_ H]|[_ [H _]]]; [tauto | discriminate].
  - assert (~ In x PREFERRED_MODEL_ORDER)
      by (rewrite <- arrayIncludes_In; congruence).
    tauto.
Qed.

Lemma NoDup_PREFERRED : NoDup PREFERRED_MODEL_ORDER.
Proof.
  unfold PREFERRED_MODEL_ORDER.
  repeat constructor; simpl; intuition discriminate.
Qed.

(** The candidates, split: preferred names first, then the others. *)
Lemma allAvailableModels_split (ids : list jsstring) :
  Forall (fun x => In x PREFERRED_MODEL_ORDER) (ordered ids)
  /\ Forall (fun x => ~ In x PREFERRED_MODEL_ORDER
                      /\ includes x (lit "embedding") = false)
       (remaining ids).
Proof.
  split; apply Forall_forall; intros x Hx.
  - apply ordered_In in Hx. tauto.
  - unfold remaining in Hx. apply filter_In in Hx.
    destruct Hx as [Hin Hb]. apply andb_true_iff in Hb.
    destruct Hb as [Hb1 Hb2]. apply negb_true_iff in Hb1, Hb2.
    split; [|exact Hb2].
    rewrite ordered_includes_listed in Hb1 by exact Hin.
    rewrite <- arrayIncludes_In. congruence.
Qed.

(** Which models become candidates: the listed names that are preferred
    or carry no "embedding" in their name, and only those; the preferred
    ones come first, the others after them. *)
Theorem candidates_are_listed_and_usable (ids : list jsstring) :
  (forall x,
     In x (allAvailableModels ids) <->
     In x ids
     /\ (In x PREFERRED_MODEL_ORDER \/ includes x (lit "embedding") = false))
  /\ exists preferred others,
       allAvailableModels ids = preferred ++ others
       /\ Forall (fun x => In x PREFERRED_MODEL_ORDER) preferred
       /\ Forall (fun x => ~ In x PREFERRED_MODEL_ORDER) others
       /\ (List.length preferred <= 3)%nat.
Proof.
  split; [apply In_allAvailableModels|].
  exists (ordered ids), (remaining ids).
  destruct (allAvailableModels_split ids) as [H1 H2].
  split; [reflexivity|]. split; [exact H1|]. split.
  - eapply Forall_impl; [|exact H2]. simpl. tauto.
  - unfold ordered.
    apply (Nat.le_trans _ _ _ (filter_length_le _ PREFERRED_MODEL_ORDER)).
    apply Nat.le_refl.
Qed.

(** A listing without repeated names gives candidates without repeated
    names: no model is attempted twice for one request. *)
Theorem candidates_without_repeats (ids : list jsstring) :
  NoDup ids -> NoDup (allAvailableModels ids).
Proof.
  intros Hids. unfold allAvailableModels.
  apply NoDup_app.
  - apply NoDup_filter. apply NoDup_PREFERRED.
  - apply NoDup_filter. exact Hids.
  - intros x Hx Hr.
    pose proof (proj2 (allAvailableModels_split ids)) as H.
    rewrite Forall_forall in H. destruct (H x Hr) as [Hn _].
    apply ordered_In in Hx. tauto.
Qed.

Lemma candidates_without_repeats_witness :
  NoDup (modelIds Scenario.longListing)
  /\ NoDup (allAvailableModels (modelIds Scenario.longListing)).
Proof.
  assert (H : NoDup (modelIds Scenario.longListing)).
  { vm_compute. repeat constructor; simpl; intuition discriminate. }
  split; [exact H|].
  exact (candidates_without_repeats _ H).
Defined.

End CandidateFacts.

(** ** Sequences of resolutions and whole requests *)

Module RequestFacts.

Import JS JSFacts Gateway GatewayFacts.

(** One call either leaves the module variables as they are or replaces
    them by the result of its own successful listing. *)
Lemma getAvailableModels_cache_step c now listing :
  snd (fst (getAvailableModels c now listing)) = c
  \/ exists payload,
       listing = Listed payload
       /\ snd (fst (getAvailableModels c now listing))
          = mkCache (allAvailableModels (modelIds payload)) now.
Proof.
  unfold getAvailableModels. destruct (cacheFresh c now); [left; reflexivity|].
  destruct listing; try (left; reflexivity).
  right. exists payload. split; reflexivity.
Qed.

Lemma resolveAll_provenance calls :
  forall c,
    Relay.resolveAll calls c = c
    \/ exists now payload,
         In (now, Listed payload) calls
         /\ Relay.resolveAll calls c
            = mkCache (allAvailableModels (modelIds payload)) now.
Proof.
  induction calls as [|[now listing] rest IH]; intros c.
  - left. reflexivity.
  - cbn [Relay.resolveAll].
    destruct (IH (snd (fst (getAvailableModels c now listing))))
      as [Hsame|[now' [payload [Hin Heq]]]].
    + rewrite Hsame.
      destruct (getAvailableModels_cache_step c now listing)
        as [H|[payload [-> H]]].
      * left. exact H.
      * right. exists now, payload. split; [left; reflexivity | exact H].
    + right. exists now', payload. split; [right; exact Hin | exact Heq].
Qed.

Lemma resolveAll_app (before after : list (Z * ListingOutcome)) :
  forall c,
    Relay.resolveAll (before ++ after) c
    = Relay.resolveAll after (Relay.resolveAll before c).
Proof.
  induction before as [|[now listing] rest IH]; intros c; [reflexivity|].
  cbn [app Relay.resolveAll]. apply IH.
Qed.

(** Whatever resolutions a process has run, with failing or successful
    listings, the cache holds nothing or exactly the ordered result of one
    successful listing among them, stamped with that call's clock reading.
    One more call after them leaves the cache exactly as it was when its
    listing fails (rejected fetch, status outside 2xx, unreadable body) or
    when the cache is fresh; on a miss with a successful listing it
    replaces the cache by that listing's result and the call's clock
    reading, and keeps nothing of the former content. *)
Theorem cache_holds_one_listing (calls : list (Z * ListingOutcome)) :
  let c := Relay.resolveAll calls initial_cache in
  (c = initial_cache
   \/ exists now payload,
        In (now, Listed payload) calls
        /\ c = mkCache (allAvailableModels (modelIds payload)) now)
  /\ (forall now listing,
        (forall payload, listing <> Listed payload) ->
        Relay.resolveAll (calls ++ [(now, listing)]) initial_cache = c)
  /\ (forall now listing,
        cacheFresh c now = true ->
        Relay.resolveAll (calls ++ [(now, listing)]) initial_cache = c)
  /\ (forall now payload,
        cacheFresh c now = false ->
        Relay.resolveAll (calls ++ [(now, Listed payload)]) initial_cache
        = mkCache (allAvailableModels (modelIds payload)) now).
Proof.
  cbv zeta. split; [apply resolveAll_provenance|].
  split; [|split].
  - intros now listing Hfailed. rewrite resolveAll_app.
    cbn [Relay.resolveAll]. unfold getAvailableModels.
    destruct (cacheFresh _ now); [reflexivity|].
    destruct listing as [| | |payload]; try reflexivity.
    exfalso. exact (Hfailed payload eq_refl).
  - intros now listing Hfresh. rewrite resolveAll_app.
    cbn [Relay.resolveAll]. unfold getAvailableModels.
    rewrite Hfresh. reflexivity.
  - intros now payload Hmiss. rewrite resolveAll_app.
    cbn [Relay.resolveAll]. unfold getAvailableModels.
    rewrite Hmiss. reflexivity.
Qed.

Section Requests.

Variable UpstreamStream : Type.
Variable generateContentStream :
  nat -> jsstring -> list Content -> option UpstreamStream.

Local Abbreviation attempts := (tryCandidates generateContentStream).
Local Abbreviation post := (POST generateContentStream).

(** The loop answers 200 with a stream or 503 with an error. *)
Lemma tryCandidates_answer messages candidates :
  forall k,
    fst (attempts k messages candidates)
    = mkResponse 503 (JsonError ERROR_UNAVAILABLE)
    \/ exists stream,
         fst (attempts k messages candidates)
         = mkResponse 200 (TextStream stream).
Proof.
  induction candidates as [|p rest IH]; intros k; simpl.
  - left. reflexivity.
  - unfold createStreamResponse.
    destruct (generateContentStream k p _) as [stream|].
    + right. exists stream. reflexivity.
    + destruct (IH (S k)) as [H|[stream H]];
        destruct (attempts (S k) messages rest) as [response calls];
        simpl in *; [left | right; exists stream]; exact H.
Qed.

(** The first candidate that opens ends the request: its stream is
    answered with status 200 and the candidates after it are not
    attempted. *)
Theorem POST_first_open_wins key m ms c now listing pre modelName later
    c' calls stream :
  key <> [] ->
  getAvailableModels c now listing
  = (inr (pre ++ modelName :: later), c', calls) ->
  (forall i, (i < List.length pre)%nat ->
     generateContentStream i (nth i pre [])
       (buildGeminiContents (m :: ms)) = None) ->
  generateContentStream (List.length pre) modelName
    (buildGeminiContents (m :: ms)) = Some stream ->
  post (Some key) (Body (Messages (m :: ms))) c now listing
  = (mkResponse 200 (TextStream stream), c',
     calls ++ List.map OpenStream (pre ++ [modelName])).
Proof.
  intros Hkey Hres Hfail Hopen.
  assert (Hne : pre ++ modelName :: later <> [])
    by (destruct pre; discriminate).
  rewrite (POST_resolved UpstreamStream generateContentStream key m ms c now
             listing _ c' calls Hkey Hne Hres).
  rewrite (tryCandidates_first_open UpstreamStream generateContentStream
             (m :: ms) _ pre eq_refl 0%nat modelName later stream Hfail Hopen).
  reflexivity.
Qed.

(** What a request can do, whatever it carries: the status is 200, 400,
    500 or 503, and it is 200 exactly when the body is a stream; the
    upstream calls are at most one listing followed by attempts on models
    that the cache holds afterwards, in the cache's order; a request
    without credential or without transcript makes no upstream call; the
    cache changes only in a request that called the listing. *)
Theorem POST_discipline apiKey request c now listing :
  let response := fst (fst (post apiKey request c now listing)) in
  let c' := snd (fst (post apiKey request c now listing)) in
  let calls := snd (post apiKey request c now listing) in
  (status response = 200 \/ status response = 400
   \/ status response = 500 \/ status response = 503)%Z
  /\ (status response = 200%Z <-> exists stream, body response = TextStream stream)
  /\ (exists listings attempted rest,
        calls = listings ++ List.map OpenStream attempted
        /\ (listings = [] \/ listings = [ListModels])
        /\ (attempted = [] \/ cachedModels c' = attempted ++ rest))
  /\ (calls <> [] ->
      (exists key, apiKey = Some key /\ key <> [])
      /\ exists m ms, request = Body (Messages (m :: ms)))
  /\ (c' <> c -> In ListModels calls).
Proof.
  cbv zeta.
  assert (Hjson : forall (st : Z) e (c0 : Cache),
            (st = 400 \/ st = 500)%Z ->
            let r := (mkResponse st (@JsonError UpstreamStream e), c0,
                      @nil UpstreamCall) in
            (status (fst (fst r)) = 200 \/ status (fst (fst r)) = 400
             \/ status (fst (fst r)) = 500 \/ status (fst (fst r)) = 503)%Z
            /\ (status (fst (fst r)) = 200%Z <->
                exists stream, body (fst (fst r)) = TextStream stream)
            /\ (exists listings attempted rest,
                  snd r = listings ++ List.map OpenStream attempted
                  /\ (listings = [] \/ listings = [ListModels])
                  /\ (attempted = [] \/
                      cachedModels (snd (fst r)) = attempted ++ rest))).
  { intros st e c0 Hst. cbv zeta. simpl. split; [tauto|]. split.
    - split; [intros ->; destruct Hst; discriminate|].
      intros [stream H]. discriminate.
    - exists [], [], []. simpl. auto. }
  unfold POST.
  destruct apiKey as [[|k ks]|].
  - destruct (Hjson 500%Z ERROR_KEY c (or_intror eq_refl)) as [H1 [H2 H3]].
    split; [exact H1|]. split; [exact H2|]. split; [exact H3|].
    simpl. split; [congruence | congruence].
  - destruct request as [| |[| |[|m ms]]];
      try (destruct (Hjson 400%Z ERROR_BODY c (or_introl eq_refl))
             as [H1 [H2 H3]];
           split; [exact H1|]; split; [exact H2|]; split; [exact H3|];
           simpl; split; congruence);
      try (destruct (Hjson 400%Z ERROR_MESSAGES c (or_introl eq_refl))
             as [H1 [H2 H3]];
           split; [exact H1|]; split; [exact H2|]; split; [exact H3|];
           simpl; split; congruence).
    assert (Hkey : (exists key, Some (k :: ks) = Some key /\ key <> [])
                   /\ exists m0 ms0,
                        Body (Messages (m :: ms)) = Body (Messages (m0 :: ms0))).
    { split; [exists (k :: ks); split; [reflexivity | discriminate]|].
      exists m, ms. reflexivity. }
    destruct (getAvailableModels c now listing) as [[result c1] calls1] eqn:E.
    assert (Hstep : c1 <> c -> In ListModels calls1).
    { intros Hc. unfold getAvailableModels in E.
      destruct (cacheFresh c now); [inversion E; congruence|].
      destruct listing; inversion E; subst; left; reflexivity. }
    assert (Hlist : calls1 = [] \/ calls1 = [ListModels]).
    { unfold getAvailableModels in E.
      destruct (cacheFresh c now); [inversion E; auto|].
      destruct listing; inversion E; auto. }
    destruct result as [thrown|[|p rest]].
    + simpl. split; [tauto|]. split.
      * split; [discriminate | intros [s H]; discriminate].
      * split; [exists calls1, [], []; rewrite app_nil_r; auto|].
        split; [intros _; exact Hkey | exact Hstep].
    + simpl. split; [tauto|]. split.
      * split; [discriminate | intros [s H]; discriminate].
      * split; [exists calls1, [], []; rewrite app_nil_r; auto|].
        split; [intros _; exact Hkey | exact Hstep].
    + pose proof (getAvailableModels_returns_cache _ _ _ _ _ _ E) as Hcache.
      destruct (tryCandidates_answer (m :: ms) (p :: rest) 0) as [Ha|[s Ha]];
        destruct (tryCandidates_in_order UpstreamStream generateContentStream
                    (m :: ms) (p :: rest) 0) as [j [Hj Hc]];
        destruct (attempts 0%nat (m :: ms) (p :: rest)) as [response opens];
        simpl in Ha, Hc; subst response opens; simpl.
      * split; [tauto|]. split.
        -- split; [discriminate | intros [s H]; discriminate].
        -- split.
           ++ exists calls1, (firstn j (p :: rest)), (skipn j (p :: rest)).
              split; [reflexivity|]. split; [exact Hlist|]. right.
              rewrite Hcache, firstn_skipn. reflexivity.
           ++ split; [intros _; exact Hkey|].
              intros Hc1. apply in_or_app. left. exact (Hstep Hc1).
      * split; [tauto|]. split.
        -- split; [intros _; exists s; reflexivity | reflexivity].
        -- split.
           ++ exists calls1, (firstn j (p :: rest)), (skipn j (p :: rest)).
              split; [reflexivity|]. split; [exact Hlist|]. right.
              rewrite Hcache, firstn_skipn. reflexivity.
           ++ split; [intros _; exact Hkey|].
              intros Hc1. apply in_or_app. left. exact (Hstep Hc1).
  - destruct (Hjson 500%Z ERROR_KEY c (or_intror eq_refl)) as [H1 [H2 H3]].
    split; [exact H1|]. split; [exact H2|]. split; [exact H3|].
    simpl. split; [congruence | congruence].
Qed.

(** A listing that succeeds without any usable model: the request is
    answered 500 after the one listing call, no stream is attempted, and
    the empty result is stored with the clock reading but never served:
    every later resolution lists again, however soon it comes. *)
Theorem POST_no_usable_model key m ms c now payload :
  key <> [] ->
  cacheFresh c now = false ->
  (forall id, In id (modelIds payload) ->
     ~ In id PREFERRED_MODEL_ORDER
     /\ includes id (lit "embedding") = true) ->
  post (Some key) (Body (Messages (m :: ms))) c now (Listed payload)
  = (mkResponse 500 (JsonError Relay.ERROR_NO_MODELS), mkCache [] now,
     [ListModels])
  /\ forall later listing,
       snd (getAvailableModels (mkCache [] now) later listing) = [ListModels].
Proof.
  intros Hkey Hmiss Hnone.
  assert (Hempty : allAvailableModels (modelIds payload) = []).
  { destruct (allAvailableModels (modelIds payload)) as [|x l] eqn:E;
      [reflexivity|].
    assert (Hx : In x (allAvailableModels (modelIds payload)))
      by (rewrite E; left; reflexivity).
    apply CandidateFacts.In_allAvailableModels in Hx.
    destruct Hx as [Hin [Hp|He]]; destruct (Hnone x Hin) as [Hn Hemb];
      [contradiction | congruence]. }
  split.
  - unfold POST, getAvailableModels.
    destruct key as [|k ks]; [congruence|].
    rewrite Hmiss, Hempty. reflexivity.
  - intros later listing. unfold getAvailableModels, cacheFresh. simpl.
    destruct listing; reflexivity.
Qed.

End Requests.

Lemma POST_first_open_wins_witness :
  Scenario.key <> []
  /\ getAvailableModels initial_cache 5 (Listed Scenario.longListing)
     = (inr ([lit "gemini-1.5-pro-latest"]
             ++ lit "gemini-pro"
                :: [lit "gemini-2.0-flash"; lit "gemma-3"]),
        mkCache (List.map lit ["gemini-1.5-pro-latest"; "gemini-pro";
                               "gemini-2.0-flash"; "gemma-3"]%string) 5,
        [ListModels])
  /\ POST Scenario.secondOpens (Some Scenario.key)
       (Body (Messages Scenario.transcript)) initial_cache 5
       (Listed Scenario.longListing)
     = (mkResponse 200 (TextStream Scenario.stream),
        mkCache (List.map lit ["gemini-1.5-pro-latest"; "gemini-pro";
                               "gemini-2.0-flash"; "gemma-3"]%string) 5,
        [ListModels] ++ List.map OpenStream
                          ([lit "gemini-1.5-pro-latest"] ++ [lit "gemini-pro"])).
Proof.
  assert (H1 : Scenario.key <> []) by discriminate.
  assert (H2 : getAvailableModels initial_cache 5 (Listed Scenario.longListing)
               = (inr ([lit "gemini-1.5-pro-latest"]
                       ++ lit "gemini-pro"
                          :: [lit "gemini-2.0-flash"; lit "gemma-3"]),
                  mkCache (List.map lit ["gemini-1.5-pro-latest"; "gemini-pro";
                                         "gemini-2.0-flash"; "gemma-3"]%string) 5,
                  [ListModels])) by (vm_compute; reflexivity).
  split; [exact H1|]. split; [exact H2|].
  apply (POST_first_open_wins (list jsstring) Scenario.secondOpens
           Scenario.key _ [] initial_cache 5 _ _ _ _ _ _ _ H1 H2).
  - intros [|i] Hi; [reflexivity | simpl in Hi; lia].
  - reflexivity.
Defined.

Lemma POST_no_usable_model_witness :
  Scenario.key <> []
  /\ cacheFresh initial_cache 5 = false
  /\ POST Scenario.secondOpens (Some Scenario.key)
       (Body (Messages Scenario.transcript)) initial_cache 5
       (Listed MoreScenarios.embeddingsOnly)
     = (mkResponse 500 (JsonError Relay.ERROR_NO_MODELS), mkCache [] 5,
        [ListModels]).
Proof.
  assert (H1 : Scenario.key <> []) by discriminate.
  assert (H2 : cacheFresh initial_cache 5 = false) by reflexivity.
  split; [exact H1|]. split; [exact H2|].
  apply (POST_no_usable_model (list jsstring) Scenario.secondOpens
           Scenario.key _ [] initial_cache 5 MoreScenarios.embeddingsOnly H1 H2).
  intros id Hin. vm_compute in Hin.
  destruct Hin as [<-|[<-|[]]]; split;
    try (vm_compute; reflexivity);
    vm_compute; intuition discriminate.
Defined.

End RequestFacts.

(** ** Encoding at the gateway, decoding at the client *)

Module EncoderFacts.

Import JS JSFacts TextEncoder.
Local Open Scope N_scope.

(** Induction on strings that may step over one or two code units. *)
Lemma string_ind2 (P : jsstring -> Prop) :
  P [] ->
  (forall c, P [c]) ->
  (forall c d rest, P rest -> P (d :: rest) -> P (c :: d :: rest)) ->
  forall s, P s.
Proof.
  intros Hnil Hone Hstep.
  assert (H : forall s, P s /\ forall c, P (c :: s)).
  { induction s as [|d rest [IH1 IH2]].
    - split; [exact Hnil | exact Hone].
    - split; [apply IH2|]. intros c. apply Hstep; [exact IH1 | apply IH2]. }
  intros s. apply H.
Qed.

Lemma surrogates_disjoint c :
  isHighSurrogate c = true -> isLowSurrogate c = false.
Proof.
  unfold isHighSurrogate, isLowSurrogate.
  destruct (N.leb_spec 0xD800 c); destruct (N.leb_spec c 0xDBFF);
    destruct (N.leb_spec 0xDC00 c); destruct (N.leb_spec c 0xDFFF);
    simpl; intros; try discriminate; try reflexivity; lia.
Qed.

Lemma pair_scalar c d :
  isHighSurrogate c = true -> isLowSurrogate d = true ->
  Utf8.is_scalar (0x10000 + (c - 0xD800) * 0x400 + (d - 0xDC00)) = true
  /\ Utf8.utf16 (0x10000 + (c - 0xD800) * 0x400 + (d - 0xDC00)) = [c; d]
  /\ 0x10000 + (c - 0xD800) * 0x400 + (d - 0xDC00) <> Utf8.BOM.
Proof.
  unfold isHighSurrogate, isLowSurrogate. intros Hc Hd.
  apply andb_true_iff in Hc, Hd.
  destruct Hc as [Hc1 Hc2], Hd as [Hd1 Hd2].
  apply N.leb_le in Hc1, Hc2, Hd1, Hd2.
  split; [|split].
  - apply Utf8Facts.is_scalar_iff. lia.
  - unfold Utf8.utf16.
    destruct (N.ltb_spec (0x10000 + (c - 0xD800) * 0x400 + (d - 0xDC00))
                0x10000); [lia|].
    f_equal; [lia|]. f_equal. lia.
  - unfold Utf8.BOM. lia.
Qed.

Lemma unit_scalar c :
  isHighSurrogate c = false -> isLowSurrogate c = false -> (c <? 0x10000) = true ->
  Utf8.is_scalar c = true /\ Utf8.utf16 c = [c].
Proof.
  unfold isHighSurrogate, isLowSurrogate, Utf8.utf16. intros Hh Hl Hc.
  rewrite Hc. split; [|reflexivity].
  apply N.ltb_lt in Hc. apply Utf8Facts.is_scalar_iff.
  destruct (N.leb_spec 0xD800 c); destruct (N.leb_spec c 0xDBFF);
    destruct (N.leb_spec 0xDC00 c); destruct (N.leb_spec c 0xDFFF);
    simpl in *; try discriminate; lia.
Qed.

(** The cases of a well-formed string. *)
Lemma wellFormed_cons c rest :
  wellFormed (c :: rest) = true ->
  (isHighSurrogate c = true
   /\ exists d rest', rest = d :: rest' /\ isLowSurrogate d = true
                      /\ wellFormed rest' = true
                      /\ codePoints (c :: rest)
                         = (0x10000 + (c - 0xD800) * 0x400 + (d - 0xDC00))
                           :: codePoints rest')
  \/ (isHighSurrogate c = false /\ isLowSurrogate c = false
      /\ (c <? 0x10000) = true /\ wellFormed rest = true
      /\ codePoints (c :: rest) = c :: codePoints rest).
Proof.
  cbn [wellFormed codePoints].
  destruct (isHighSurrogate c) eqn:Eh.
  - destruct rest as [|d rest']; [discriminate|].
    intros H. apply andb_true_iff in H. destruct H as [Hd Hr].
    left. split; [reflexivity|]. exists d, rest'. rewrite Hd. auto.
  - intros H. apply andb_true_iff in H. destruct H as [H Hr].
    apply andb_true_iff in H. destruct H as [Hl Hc].
    apply negb_true_iff in Hl. right. rewrite Hl. auto.
Qed.

Lemma codePoints_scalar (s : jsstring) :
  wellFormed s = true ->
  Forall (fun cp => Utf8.is_scalar cp = true) (codePoints s).
Proof.
  induction s as [| c | c d rest IH1 IH2] using string_ind2; intros Hw.
  - constructor.
  - destruct (wellFormed_cons _ _ Hw) as [[_ [d [r [H _]]]]|[Hh [Hl [Hc [_ ->]]]]];
      [discriminate|].
    constructor; [apply (unit_scalar c Hh Hl Hc) | constructor].
  - destruct (wellFormed_cons _ _ Hw)
      as [[Hh [d' [r [H [Hd [Hr ->]]]]]]|[Hh [Hl [Hc [Hr ->]]]]].
    + inversion H; subst d' r.
      constructor; [apply (pair_scalar c d Hh Hd) | apply IH1; exact Hr].
    + constructor; [apply (unit_scalar c Hh Hl Hc) | apply IH2; exact Hr].
Qed.

(** The scalar values of a well-formed string, written as UTF-16, are the
    string. *)
Lemma utf16_codePoints (s : jsstring) :
  wellFormed s = true -> flat_map Utf8.utf16 (codePoints s) = s.
Proof.
  induction s as [| c | c d rest IH1 IH2] using string_ind2; intros Hw.
  - reflexivity.
  - destruct (wellFormed_cons _ _ Hw) as [[_ [d [r [H _]]]]|[Hh [Hl [Hc [_ ->]]]]];
      [discriminate|].
    cbn [flat_map codePoints]. rewrite (proj2 (unit_scalar c Hh Hl Hc)).
    reflexivity.
  - destruct (wellFormed_cons _ _ Hw)
      as [[Hh [d' [r [H [Hd [Hr ->]]]]]]|[Hh [Hl [Hc [Hr ->]]]]].
    + inversion H; subst d' r. cbn [flat_map].
      rewrite (proj1 (proj2 (pair_scalar c d Hh Hd))), (IH1 Hr). reflexivity.
    + cbn [flat_map].
      rewrite (proj2 (unit_scalar c Hh Hl Hc)), (IH2 Hr). reflexivity.
Qed.

Lemma codePoints_app (a b : jsstring) :
  wellFormed a = true -> codePoints (a ++ b) = codePoints a ++ codePoints b.
Proof.
  induction a as [| c | c d rest IH1 IH2] using string_ind2; intros Hw.
  - reflexivity.
  - destruct (wellFormed_cons _ _ Hw) as [[_ [d [r [H _]]]]|[Hh [Hl [Hc [_ E]]]]];
      [discriminate|].
    rewrite E. cbn [app codePoints]. rewrite Hh, Hl. reflexivity.
  - destruct (wellFormed_cons _ _ Hw)
      as [[Hh [d' [r [H [Hd [Hr E]]]]]]|[Hh [Hl [Hc [Hr E]]]]].
    + inversion H; subst d' r. rewrite E.
      change ((c :: d :: rest) ++ b) with (c :: d :: (rest ++ b)).
      cbn [codePoints]. rewrite Hh, Hd, (IH1 Hr). reflexivity.
    + rewrite E.
      change ((c :: d :: rest) ++ b) with (c :: ((d :: rest) ++ b)).
      cbn [codePoints]. rewrite Hh, Hl.
      change (codePoints (d :: rest ++ b))
        with (codePoints ((d :: rest) ++ b)).
      rewrite (IH2 Hr). reflexivity.
Qed.

Lemma wellFormed_app (a b : jsstring) :
  wellFormed a = true -> wellFormed b = true -> wellFormed (a ++ b) = true.
Proof.
  induction a as [| c | c d rest IH1 IH2] using string_ind2; intros Ha Hb.
  - exact Hb.
  - destruct (wellFormed_cons _ _ Ha) as [[_ [d [r [H _]]]]|[Hh [Hl [Hc _]]]];
      [discriminate|].
    cbn [app wellFormed]. rewrite Hh, Hl, Hc, Hb. reflexivity.
  - destruct (wellFormed_cons _ _ Ha)
      as [[Hh [d' [r [H [Hd [Hr _]]]]]]|[Hh [Hl [Hc [Hr _]]]]].
    + inversion H; subst d' r.
      change ((c :: d :: rest) ++ b) with (c :: d :: (rest ++ b)).
      cbn [wellFormed]. rewrite Hh, Hd, (IH1 Hr Hb). reflexivity.
    + change ((c :: d :: rest) ++ b) with (c :: ((d :: rest) ++ b)).
      cbn [wellFormed]. rewrite Hh, Hl, Hc.
      change (wellFormed (d :: rest ++ b))
        with (wellFormed ((d :: rest) ++ b)).
      rewrite (IH2 Hr Hb). reflexivity.
Qed.

Lemma wellFormed_concat (texts : list jsstring) :
  Forall (fun t => wellFormed t = true) texts ->
  wellFormed (List.concat texts) = true.
Proof.
  induction 1 as [|t rest Ht _ IH]; [reflexivity|].
  simpl. apply wellFormed_app; assumption.
Qed.

Lemma serialize_seen (cps : list N) :
  Utf8.serialize true cps = (true, flat_map Utf8.utf16 cps).
Proof.
  induction cps as [|cp rest IH]; [reflexivity|].
  cbn [Utf8.serialize negb andb flat_map]. rewrite IH. reflexivity.
Qed.

(** What the decoder's serializer makes of a well-formed string. *)
Lemma serialize_codePoints (s : jsstring) :
  wellFormed s = true ->
  snd (Utf8.serialize false (codePoints s)) = withoutBOM s.
Proof.
  intros Hw. destruct s as [|c rest]; [reflexivity|].
  destruct (wellFormed_cons _ _ Hw)
    as [[Hh [d [r [-> [Hd [Hr E]]]]]]|[Hh [Hl [Hc [Hr E]]]]].
  - rewrite E. cbn [Utf8.serialize negb andb].
    destruct (pair_scalar c d Hh Hd) as [_ [H16 Hbom]].
    apply N.eqb_neq in Hbom. rewrite Hbom, serialize_seen. cbn [snd].
    rewrite H16, (utf16_codePoints r Hr).
    unfold withoutBOM.
    assert (Hcb : (c =? Utf8.BOM) = false).
    { apply N.eqb_neq. intros ->. vm_compute in Hh. discriminate. }
    rewrite Hcb. reflexivity.
  - rewrite E. cbn [Utf8.serialize negb andb]. unfold withoutBOM.
    destruct (c =? Utf8.BOM) eqn:Eb.
    + rewrite serialize_seen. cbn [snd]. apply utf16_codePoints. exact Hr.
    + rewrite serialize_seen. cbn [snd].
      rewrite (proj2 (unit_scalar c Hh Hl Hc)), (utf16_codePoints rest Hr).
      reflexivity.
Qed.

Lemma encode_app (a b : list N) :
  Utf8.encode (a ++ b) = Utf8.encode a ++ Utf8.encode b.
Proof. unfold Utf8.encode. apply flat_map_app. Qed.

(** The bytes enqueued for well-formed texts, joined, are the encoding of
    the joined texts. *)
Lemma enqueued_joined (texts : list jsstring) :
  Forall (fun t => wellFormed t = true) texts ->
  List.concat (Relay.enqueued texts)
  = Utf8.encode (codePoints (List.concat texts)).
Proof.
  unfold Relay.enqueued.
  induction 1 as [|t rest Ht _ IH]; [reflexivity|].
  cbn [filter List.concat].
  rewrite (codePoints_app t (List.concat rest) Ht), encode_app, <- IH.
  destruct t as [|c t']; [reflexivity|].
  cbn [truthy List.map List.concat]. reflexivity.
Qed.

End EncoderFacts.

(** ** Transcripts *)

Module TranscriptFacts.

Import JS JSFacts Gateway GatewayFacts.

Lemma buildGeminiContents_app (a b : list RequestMessage.t) :
  buildGeminiContents (a ++ b)
  = buildGeminiContents a ++ buildGeminiContents b.
Proof.
  unfold buildGeminiContents. rewrite filter_app, map_app. reflexivity.
Qed.

Lemma toContent_wellFormed (message : RequestMessage.t) :
  keptMessage message = true ->
  (role (toContent message) = lit "model"
   \/ role (toContent message) = lit "user")
  /\ Relay.wellFormedParts (parts (toContent message)).
Proof.
  unfold keptMessage, toContent. simpl. intros Hkept. split.
  - destruct (eqb (RequestMessage.role message) (lit "assistant")); auto.
  - destruct (trim (RequestMessage.content message)) as [|x t] eqn:E;
      destruct (RequestMessage.image message) as [img|]; simpl in *;
      try discriminate; try exact I; rewrite E; discriminate.
Qed.

(** Every turn sent upstream is tagged "model" or "user" and carries a
    text that is not blank, an image, or such a text followed by an image:
    no turn is empty and no text part is white space only.  There are no
    more turns than messages. *)
Theorem buildGeminiContents_turns (messages : list RequestMessage.t) :
  Forall (fun turn =>
            (role turn = lit "model" \/ role turn = lit "user")
            /\ Relay.wellFormedParts (parts turn))
         (buildGeminiContents messages)
  /\ (List.length (buildGeminiContents messages) <= List.length messages)%nat.
Proof.
  split.
  - unfold buildGeminiContents. apply Forall_forall. intros turn Hin.
    apply in_map_iff in Hin. destruct Hin as [message [<- Hin]].
    apply filter_In in Hin. apply toContent_wellFormed. tauto.
  - unfold buildGeminiContents. rewrite length_map. apply filter_length_le.
Qed.

End TranscriptFacts.

(** ** The chat component as a whole *)

Module ChatAppFacts.

Import JS JSFacts Reducer ReducerFacts ChatApp Frames.

(** *** The guard of [sendMessage] *)

Lemma activeChat_None (st : State) : activeChat st = None <-> chats st = [].
Proof.
  unfold activeChat. split.
  - destruct (find _ (chats st)); [discriminate|].
    destruct (chats st); [reflexivity | discriminate].
  - intros ->. reflexivity.
Qed.

Lemma submit_None userId assistantId now st :
  submit userId assistantId now st = None <->
  isStreaming st = true \/ blankDraft st \/ chats st = [].
Proof.
  unfold submit, blankDraft. rewrite <- activeChat_None.
  destruct (activeChat st) as [active|]; [|tauto].
  destruct (isStreaming st); [rewrite orb_true_r; tauto|].
  rewrite orb_false_r.
  destruct (trim (input st)) as [|x t]; destruct (inputImage st); simpl;
    split; intros H; try discriminate; try tauto;
    destruct H as [H|[[H1 H2]|H]]; discriminate.
Qed.

(** *** What every update keeps *)

Lemma upsertChat_sameUnless chatId updater current :
  (forall chat, ChatSession.id (updater chat) = ChatSession.id chat
                /\ ChatSession.createdAt (updater chat)
                   = ChatSession.createdAt chat) ->
  Forall2 (sameUnless chatId) current (upsertChat chatId updater current).
Proof.
  intros Hkeep. unfold upsertChat.
  induction current as [|chat rest IH]; simpl; constructor; [|exact IH].
  unfold sameUnless.
  destruct (eqb (ChatSession.id chat) chatId) eqn:E.
  - apply eqb_eq in E. destruct (Hkeep chat) as [H1 H2].
    repeat split; auto. congruence.
  - repeat split; auto.
Qed.

Lemma sameUnless_refl chatId (l : list ChatSession.t) :
  Forall2 (sameUnless chatId) l l.
Proof.
  induction l; constructor; [|assumption]. unfold sameUnless. auto.
Qed.

Lemma sameUnless_trans chatId (a b : list ChatSession.t) :
  Forall2 (sameUnless chatId) a b ->
  forall c, Forall2 (sameUnless chatId) b c -> Forall2 (sameUnless chatId) a c.
Proof.
  induction 1 as [|x y a b [H1 [H2 H3]] _ IH]; intros c Hbc;
    inversion Hbc as [|y' z b' c' [G1 [G2 G3]] Hrest]; subst;
    constructor; [|apply IH; assumption].
  unfold sameUnless. repeat split; try congruence.
  intros Hx. rewrite G3, H3; congruence.
Qed.

Lemma sameUnless_ids chatId (a b : list ChatSession.t) :
  Forall2 (sameUnless chatId) a b -> idsOf b = idsOf a.
Proof.
  induction 1 as [|x y a b [H1 _] _ IH]; [reflexivity|].
  unfold idsOf in *. simpl. congruence.
Qed.

Lemma receive_sameUnless chunk now sub st :
  Forall2 (sameUnless (chatId sub)) (chats st)
    (chats (snd (receive chunk now sub st))).
Proof.
  rewrite receive_chats. apply upsertChat_sameUnless. intros chat. auto.
Qed.

Lemma readAll_sameUnless chunks :
  forall sub st,
    Forall2 (sameUnless (chatId sub)) (chats st)
      (chats (snd (readAll chunks sub st))).
Proof.
  induction chunks as [|[chunk now] rest IH]; intros sub st.
  - apply sameUnless_refl.
  - cbn [readAll].
    pose proof (receive_sameUnless chunk now sub st) as H1.
    destruct (receive_closure chunk now sub st) as [Hc _].
    destruct (receive chunk now sub st) as [sub1 st1]. simpl in H1, Hc.
    apply (sameUnless_trans _ _ _ H1). rewrite <- Hc. apply IH.
Qed.

Lemma fail_sameUnless fallback now sub st :
  Forall2 (sameUnless (chatId sub)) (chats st)
    (chats (fail fallback now sub st)).
Proof.
  unfold fail. simpl. apply upsertChat_sameUnless. intros chat. auto.
Qed.

(** The reading loop touches the sessions only. *)
Lemma readAll_fields chunks :
  forall sub st,
    activeChatId (snd (readAll chunks sub st)) = activeChatId st
    /\ input (snd (readAll chunks sub st)) = input st
    /\ inputImage (snd (readAll chunks sub st)) = inputImage st
    /\ isStreaming (snd (readAll chunks sub st)) = isStreaming st
    /\ errorMessage (snd (readAll chunks sub st)) = errorMessage st.
Proof.
  induction chunks as [|[chunk t] rest IH]; intros sub st; [auto|].
  cbn [readAll]. unfold receive at 1 2 3 4 5.
  destruct (Utf8.decode_stream (decoder sub) chunk) as [td text].
  destruct (IH (mkSubmission (chatId sub) (userMessage sub)
                  (assistantMessage sub) (nextMessages sub) td
                  (fullAssistantText sub ++ text))
               (setChats
                  (upsertChat (chatId sub)
                     (withContentOf (ChatMessage.id (assistantMessage sub))
                        (fullAssistantText sub ++ text) t)) st))
    as [H1 [H2 [H3 [H4 H5]]]].
  rewrite H1, H2, H3, H4, H5. auto.
Qed.

Lemma readAll_chatId chunks :
  forall sub st, chatId (fst (readAll chunks sub st)) = chatId sub.
Proof. intros sub st. apply readAll_closure. Qed.

Lemma complete_sameUnless o sub st :
  Forall2 (sameUnless (chatId sub)) (chats st) (chats (complete o sub st)).
Proof.
  unfold complete. rewrite setIsStreaming_chats.
  destruct o as [now|now|chunks|chunks now].
  - apply fail_sameUnless.
  - apply fail_sameUnless.
  - apply readAll_sameUnless.
  - pose proof (readAll_sameUnless chunks sub st) as H1.
    pose proof (readAll_chatId chunks sub st) as Hc.
    destruct (readAll chunks sub st) as [sub1 st1]. simpl in H1, Hc.
    apply (sameUnless_trans _ _ _ H1). rewrite <- Hc. apply fail_sameUnless.
Qed.

Lemma submit_sameUnless userId assistantId now st st1 sub :
  submit userId assistantId now st = Some (st1, sub) ->
  Forall2 (sameUnless (chatId sub)) (chats st) (chats st1).
Proof.
  intros Hsub.
  destruct (submit_inv _ _ _ _ _ _ Hsub) as [active [_ [_ [_ [Hs Hst]]]]].
  rewrite Hst. simpl.
  replace (chatId sub) with (ChatSession.id active) by (rewrite Hs; reflexivity).
  apply upsertChat_sameUnless. intros chat. auto.
Qed.

Lemma sendMessage_sameUnless userId assistantId now o st :
  exists chatId,
    Forall2 (sameUnless chatId) (chats st)
      (chats (sendMessage userId assistantId now o st)).
Proof.
  unfold sendMessage.
  destruct (submit userId assistantId now st) as [[st1 sub]|] eqn:Hsub.
  - exists (chatId sub).
    apply (sameUnless_trans _ _ _ (submit_sameUnless _ _ _ _ _ _ Hsub)).
    apply complete_sameUnless.
  - exists []. apply sameUnless_refl.
Qed.

(** Whatever the network does, [sendMessage] keeps the sessions in their
    order with their ids and creation times, and changes no session other
    than the ones that carry the id of the active session. *)
Theorem sendMessage_frame userId assistantId now o st active :
  activeChat st = Some active ->
  Forall2 (sameUnless (ChatSession.id active)) (chats st)
    (chats (sendMessage userId assistantId now o st))
  /\ idsOf (chats (sendMessage userId assistantId now o st)) = idsOf (chats st)
  /\ activeChatId (sendMessage userId assistantId now o st) = activeChatId st.
Proof.
  intros Hactive.
  assert (H : Forall2 (sameUnless (ChatSession.id active)) (chats st)
                (chats (sendMessage userId assistantId now o st))
              /\ activeChatId (sendMessage userId assistantId now o st)
                 = activeChatId st).
  { unfold sendMessage.
    destruct (submit userId assistantId now st) as [[st1 sub]|] eqn:Hsub.
    - destruct (submit_inv _ _ _ _ _ _ Hsub) as [a [Ha [_ [_ [Hs Hst]]]]].
      rewrite Hactive in Ha. inversion Ha; subst a.
      assert (Hid : chatId sub = ChatSession.id active)
        by (rewrite Hs; reflexivity).
      split.
      + rewrite <- Hid.
        apply (sameUnless_trans _ _ _ (submit_sameUnless _ _ _ _ _ _ Hsub)).
        apply complete_sameUnless.
      + transitivity (activeChatId st1); [|rewrite Hst; reflexivity].
        unfold complete.
        destruct o as [t|t|chunks|chunks t]; simpl; try reflexivity.
        * apply readAll_fields.
        * pose proof (readAll_fields chunks sub st1) as [G _].
          destruct (readAll chunks sub st1) as [sub2 st2]. exact G.
    - split; [apply sameUnless_refl | reflexivity]. }
  destruct H as [H1 H2]. split; [exact H1|]. split; [|exact H2].
  apply (sameUnless_ids _ _ _ H1).
Qed.

Lemma sendMessage_frame_witness :
  activeChat Scenario.drafted = Some Scenario.session
  /\ idsOf (chats (sendMessage (lit "u1") (lit "a1") 1
                     (Streamed Scenario.euroInTwoChunks) Scenario.drafted))
     = idsOf (chats Scenario.drafted).
Proof.
  assert (H : activeChat Scenario.drafted = Some Scenario.session)
    by reflexivity.
  split; [exact H|].
  exact (proj1 (proj2 (sendMessage_frame (lit "u1") (lit "a1") 1
                         (Streamed Scenario.euroInTwoChunks)
                         Scenario.drafted Scenario.session H))).
Defined.

(** *** What the sessions of a submission hold *)

Section SessionInvariant.

(** A property of a session of the submission that depends on the text of
    the placeholder and that a content update carries from the old text
    to the new one. *)
Variable Q : jsstring -> ChatSession.t -> Prop.
Variable assistantId : jsstring.
Hypothesis Q_update :
  forall t text now chat,
    Q t chat -> Q text (withContentOf assistantId text now chat).

Lemma upsertChat_sessions chatId t text now l :
  sessions chatId (Q t) l ->
  sessions chatId (Q text)
    (upsertChat chatId (withContentOf assistantId text now) l).
Proof.
  intros Hall chat Hin Hchat.
  apply In_upsertChat in Hin. destruct Hin as [chat0 [Hin0 Heq]].
  destruct (eqb (ChatSession.id chat0) chatId) eqn:E.
  - subst chat. apply (Q_update t). apply Hall; [exact Hin0|].
    apply eqb_eq. exact E.
  - subst chat. apply eqb_neq in E. contradiction.
Qed.

Lemma readAll_sessions chunks :
  forall sub st,
    ChatMessage.id (assistantMessage sub) = assistantId ->
    sessions (chatId sub) (Q (fullAssistantText sub)) (chats st) ->
    sessions (chatId sub)
      (Q (fullAssistantText (fst (readAll chunks sub st))))
      (chats (snd (readAll chunks sub st))).
Proof.
  induction chunks as [|[chunk now] rest IH]; intros sub st Hid Hinv.
  - exact Hinv.
  - cbn [readAll].
    pose proof (receive_chats chunk now sub st) as Hc.
    destruct (receive_closure chunk now sub st) as [H1 [H2 _]].
    destruct (receive chunk now sub st) as [sub1 st1].
    simpl in Hc, H1, H2. rewrite <- H1. apply IH.
    + rewrite H2. exact Hid.
    + rewrite H1, Hc, Hid. apply upsertChat_sessions with (t := fullAssistantText sub).
      exact Hinv.
Qed.

Lemma fail_sessions fallback now sub st t :
  ChatMessage.id (assistantMessage sub) = assistantId ->
  sessions (chatId sub) (Q t) (chats st) ->
  sessions (chatId sub) (Q fallback) (chats (fail fallback now sub st)).
Proof.
  intros Hid Hinv. unfold fail. simpl. rewrite Hid.
  apply upsertChat_sessions with (t := t). exact Hinv.
Qed.

Lemma complete_sessions o sub st :
  ChatMessage.id (assistantMessage sub) = assistantId ->
  fullAssistantText sub = [] ->
  decoder sub = Utf8.newTextDecoder ->
  sessions (chatId sub) (Q []) (chats st) ->
  sessions (chatId sub) (Q (finalText o)) (chats (complete o sub st)).
Proof.
  intros Hid Hfull Hdec Hinv. unfold complete. rewrite setIsStreaming_chats.
  destruct o as [now|now|chunks|chunks now]; cbn [finalText].
  - apply fail_sessions with (t := []); assumption.
  - apply fail_sessions with (t := []); assumption.
  - pose proof (readAll_sessions chunks sub st Hid) as H.
    rewrite Hfull in H. specialize (H Hinv).
    destruct (readAll_closure chunks sub st) as [_ [_ [Hf _]]].
    rewrite Hf, Hfull, Hdec in H. exact H.
  - pose proof (readAll_sessions chunks sub st Hid) as H.
    rewrite Hfull in H. specialize (H Hinv).
    destruct (readAll_closure chunks sub st) as [Hc [Ha _]].
    destruct (readAll chunks sub st) as [sub1 st1]. simpl in H, Hc, Ha.
    rewrite <- Hc.
    apply fail_sessions with (t := fullAssistantText sub1);
      [rewrite Ha; exact Hid | rewrite Hc; exact H].
Qed.

Lemma sendMessage_sessions userId now o st st1 sub :
  submit userId assistantId now st = Some (st1, sub) ->
  sessions (chatId sub) (Q []) (chats st1) ->
  sessions (chatId sub) (Q (finalText o))
    (chats (sendMessage userId assistantId now o st)).
Proof.
  intros Hsub Hinv. unfold sendMessage. rewrite Hsub.
  destruct (submit_endsWith _ _ _ _ _ _ Hsub) as [Hid [Hfull [Hdec _]]].
  apply complete_sessions; assumption.
Qed.

End SessionInvariant.

(** The fields of the state other than the sessions when [sendMessage]
    returns. *)
Lemma complete_fields o sub st :
  isStreaming (complete o sub st) = false
  /\ input (complete o sub st) = input st
  /\ inputImage (complete o sub st) = inputImage st
  /\ errorMessage (complete o sub st)
     = match o with
       | Streamed _ => errorMessage st
       | _ => finalError o
       end.
Proof.
  unfold complete.
  destruct o as [now|now|chunks|chunks now]; simpl; auto.
  - destruct (readAll_fields chunks sub st) as [_ [H2 [H3 [_ H5]]]]. auto.
  - destruct (readAll_fields chunks sub st) as [_ [H2 [H3 [_ H5]]]].
    destruct (readAll chunks sub st) as [sub1 st1]. simpl in *. auto.
Qed.

(** There is a session of the submission when [sendMessage] returns. *)
Lemma sendMessage_session_exists userId assistantId now o st st1 sub :
  submit userId assistantId now st = Some (st1, sub) ->
  exists chat,
    In chat (chats (sendMessage userId assistantId now o st))
    /\ ChatSession.id chat = chatId sub.
Proof.
  intros Hsub.
  destruct (submit_endsWith _ _ _ _ _ _ Hsub) as [_ [_ [_ [[c [Hin Hc]] _]]]].
  unfold sendMessage. rewrite Hsub.
  pose proof (complete_sameUnless o sub st1) as H.
  clear Hsub. revert c Hin Hc.
  induction H as [|x y a b [H1 _] _ IH]; intros c Hin Hc; [destruct Hin|].
  destruct Hin as [<-|Hin].
  - exists y. split; [left; reflexivity | congruence].
  - destruct (IH c Hin Hc) as [chat [G1 G2]].
    exists chat. split; [right; exact G1 | exact G2].
Qed.

(** However [sendMessage] ends, it has released the streaming flag and
    emptied the draft, the banner is empty after a complete stream and
    shows the failure text otherwise, and the placeholder, still the last
    message of its session, holds the decoded text or that same failure
    text: a failure in the middle of a stream replaces the part already
    shown. *)
Theorem sendMessage_exits userId assistantId now o st st1 sub :
  submit userId assistantId now st = Some (st1, sub) ->
  let final := sendMessage userId assistantId now o st in
  isStreaming final = false
  /\ input final = []
  /\ inputImage final = None
  /\ errorMessage final = finalError o
  /\ Spec.endsWith (chatId sub)
       (Spec.placeholder assistantId (finalText o)) (chats final)
  /\ (finalError o <> [] -> finalText o = finalError o).
Proof.
  intros Hsub. cbv zeta.
  destruct (submit_inv _ _ _ _ _ _ Hsub) as [active [_ [_ [_ [_ Hst]]]]].
  assert (Hfields : input st1 = [] /\ inputImage st1 = None
                    /\ errorMessage st1 = [])
    by (rewrite Hst; auto).
  destruct Hfields as [Hi [Him He]].
  destruct (submit_endsWith _ _ _ _ _ _ Hsub) as [_ [_ [_ [_ Hends]]]].
  split; [|split; [|split; [|split; [|split]]]].
  - unfold sendMessage. rewrite Hsub. apply complete_fields.
  - unfold sendMessage. rewrite Hsub.
    destruct (complete_fields o sub st1) as [_ [H _]]. congruence.
  - unfold sendMessage. rewrite Hsub.
    destruct (complete_fields o sub st1) as [_ [_ [H _]]]. congruence.
  - unfold sendMessage. rewrite Hsub.
    destruct (complete_fields o sub st1) as [_ [_ [_ H]]]. rewrite H.
    destruct o; simpl; congruence.
  - split; [apply (sendMessage_session_exists _ _ _ o _ _ _ Hsub)|].
    refine (sendMessage_sessions
              (fun t chat => exists front,
                   ChatSession.messages chat
                   = front ++ [Spec.placeholder assistantId t])
              assistantId _ userId now o st st1 sub Hsub Hends).
    intros t text t' chat [front Hfront]. simpl.
    rewrite Hfront, map_app. simpl. rewrite eqb_refl.
    eexists. reflexivity.
  - destruct o; simpl; congruence.
Qed.

Lemma sendMessage_exits_witness :
  exists st1 sub,
    submit (lit "u1") (lit "a1") 1 Scenario.drafted = Some (st1, sub)
    /\ isStreaming (sendMessage (lit "u1") (lit "a1") 1
                      (StreamedThenThrows Scenario.cutEuro 9) Scenario.drafted)
       = false
    /\ Spec.endsWith (chatId sub)
         (Spec.placeholder (lit "a1") FALLBACK_THROWN)
         (chats (sendMessage (lit "u1") (lit "a1") 1
                   (StreamedThenThrows Scenario.cutEuro 9) Scenario.drafted)).
Proof.
  eexists. eexists.
  assert (H : submit (lit "u1") (lit "a1") 1 Scenario.drafted
              = Some (_, _)) by (vm_compute; reflexivity).
  split; [exact H|].
  destruct (sendMessage_exits (lit "u1") (lit "a1") 1
              (StreamedThenThrows Scenario.cutEuro 9) _ _ _ H)
    as [H1 [_ [_ [_ [H5 _]]]]].
  split; [exact H1 | exact H5].
Defined.

(** *** When [sendMessage] does nothing *)

(** An accepted submission leaves two messages more in the sessions of
    the submission, however the request ends. *)
Lemma sendMessage_two_more userId assistantId now o st st1 sub active :
  submit userId assistantId now st = Some (st1, sub) ->
  activeChat st = Some active ->
  sessions (chatId sub)
    (fun chat =>
       List.length (ChatSession.messages chat)
       = S (S (List.length (ChatSession.messages active))))
    (chats (sendMessage userId assistantId now o st)).
Proof.
  intros Hsub Hactive.
  destruct (submit_messages _ _ _ _ _ _ _ Hsub Hactive) as [_ Hall].
  refine (sendMessage_sessions
            (fun _ chat =>
               List.length (ChatSession.messages chat)
               = S (S (List.length (ChatSession.messages active))))
            assistantId _ userId now o st st1 sub Hsub _).
  - intros t text t' chat H. simpl. rewrite length_map. exact H.
  - intros chat Hin Hchat. rewrite (Hall chat Hin Hchat), length_app.
    simpl. lia.
Qed.

(** The state is the same after [sendMessage] only when the guard
    returned. *)
Lemma sendMessage_unchanged userId assistantId now o st :
  sendMessage userId assistantId now o st = st <->
  submit userId assistantId now st = None.
Proof.
  split.
  - intros Hsame.
    destruct (submit userId assistantId now st) as [[st1 sub]|] eqn:Hsub;
      [exfalso | reflexivity].
    destruct (submit_inv _ _ _ _ _ _ Hsub) as [active [Ha [_ [_ [Hs _]]]]].
    pose proof (sendMessage_two_more _ _ _ o _ _ _ _ Hsub Ha) as Hmore.
    rewrite Hsame in Hmore.
    specialize (Hmore active (activeChat_In _ _ Ha)).
    assert (Hid : ChatSession.id active = chatId sub)
      by (rewrite Hs; reflexivity).
    specialize (Hmore Hid). cbv beta in Hmore.
    revert Hmore. generalize (List.length (ChatSession.messages active)).
    intros n Hn. lia.
  - intros Hnone. unfold sendMessage. rewrite Hnone. reflexivity.
Qed.


(** With ids that are new, [sendMessage] only appends: the former
    messages of the session and the user message are there afterwards as
    they were, followed by the placeholder. *)
Theorem sendMessage_appends userId assistantId now o st st1 sub active :
  submit userId assistantId now st = Some (st1, sub) ->
  activeChat st = Some active ->
  assistantId <> userId ->
  (forall m, In m (ChatSession.messages active) ->
             ChatMessage.id m <> assistantId) ->
  sessions (chatId sub)
    (fun chat =>
       ChatSession.messages chat
       = ChatSession.messages active
         ++ [userMessage sub; Spec.placeholder assistantId (finalText o)])
    (chats (sendMessage userId assistantId now o st)).
Proof.
  intros Hsub Hactive Hids Hfresh.
  destruct (submit_messages _ _ _ _ _ _ _ Hsub Hactive) as [_ Hall].
  destruct (submit_inv _ _ _ _ _ _ Hsub) as [a [_ [_ [_ [Hs _]]]]].
  assert (Hu : ChatMessage.id (userMessage sub) = userId)
    by (rewrite Hs; reflexivity).
  assert (Ha : assistantMessage sub = Spec.placeholder assistantId [])
    by (rewrite Hs; reflexivity).
  refine (sendMessage_sessions
            (fun t chat =>
               ChatSession.messages chat
               = ChatSession.messages active
                 ++ [userMessage sub; Spec.placeholder assistantId t])
            assistantId _ userId now o st st1 sub Hsub _).
  - intros t text t' chat Hchat. simpl. rewrite Hchat, map_app. f_equal.
    + rewrite <- (map_id (ChatSession.messages active)) at 2.
      apply map_ext_in. intros m Hm.
      pose proof (Hfresh m Hm) as Hne. apply eqb_neq in Hne.
      rewrite Hne. reflexivity.
    + simpl. rewrite Hu.
      assert (Hne : eqb userId assistantId = false)
        by (apply eqb_neq; congruence).
      rewrite Hne, eqb_refl. reflexivity.
  - intros chat Hin Hchat. rewrite (Hall chat Hin Hchat), Ha. reflexivity.
Qed.

Lemma sendMessage_appends_witness :
  exists st1 sub,
    submit (lit "u1") (lit "a1") 1 Scenario.drafted = Some (st1, sub)
    /\ activeChat Scenario.drafted = Some Scenario.session
    /\ lit "a1" <> lit "u1"
    /\ sessions (chatId sub)
         (fun chat =>
            ChatSession.messages chat
            = [] ++ [userMessage sub;
                     Spec.placeholder (lit "a1")
                       (finalText (Streamed Scenario.euroInTwoChunks))])
         (chats (sendMessage (lit "u1") (lit "a1") 1
                   (Streamed Scenario.euroInTwoChunks) Scenario.drafted)).
Proof.
  eexists. eexists.
  assert (H1 : submit (lit "u1") (lit "a1") 1 Scenario.drafted
               = Some (_, _)) by (vm_compute; reflexivity).
  assert (H2 : activeChat Scenario.drafted = Some Scenario.session)
    by reflexivity.
  assert (H3 : lit "a1" <> lit "u1") by discriminate.
  split; [exact H1|]. split; [exact H2|]. split; [exact H3|].
  apply (sendMessage_appends _ _ _ (Streamed Scenario.euroInTwoChunks)
           _ _ _ _ H1 H2 H3).
  intros m [].
Defined.

(** *** Titles of sessions *)

Lemma existsb_isUser_false (messages : list ChatMessage.t) :
  existsb isUser messages = false ->
  Forall (fun m => ChatMessage.role m = assistant) messages.
Proof.
  induction messages as [|m rest IH]; simpl; [constructor|].
  intros H. apply orb_false_iff in H. destruct H as [Hm Hrest].
  constructor; [|apply IH; exact Hrest].
  unfold isUser in Hm. destruct (ChatMessage.role m); [discriminate|reflexivity].
Qed.

Lemma find_isUser_app (a b : list ChatMessage.t) :
  existsb isUser a = true -> find isUser (a ++ b) = find isUser a.
Proof.
  induction a as [|m rest IH]; simpl; [discriminate|].
  destruct (isUser m); [reflexivity|]. simpl. exact IH.
Qed.

(** The title is decided by the first user message: messages that come
    after one never change it. *)
Lemma deriveTitle_app (a b : list ChatMessage.t) :
  existsb isUser a = true -> deriveTitle (a ++ b) = deriveTitle a.
Proof.
  intros H. unfold deriveTitle. rewrite (find_isUser_app a b H). reflexivity.
Qed.

Lemma deriveTitle_first (a : list ChatMessage.t) (u : ChatMessage.t)
    (rest : list ChatMessage.t) :
  existsb isUser a = false -> ChatMessage.role u = user ->
  deriveTitle (a ++ u :: rest) = Spec.titleOfTextOrImage (Some u).
Proof.
  intros Ha Hu. unfold deriveTitle.
  rewrite (find_isUser_first a u rest (existsb_isUser_false a Ha) Hu).
  simpl. destruct (trim (ChatMessage.content u)); reflexivity.
Qed.

(** The title of the session once [sendMessage] has returned, whatever
    the network did: when the session already had a user message, the
    title that message gives; otherwise the title the new user message
    gives, its trimmed text cut at 50 code units or the name of its
    image.  Streamed text never changes a title. *)
Theorem title_after_sendMessage userId assistantId now o st st1 sub active :
  submit userId assistantId now st = Some (st1, sub) ->
  activeChat st = Some active ->
  sessions (chatId sub)
    (fun chat =>
       ChatSession.title chat
       = if existsb isUser (ChatSession.messages active)
         then deriveTitle (ChatSession.messages active)
         else match trim (input st) with
              | [] => match inputImage st with
                      | Some img => lit "Image: " ++ ChatImage.name img
                      | None => lit "New Chat"
                      end
              | text => firstn 50 text
              end)
    (chats (sendMessage userId assistantId now o st)).
Proof.
  intros Hsub Hactive.
  destruct (submit_inv _ _ _ _ _ _ Hsub) as [a [Ha [_ [_ [Hs Hst]]]]].
  rewrite Hactive in Ha. inversion Ha; subst a. clear Ha.
  set (T := if existsb isUser (ChatSession.messages active)
            then deriveTitle (ChatSession.messages active)
            else match trim (input st) with
                 | [] => match inputImage st with
                         | Some img => lit "Image: " ++ ChatImage.name img
                         | None => lit "New Chat"
                         end
                 | text => firstn 50 text
                 end).
  refine (sendMessage_sessions (fun _ chat => ChatSession.title chat = T)
            assistantId _ userId now o st st1 sub Hsub _).
  - intros t text t' chat H. exact H.
  - intros chat Hin Hchat. rewrite Hst in Hin. simpl in Hin.
    apply In_upsertChat in Hin. destruct Hin as [chat0 [_ Heq]].
    destruct (eqb (ChatSession.id chat0) (ChatSession.id active)) eqn:E.
    + subst chat. simpl. rewrite Hs. cbn [nextMessages]. subst T.
      destruct (existsb isUser (ChatSession.messages active)) eqn:Eu.
      * apply deriveTitle_app. exact Eu.
      * rewrite deriveTitle_first by (exact Eu || reflexivity).
        unfold Spec.titleOfTextOrImage. cbn [ChatMessage.content ChatMessage.image].
        rewrite trim_idempotent. reflexivity.
    + subst chat. apply eqb_neq in E. rewrite Hs in Hchat. contradiction.
Qed.

Lemma title_after_sendMessage_witness :
  exists st1 sub,
    submit (lit "u1") (lit "a1") 1 Scenario.drafted = Some (st1, sub)
    /\ activeChat Scenario.drafted = Some Scenario.session
    /\ sessions (chatId sub)
         (fun chat => ChatSession.title chat = lit "hi")
         (chats (sendMessage (lit "u1") (lit "a1") 1
                   (FetchThrows 7) Scenario.drafted)).
Proof.
  eexists. eexists.
  assert (H1 : submit (lit "u1") (lit "a1") 1 Scenario.drafted
               = Some (_, _)) by (vm_compute; reflexivity).
  assert (H2 : activeChat Scenario.drafted = Some Scenario.session)
    by reflexivity.
  split; [exact H1|]. split; [exact H2|].
  exact (title_after_sendMessage _ _ _ (FetchThrows 7) _ _ _ _ H1 H2).
Defined.

(** *** What holds after any sequence of actions *)

Lemma Forall2_nonempty (R : ChatSession.t -> ChatSession.t -> Prop)
    (a b : list ChatSession.t) :
  Forall2 R a b -> a <> [] -> b <> [].
Proof. intros H Ha. destruct H; [contradiction | discriminate]. Qed.

Lemma act_keeps_a_session (a : Action) (st : State) :
  chats st <> [] -> chats (act a st) <> [].
Proof.
  intros Hne.
  destruct a as [newId now|newId now|now|chatId|text|file read| |u ai now o];
    cbn [act]; try exact Hne; try discriminate.
  - unfold clearCurrentChat. destruct (activeChat st); [|exact Hne].
    simpl. unfold upsertChat. destruct (chats st); [contradiction|discriminate].
  - unfold onImageSelect.
    destruct (negb _); [exact Hne|]. destruct (_ <? _)%Z; [exact Hne|].
    destruct read as [|result]; [exact Hne|].
    destruct (negb _); exact Hne.
  - destruct (sendMessage_sameUnless u ai now o st) as [chatId H].
    exact (Forall2_nonempty _ _ _ H Hne).
Qed.

Lemma act_releases_the_flag (a : Action) (st : State) :
  isStreaming st = false -> isStreaming (act a st) = false.
Proof.
  intros Hs.
  destruct a as [newId now|newId now|now|chatId|text|file read| |u ai now o];
    cbn [act]; try exact Hs.
  - unfold clearCurrentChat. destruct (activeChat st); exact Hs.
  - unfold onImageSelect.
    destruct (negb _); [exact Hs|]. destruct (_ <? _)%Z; [exact Hs|].
    destruct read as [|result]; [exact Hs|].
    destruct (negb _); exact Hs.
  - unfold sendMessage. destruct (submit u ai now st) as [[st1 sub]|];
      [apply complete_fields | exact Hs].
Qed.

Lemma actAll_invariant (actions : list Action) :
  forall st,
    chats st <> [] -> isStreaming st = false ->
    chats (actAll actions st) <> [] /\ isStreaming (actAll actions st) = false.
Proof.
  unfold actAll.
  induction actions as [|a rest IH]; intros st Hne Hs; [auto|].
  simpl. apply IH; [apply act_keeps_a_session | apply act_releases_the_flag];
    assumption.
Qed.

(** Once the component is mounted, whatever the user does and however the
    requests end, there is always a session, one of them is the active
    one, and no request is left streaming; so [sendMessage] leaves the
    state as it is only for a blank draft, and for a blank draft only. *)
Theorem always_ready (actions : list Action) (newId : jsstring) (now : Z) :
  let st := actAll actions (mount newId now initialState) in
  chats st <> []
  /\ isStreaming st = false
  /\ (exists active, activeChat st = Some active /\ In active (chats st))
  /\ (forall userId assistantId at1,
        submit userId assistantId at1 st = None <-> blankDraft st)
  /\ (forall userId assistantId at1 o,
        sendMessage userId assistantId at1 o st = st <-> blankDraft st).
Proof.
  cbv zeta.
  destruct (actAll_invariant actions (mount newId now initialState))
    as [Hne Hs]; [discriminate | reflexivity |].
  assert (Hguard : forall userId assistantId at1,
            submit userId assistantId at1
              (actAll actions (mount newId now initialState)) = None
            <-> blankDraft (actAll actions (mount newId now initialState))).
  { intros userId assistantId at1. rewrite submit_None, Hs.
    split; [intros [H|[H|H]]; [discriminate | exact H | contradiction]|].
    intros H. right. left. exact H. }
  split; [exact Hne|]. split; [exact Hs|]. split; [|split].
  - destruct (activeChat _) as [active|] eqn:E.
    + exists active. split; [reflexivity | apply activeChat_In; exact E].
    + apply activeChat_None in E. contradiction.
  - exact Hguard.
  - intros userId assistantId at1 o. rewrite sendMessage_unchanged.
    apply Hguard.
Qed.

(** *** Clearing while a response streams *)

(** After "Clear Chats", what still arrives of a response, text or
    failure, changes no session: the cleared sessions do not come back and
    the new empty session stays empty. *)
Theorem cleared_sessions_stay_cleared newId now chunk at1 fallback sub st :
  newId <> chatId sub ->
  chats (clearAllChats newId now st) = [createEmptyChat newId now]
  /\ chats (snd (receive chunk at1 sub (clearAllChats newId now st)))
     = [createEmptyChat newId now]
  /\ chats (fail fallback at1 sub (clearAllChats newId now st))
     = [createEmptyChat newId now].
Proof.
  intros Hne. apply eqb_neq in Hne.
  split; [reflexivity|]. split.
  - rewrite receive_chats. simpl. rewrite Hne. reflexivity.
  - unfold fail. simpl. rewrite Hne. reflexivity.
Qed.

Lemma cleared_sessions_stay_cleared_witness :
  lit "c9" <> lit "c1"
  /\ chats (fail FALLBACK_THROWN 8
              (mkSubmission (lit "c1")
                 (ChatMessage.mk (lit "u1") user (lit "hi") None)
                 (ChatMessage.mk (lit "a1") assistant [] None)
                 [] Utf8.newTextDecoder [])
              (clearAllChats (lit "c9") 7 Scenario.drafted))
     = [createEmptyChat (lit "c9") 7].
Proof.
  assert (H : lit "c9" <> lit "c1") by discriminate.
  split; [exact H|].
  exact (proj2 (proj2 (cleared_sessions_stay_cleared (lit "c9") 7 [] 8
                         FALLBACK_THROWN
                         (mkSubmission (lit "c1")
                            (ChatMessage.mk (lit "u1") user (lit "hi") None)
                            (ChatMessage.mk (lit "a1") assistant [] None)
                            [] Utf8.newTextDecoder [])
                         Scenario.drafted H))).
Defined.

(** *** Images *)

Lemma upToComma_no_comma (s : jsstring) : ~ In COMMA (upToComma s).
Proof.
  induction s as [|c rest IH]; simpl; [tauto|].
  destruct (N.eqb_spec c COMMA); simpl; [tauto|].
  intros [H|H]; [congruence | tauto].
Qed.

(** [onImageSelect] either refuses the file, leaving the draft image as it
    was and showing one of its four messages, or sets the draft image to
    the file's type and name with the second comma-separated field of the
    data URL; it sets an image only for a file whose type starts with
    "image/" and whose size is at most 10485760 bytes, and the data it
    stores is not empty and holds no comma.  It touches nothing else. *)
Theorem onImageSelect_validates (file : File) (read : ReadOutcome)
    (st : State) :
  let st' := onImageSelect file read st in
  chats st' = chats st
  /\ activeChatId st' = activeChatId st
  /\ input st' = input st
  /\ isStreaming st' = isStreaming st
  /\ ((inputImage st' = inputImage st /\ In (errorMessage st') imageErrors)
      \/ exists data,
           inputImage st' = Some (ChatImage.mk (type file) data (name file))
           /\ errorMessage st' = []
           /\ startsWith (lit "image/") (type file) = true
           /\ (size file <= 10485760)%Z
           /\ data <> [] /\ ~ In COMMA data
           /\ exists text, read = ReadResult (Some text)
                           /\ data = secondField text).
Proof.
  cbv zeta. unfold onImageSelect.
  assert (Hrefuse : forall e, In e imageErrors ->
            chats (setErrorMessage e st) = chats st
            /\ activeChatId (setErrorMessage e st) = activeChatId st
            /\ input (setErrorMessage e st) = input st
            /\ isStreaming (setErrorMessage e st) = isStreaming st
            /\ ((inputImage (setErrorMessage e st) = inputImage st
                 /\ In (errorMessage (setErrorMessage e st)) imageErrors)
                \/ exists data,
                     inputImage (setErrorMessage e st)
                     = Some (ChatImage.mk (type file) data (name file))
                     /\ errorMessage (setErrorMessage e st) = []
                     /\ startsWith (lit "image/") (type file) = true
                     /\ (size file <= 10485760)%Z
                     /\ data <> [] /\ ~ In COMMA data
                     /\ exists text, read = ReadResult (Some text)
                                     /\ data = secondField text)).
  { intros e He. do 4 (split; [reflexivity|]). left.
    split; [reflexivity | exact He]. }
  destruct (startsWith (lit "image/") (type file)) eqn:Et; cbn [negb].
  - destruct (Z.ltb_spec maxSizeInBytes (size file)) as [Hs|Hs].
    + apply Hrefuse. right. left. reflexivity.
    + destruct read as [|[text|]].
      * apply Hrefuse. right. right. left. reflexivity.
      * destruct (secondField text) as [|x data] eqn:Ed; cbn [truthy negb].
        -- apply Hrefuse. right. right. right. left. reflexivity.
        -- do 4 (split; [reflexivity|]). right. exists (x :: data).
           split; [reflexivity|]. split; [reflexivity|].
           split; [reflexivity|]. split; [exact Hs|].
           split; [discriminate|]. split.
           ++ rewrite <- Ed. unfold secondField.
              destruct (afterComma text); [apply upToComma_no_comma | tauto].
           ++ exists text. split; [reflexivity | symmetry; exact Ed].
      * apply Hrefuse. right. right. right. left. reflexivity.
  - apply Hrefuse. left. reflexivity.
Qed.

(** *** From the upstream texts to the placeholder *)

(** What the gateway relays arrives: when the upstream texts are
    well-formed strings, then however the transport cuts the bytes the
    gateway enqueued, the placeholder ends up with the texts joined, less a
    byte order mark at the very start; upstream chunks with an empty text
    leave no trace. *)
Theorem relayed_text_arrives userId assistantId now st st1 sub texts chunks :
  submit userId assistantId now st = Some (st1, sub) ->
  Forall (fun t => TextEncoder.wellFormed t = true) texts ->
  Spec.joined chunks = List.concat (Relay.enqueued texts) ->
  Spec.endsWith (chatId sub)
    (Spec.placeholder assistantId
       (TextEncoder.withoutBOM (List.concat texts)))
    (chats (sendMessage userId assistantId now (Streamed chunks) st)).
Proof.
  intros Hsub Htexts Hbytes.
  pose proof (EncoderFacts.wellFormed_concat texts Htexts) as Hw.
  pose proof (EncoderFacts.codePoints_scalar _ Hw) as Hscalar.
  rewrite (EncoderFacts.enqueued_joined texts Htexts) in Hbytes.
  rewrite <- (EncoderFacts.serialize_codePoints _ Hw).
  rewrite <- (Utf8Facts.decode_encode _ Hscalar), <- Hbytes.
  rewrite (sendMessage_streamed _ _ _ _ _ _ chunks Hsub).
  rewrite Utf8Facts.decode_not_pending
    by (rewrite Hbytes; apply Utf8Facts.encode_not_pending; exact Hscalar).
  apply (readAll_decodedSoFar _ _ _ _ _ _ chunks Hsub).
Qed.

Lemma relayed_text_arrives_witness :
  exists st1 sub,
    submit (lit "u1") (lit "a1") 1 Scenario.drafted = Some (st1, sub)
    /\ Forall (fun t => TextEncoder.wellFormed t = true)
         MoreScenarios.upstreamTexts
    /\ Spec.joined MoreScenarios.recut
       = List.concat (Relay.enqueued MoreScenarios.upstreamTexts)
    /\ Spec.endsWith (chatId sub)
         (Spec.placeholder (lit "a1")
            (lit "a" ++ [0xD83D; 0xDE00; 0x20AC]%N))
         (chats (sendMessage (lit "u1") (lit "a1") 1
                   (Streamed MoreScenarios.recut) Scenario.drafted)).
Proof.
  eexists. eexists.
  assert (H1 : submit (lit "u1") (lit "a1") 1 Scenario.drafted
               = Some (_, _)) by (vm_compute; reflexivity).
  assert (H2 : Forall (fun t => TextEncoder.wellFormed t = true)
                 MoreScenarios.upstreamTexts)
    by (repeat constructor).
  assert (H3 : Spec.joined MoreScenarios.recut
               = List.concat (Relay.enqueued MoreScenarios.upstreamTexts))
    by (vm_compute; reflexivity).
  split; [exact H1|]. split; [exact H2|]. split; [exact H3|].
  exact (relayed_text_arrives _ _ _ _ _ _ _ _ H1 H2 H3).
Defined.

(** *** From the draft to the turns sent upstream *)

(** The transcript of an accepted submission, as the gateway translates
    it: the turns of the session's former messages followed by one "user"
    turn for the new message, which carries the trimmed draft, the image,
    or both; the empty placeholder that the request body ends with gives
    no turn, and the body is never an empty array. *)
Theorem submitted_transcript userId assistantId now st st1 sub active :
  submit userId assistantId now st = Some (st1, sub) ->
  activeChat st = Some active ->
  let turn := Spec.turnWithTrimmedText (requestMessage (userMessage sub)) in
  Gateway.buildGeminiContents (requestMessages (nextMessages sub))
  = Gateway.buildGeminiContents (requestMessages (ChatSession.messages active))
    ++ [turn]
  /\ Gateway.role turn = lit "user"
  /\ Relay.wellFormedParts (Gateway.parts turn)
  /\ Gateway.noTranscript
       (Gateway.Body (Gateway.Messages (requestMessages (nextMessages sub))))
     = false.
Proof.
  intros Hsub Hactive. cbv zeta.
  destruct (submit_inv _ _ _ _ _ _ Hsub) as [a [Ha [_ [Hdraft [Hs _]]]]].
  rewrite Hactive in Ha. inversion Ha; subst a. clear Ha.
  rewrite Hs. cbn [nextMessages userMessage].
  set (u := ChatMessage.mk userId user (trim (input st)) (inputImage st)).
  set (ph := ChatMessage.mk assistantId assistant [] None).
  assert (Hkept : Gateway.keptMessage (requestMessage u) = true).
  { apply GatewayFacts.keptMessage_iff. unfold Spec.hasTextOrImage. simpl.
    rewrite trim_idempotent.
    destruct Hdraft as [H|H]; [left; exact H|].
    right. destruct (inputImage st); [discriminate | contradiction]. }
  assert (Hturn : Gateway.toContent (requestMessage u)
                  = Spec.turnWithTrimmedText (requestMessage u)).
  { rewrite GatewayFacts.toContent_original.
    unfold Spec.turnWithOriginalText, Spec.turnWithTrimmedText. simpl.
    rewrite trim_idempotent. destruct (trim (input st)); reflexivity. }
  split; [|split; [|split]].
  - unfold requestMessages. rewrite map_app.
    rewrite TranscriptFacts.buildGeminiContents_app. f_equal.
    cbn [List.map]. rewrite GatewayFacts.buildGeminiContents_cons, Hkept.
    rewrite Hturn. reflexivity.
  - reflexivity.
  - rewrite <- Hturn.
    apply (TranscriptFacts.toContent_wellFormed _ Hkept).
  - unfold requestMessages. rewrite map_app.
    destruct (List.map requestMessage (ChatSession.messages active));
      reflexivity.
Qed.

Lemma submitted_transcript_witness :
  exists st1 sub,
    submit (lit "u1") (lit "a1") 1 Scenario.drafted = Some (st1, sub)
    /\ activeChat Scenario.drafted = Some Scenario.session
    /\ Gateway.buildGeminiContents (requestMessages (nextMessages sub))
       = [] ++ [Gateway.mkContent (lit "user") [Gateway.TextPart (lit "hi")]].
Proof.
  eexists. eexists.
  assert (H1 : submit (lit "u1") (lit "a1") 1 Scenario.drafted
               = Some (_, _)) by (vm_compute; reflexivity).
  assert (H2 : activeChat Scenario.drafted = Some Scenario.session)
    by reflexivity.
  split; [exact H1|]. split; [exact H2|].
  exact (proj1 (submitted_transcript _ _ _ _ _ _ _ H1 H2)).
Defined.

(** *** The theorems on streaming at concrete sessions *)

Lemma streamed_text_any_chunking_witness :
  exists st1 sub,
    submit (lit "u1") (lit "a1") 1 Scenario.drafted = Some (st1, sub)
    /\ Forall (fun cp => Utf8.is_scalar cp = true) [0x20AC%N]
    /\ Spec.joined Scenario.euroInTwoChunks = Utf8.encode [0x20AC%N]
    /\ Spec.endsWith (chatId sub)
         (Spec.placeholder (lit "a1") [0x20AC%N])
         (chats (sendMessage (lit "u1") (lit "a1") 1
                   (Streamed Scenario.euroInTwoChunks) Scenario.drafted)).
Proof.
  eexists. eexists.
  assert (H1 : submit (lit "u1") (lit "a1") 1 Scenario.drafted
               = Some (_, _)) by (vm_compute; reflexivity).
  assert (H2 : Forall (fun cp => Utf8.is_scalar cp = true) [0x20AC%N])
    by (repeat constructor).
  assert (H3 : Spec.joined Scenario.euroInTwoChunks = Utf8.encode [0x20AC%N])
    by reflexivity.
  split; [exact H1|]. split; [exact H2|]. split; [exact H3|].
  exact (streamed_text_any_chunking _ _ _ _ _ _ _ _ H1 H2 H3).
Defined.

Lemma streaming_across_session_changes_witness :
  exists st1 sub,
    submit (lit "u1") (lit "a1") 1 Scenario.drafted = Some (st1, sub)
    /\ Spec.endsWith (chatId sub)
         (Spec.placeholder (lit "a1") [0x20AC%N])
         (chats (snd (handleAll MoreScenarios.busy sub st1)))
    /\ activeChatId (snd (handleAll MoreScenarios.busy sub st1)) = lit "c2".
Proof.
  eexists. eexists.
  assert (H1 : submit (lit "u1") (lit "a1") 1 Scenario.drafted
               = Some (_, _)) by (vm_compute; reflexivity).
  split; [exact H1|].
  destruct (submit_endsWith _ _ _ _ _ _ H1) as [Hid [_ [_ Hends]]].
  split; [|reflexivity].
  refine (proj1 (streaming_across_session_changes MoreScenarios.busy
                   (lit "a1") _ _ Hid _ Hends)).
  intros newId t [H|[H|[H|[H|[]]]]]; inversion H; discriminate.
Defined.

End ChatAppFacts.

(** ** Bubbles and code blocks *)

Module ViewFacts.

Import JS JSFacts MessageBubble CodeBlock.

Lemma startsWith_app (p s b : jsstring) :
  startsWith p s = true -> startsWith p (s ++ b) = true.
Proof.
  revert s. induction p as [|x p IH]; intros s; [reflexivity|].
  destruct s as [|y s]; simpl; [discriminate|].
  intros H. apply andb_true_iff in H. destruct H as [H1 H2].
  rewrite H1, (IH s H2). reflexivity.
Qed.

Lemma includes_app (s b p : jsstring) :
  includes s p = true -> includes (s ++ b) p = true.
Proof.
  induction s as [|c s IH]; simpl.
  - rewrite orb_false_r. intros H. destruct p; [|discriminate].
    destruct b; reflexivity.
  - intros H. apply orb_true_iff in H. destruct H as [H|H].
    + change (c :: s ++ b) with ((c :: s) ++ b).
      rewrite (startsWith_app p (c :: s) b H). reflexivity.
    + rewrite (IH H). apply orb_true_r.
Qed.

Lemma newlineCount_app (a b : jsstring) :
  newlineCount (a ++ b) = (newlineCount a + newlineCount b)%nat.
Proof. unfold newlineCount. rewrite filter_app, length_app. reflexivity. Qed.

Lemma codeSignals_app (a b : jsstring) :
  codeSignals a = true -> codeSignals (a ++ b) = true.
Proof.
  unfold codeSignals. rewrite existsb_app. intros H.
  repeat (apply orb_true_iff in H; destruct H as [H|H]);
    repeat (apply orb_true_iff; first [right; apply includes_app; exact H | left]);
    try (apply includes_app; exact H).
  rewrite H. reflexivity.
Qed.

(** Text that keeps arriving never turns a code-heavy message back into a
    plain one: what is code-heavy stays code-heavy with any text appended,
    so a bubble does not narrow while its response streams.  A message
    without a fence and with fewer than three newlines is never
    code-heavy. *)
Theorem code_heavy_is_kept (content more : jsstring) :
  (isCodeHeavyMessage content = true ->
   isCodeHeavyMessage (content ++ more) = true)
  /\ (includes content FENCE = false -> (newlineCount content < 3)%nat ->
      isCodeHeavyMessage content = false).
Proof.
  unfold isCodeHeavyMessage. split.
  - destruct (includes content FENCE) eqn:Ef.
    + intros _. rewrite (includes_app content more FENCE Ef). reflexivity.
    + intros H. apply andb_true_iff in H. destruct H as [Hn Hs].
      destruct (includes (content ++ more) FENCE); [reflexivity|].
      rewrite (codeSignals_app content more Hs), newlineCount_app.
      apply Nat.leb_le in Hn. rewrite andb_true_r. apply Nat.leb_le. lia.
  - intros -> Hn. apply Nat.ltb_lt in Hn.
    rewrite Nat.ltb_antisym in Hn. apply negb_true_iff in Hn.
    rewrite Hn. reflexivity.
Qed.

(** Only a user's message is ever shown preformatted, and only one of at
    least four lines without a code fence: assistant text and fenced text
    always go through the Markdown renderer. *)
Theorem rendering_preformatted (message : ChatMessage.t) :
  rendering message = Preformatted ->
  ChatMessage.role message = user
  /\ includes (ChatMessage.content message) FENCE = false
  /\ (3 <= newlineCount (ChatMessage.content message))%nat
  /\ codeSignals (ChatMessage.content message) = true.
Proof.
  unfold rendering, isCodeHeavyMessage, Reducer.isUser.
  destruct (ChatMessage.role message); [|discriminate].
  destruct (includes (ChatMessage.content message) FENCE); [discriminate|].
  destruct (Nat.leb_spec 3 (newlineCount (ChatMessage.content message)));
    [|discriminate].
  destruct (codeSignals (ChatMessage.content message)); [|discriminate].
  auto.
Qed.

Lemma rendering_preformatted_witness :
  rendering (ChatMessage.mk (lit "m1") user
               (lit "a" ++ [NEWLINE] ++ lit "b;" ++ [NEWLINE; NEWLINE]) None)
  = Preformatted
  /\ (3 <= newlineCount (lit "a" ++ [NEWLINE] ++ lit "b;" ++ [NEWLINE; NEWLINE]))%nat.
Proof.
  assert (H : rendering
                (ChatMessage.mk (lit "m1") user
                   (lit "a" ++ [NEWLINE] ++ lit "b;" ++ [NEWLINE; NEWLINE])
                   None)
              = Preformatted) by reflexivity.
  split; [exact H|].
  exact (proj1 (proj2 (proj2 (rendering_preformatted _ H)))).
Defined.

(** *** Code blocks *)

Lemma takeWord_word (s : jsstring) :
  Forall (fun c => isWord c = true) (takeWord s).
Proof.
  induction s as [|c rest IH]; cbn [takeWord]; [constructor|].
  destruct (isWord c) eqn:E; constructor; assumption.
Qed.

Lemma takeWord_app (w rest : jsstring) :
  Forall (fun c => isWord c = true) w ->
  (forall c r, rest = c :: r -> isWord c = false) ->
  takeWord (w ++ rest) = w.
Proof.
  intros Hw Hrest. induction Hw as [|c w Hc _ IH]; cbn [app takeWord].
  - destruct rest as [|c r]; [reflexivity|]. cbn [takeWord].
    rewrite (Hrest c r eq_refl). reflexivity.
  - rewrite Hc, IH. reflexivity.
Qed.

Lemma firstLanguage_word (className word : jsstring) :
  firstLanguage className = Some word ->
  word <> [] /\ Forall (fun c => isWord c = true) word.
Proof.
  induction className as [|c rest IH]; cbn [firstLanguage]; [discriminate|].
  destruct (startsWith PREFIX (c :: rest)); [|exact IH].
  destruct (takeWord (skipn (List.length PREFIX) (c :: rest)))
    as [|x w] eqn:E; [exact IH|].
  intros H. inversion H; subst word. split; [discriminate|].
  rewrite <- E. apply takeWord_word.
Qed.

Lemma startsWith_self_app (p s : jsstring) : startsWith p (p ++ s) = true.
Proof.
  induction p as [|x p IH]; [reflexivity|]. simpl.
  rewrite N.eqb_refl, IH. reflexivity.
Qed.

(** The language of a code block is never empty and consists of word
    characters only, whatever the class name is; it is "text" without a
    class name; for the class name "language-" followed by a word it is
    that word, up to the first character that is not a word character. *)
Theorem language_is_a_word :
  (forall className,
     language className <> []
     /\ Forall (fun c => isWord c = true) (language className))
  /\ language None = lit "text"
  /\ (forall word rest,
        word <> [] ->
        Forall (fun c => isWord c = true) word ->
        (forall c r, rest = c :: r -> isWord c = false) ->
        language (Some (PREFIX ++ word ++ rest)) = word).
Proof.
  split; [|split].
  - intros className. unfold language.
    destruct (firstLanguage _) as [word|] eqn:E.
    + apply (firstLanguage_word _ _ E).
    + split; [discriminate | repeat constructor].
  - reflexivity.
  - intros word rest Hne Hword Hrest. unfold language.
    assert (H : firstLanguage (PREFIX ++ word ++ rest) = Some word).
    { change (PREFIX ++ word ++ rest)
        with (108%N :: (skipn 1 PREFIX ++ word ++ rest)).
      cbn [firstLanguage].
      change (108%N :: (skipn 1 PREFIX ++ word ++ rest))
        with (PREFIX ++ word ++ rest).
      rewrite startsWith_self_app.
      rewrite skipn_app, skipn_all, Nat.sub_diag.
      cbn [skipn app]. rewrite (takeWord_app word rest Hword Hrest).
      destruct word; [contradiction | reflexivity]. }
    rewrite H. reflexivity.
Qed.

(** The code of a block is its text without one final newline: a text
    that ends with a newline loses exactly that one, any other text is
    kept as it is. *)
Theorem code_drops_one_final_newline (children : jsstring) :
  code (children ++ [NEWLINE]) = children
  /\ ((forall front, children <> front ++ [NEWLINE]) ->
      code children = children).
Proof.
  unfold code. split.
  - rewrite rev_app_distr. simpl. apply rev_involutive.
  - intros Hno. destruct (rev children) as [|c front] eqn:E.
    + apply (f_equal (@rev N)) in E. rewrite rev_involutive in E.
      symmetry. exact E.
    + destruct (N.eqb_spec c NEWLINE) as [->|Hc]; [|reflexivity].
      exfalso. apply (Hno (rev front)).
      rewrite <- (rev_involutive children), E. reflexivity.
Qed.

End ViewFacts.
